(** * A dependency-ordered task scheduler: DAG and Pipeline

    Shallow embedding of the classes [DAG] and [Pipeline] of
    [hacker_news_data_pipeline.ipynb], and the properties of the
    topological sort (Kahn's algorithm), of edge insertion and of the
    pipeline executor. *)

From Stdlib Require Import List ZArith Lia Bool PeanoNat Permutation.
From Stdlib Require String Ascii Sorted.
Import ListNotations.
Import String.StringSyntax Ascii.AsciiSyntax.
Delimit Scope string_scope with string.
Delimit Scope char_scope with char.

Set Implicit Arguments.

(* ================================================================== *)
(** * Data model *)

(** A node is the identity of the Python object used as a dictionary
    key.  In the repository the keys are function objects: they hash
    and compare by identity. *)
Definition Node := nat.

(** The truth value of a key, which [if to:] and [if depends_on:]
    test.  Function objects are truthy; node [0] is a key that is not,
    as the number [0] or the empty string. *)
Definition truth (n : Node) : bool := negb (Nat.eqb n 0).

(** What [if x:] lets through of an optional argument whose default
    is [None]: the key that was passed, when it is truthy. *)
Definition given (x : option Node) : option Node :=
  match x with
  | Some n => if truth n then Some n else None
  | None => None
  end.

(** ** Python dictionaries

    A [dict] keeps its keys in insertion order; [d[k] = v] on a key
    that is present replaces the value in place, on a new key it
    appends the binding. *)
Module Dict.

Definition t (V : Type) := list (Node * V).

Definition empty {V : Type} : t V := [].

(** [d[k]]; [None] stands for a [KeyError]. *)
Fixpoint get {V : Type} (d : t V) (k : Node) : option V :=
  match d with
  | [] => None
  | (k', v) :: d' => if Nat.eqb k k' then Some v else get d' k
  end.

(** [k in d] *)
Definition contains {V : Type} (d : t V) (k : Node) : bool :=
  match get d k with Some _ => true | None => false end.

(** [d[k] = v] *)
Fixpoint set {V : Type} (d : t V) (k : Node) (v : V) : t V :=
  match d with
  | [] => [(k, v)]
  | (k', v') :: d' =>
      if Nat.eqb k k' then (k', v) :: d' else (k', v') :: set d' k v
  end.

(** iteration order of [for k in d] *)
Definition keys {V : Type} (d : t V) : list Node := map fst d.

End Dict.

(** [x in l] for a Python list of nodes. *)
Definition mem (x : Node) (l : list Node) : bool := existsb (Nat.eqb x) l.

(** ** Exceptions and outcomes *)

Inductive exn : Type :=
| KeyError (key : Node)      (* a failed dictionary lookup *)
| Exception_                 (* the bare [raise Exception] of [DAG.add] *)
| WorkFailure (tag : nat).   (* any other failure raised by a unit of work *)

(** What a call does: it returns, it raises, or the model's bound on
    the iterations of a [while] loop was too small. *)
Inductive outcome (A : Type) : Type :=
| Ok (a : A)
| Raise (e : exn)
| OutOfFuel.

Arguments Ok {A} a.
Arguments Raise {A} e.
Arguments OutOfFuel {A}.

(* ================================================================== *)
(** * class DAG *)

Module DAG.

(** The attributes of a [DAG] object.  [degrees] is created by
    [in_degrees], which every reader of it calls first. *)
Record t : Type := mk {
  graph : Dict.t (list Node);
  degrees : Dict.t Z
}.

(** [__init__] *)
Definition init : t := {| graph := Dict.empty; degrees := Dict.empty |}.

(** Body of [for pointer in self.graph[node]] in [in_degrees]. *)
Definition count_pointer (deg : Dict.t Z) (pointer : Node) : Dict.t Z :=
  match Dict.get deg pointer with
  | None => Dict.set deg pointer 1%Z
  | Some k => Dict.set deg pointer (k + 1)%Z
  end.

(** Body of [for node in self.graph] in [in_degrees]; the binding
    [(node, pointers)] is [node] with [self.graph[node]]. *)
Definition count_node (deg : Dict.t Z) (item : Node * list Node) : Dict.t Z :=
  let '(node, pointers) := item in
  let deg1 := if Dict.contains deg node then deg else Dict.set deg node 0%Z in
  fold_left count_pointer pointers deg1.

Definition in_degrees (self : t) : t :=
  {| graph := graph self;
     degrees := fold_left count_node (graph self) Dict.empty |}.

(** The first loop of [sort]: the queue of the nodes whose degree is
    zero, in the iteration order of [self.degrees]. *)
Definition seeds (deg : Dict.t Z) : list Node :=
  filter (fun node => match Dict.get deg node with
                      | Some k => Z.eqb k 0
                      | None => false
                      end) (Dict.keys deg).

(** [for pointer in self.graph[node_i]] of [sort], on the degrees and
    the queue. *)
Fixpoint relax (pointers : list Node) (deg : Dict.t Z) (d : list Node)
  : outcome (list Node) * Dict.t Z :=
  match pointers with
  | [] => (Ok d, deg)
  | pointer :: rest =>
      match Dict.get deg pointer with
      | None => (Raise (KeyError pointer), deg)
      | Some k =>
          let deg1 := Dict.set deg pointer (k - 1)%Z in
          let d1 := if Z.eqb (k - 1) 0 then d ++ [pointer] else d in
          relax rest deg1 d1
      end
  end.

(** [while d] of [sort]; [fuel] bounds the number of iterations. *)
Fixpoint sort_loop (fuel : nat) (g : Dict.t (list Node)) (deg : Dict.t Z)
         (d searched : list Node) : outcome (list Node) * Dict.t Z :=
  match fuel with
  | O => (OutOfFuel, deg)
  | S fuel' =>
      match d with
      | [] => (Ok searched, deg)
      | node_i :: d' =>
          match Dict.get g node_i with
          | None => (Raise (KeyError node_i), deg)
          | Some pointers =>
              match relax pointers deg d' with
              | (Ok d'', deg') =>
                  sort_loop fuel' g deg' d'' (searched ++ [node_i])
              | other => other
              end
          end
      end
  end.

Definition sort (self : t) : outcome (list Node) * t :=
  let self1 := in_degrees self in
  let d := seeds (degrees self1) in
  let '(r, deg) :=
    sort_loop (S (length (graph self1))) (graph self1) (degrees self1) d [] in
  (r, {| graph := graph self1; degrees := deg |}).

(** [if not node in self.graph: self.graph[node] = []] *)
Definition ensure (g : Dict.t (list Node)) (node : Node) : Dict.t (list Node) :=
  if Dict.contains g node then g else Dict.set g node [].

(** [self.graph[node].append(to)]; [None] stands for the [KeyError]
    of [self.graph[node]]. *)
Definition append_edge (g : Dict.t (list Node)) (node to : Node)
  : option (Dict.t (list Node)) :=
  match Dict.get g node with
  | None => None
  | Some l => Some (Dict.set g node (l ++ [to]))
  end.

(** [if len(self.sort()) > len(self.graph): raise Exception] *)
Definition validate (self : t) : outcome unit * t :=
  let '(r, self') := sort self in
  match r with
  | Ok searched =>
      if Nat.ltb (length (graph self')) (length searched)
      then (Raise Exception_, self')
      else (Ok tt, self')
  | Raise e => (Raise e, self')
  | OutOfFuel => (OutOfFuel, self')
  end.

(** [add(self, node, to=None)]; the body of [if to:] is skipped when
    [to] is [None] and when it is a falsy key. *)
Definition add (self : t) (node : Node) (to : option Node) : outcome unit * t :=
  let g1 := ensure (graph self) node in
  match given to with
  | None => validate {| graph := g1; degrees := degrees self |}
  | Some to' =>
      let g2 := ensure g1 to' in
      match append_edge g2 node to' with
      | Some g3 => validate {| graph := g3; degrees := degrees self |}
      | None => (Raise (KeyError node), {| graph := g2; degrees := degrees self |})
      end
  end.

(** A sequence of [add] calls on one object.  A call that raises
    leaves the object as it is at the raise, and the caller goes on. *)
Definition adds (self : t) (ops : list (Node * option Node)) : t :=
  fold_left (fun s op => snd (add s (fst op) (snd op))) ops self.

End DAG.

(* ================================================================== *)
(** * class Pipeline *)

Module Pipeline.

Record t : Type := mk { tasks : DAG.t }.

(** [__init__] *)
Definition init : t := {| tasks := DAG.init |}.

(** [task(depends_on)(f)]: the decorator applied to the function [f];
    the body of [if depends_on:] is skipped when [depends_on] is
    [None] and when it is a falsy key. *)
Definition task (self : t) (depends_on : option Node) (f : Node)
  : outcome Node * t :=
  match DAG.add (tasks self) f None with
  | (Ok _, dag1) =>
      match given depends_on with
      | None => (Ok f, mk dag1)
      | Some dep =>
          match DAG.add dag1 dep (Some f) with
          | (Ok _, dag2) => (Ok f, mk dag2)
          | (Raise e, dag2) => (Raise e, mk dag2)
          | (OutOfFuel, dag2) => (OutOfFuel, mk dag2)
          end
      end
  | (Raise e, dag1) => (Raise e, mk dag1)
  | (OutOfFuel, dag1) => (OutOfFuel, mk dag1)
  end.

(** A sequence of decorator applications, as a notebook makes them;
    one that raises leaves the pipeline as it is at the raise. *)
Definition register (self : t) (decls : list (Node * option Node)) : t :=
  fold_left (fun p decl => snd (task p (snd decl) (fst decl))) decls self.

Section Run.

(** The values that units of work exchange, and whatever else the
    units of work read and write (files, counters). *)
Variable Val : Type.
Variable World : Type.

(** Calling the function object [f]: [f()] is [work f None], [f(x)]
    is [work f (Some x)]; it returns a value or raises. *)
Variable work : Node -> option Val -> World -> (Val + exn) * World.

(** One invocation of a unit of work: the callee, its argument and
    what came back. *)
Definition call : Type := (Node * option Val * (Val + exn))%type.

(** The local state of [run]: the table [completed], the
    invocations made so far, and the world of the units of work. *)
Record frame : Type := mkframe {
  completed : Dict.t Val;
  calls : list call;
  world : World
}.

(** [completed[task] = task(arg)] *)
Definition invoke (task : Node) (arg : option Val) (fr : frame)
  : outcome unit * frame :=
  let '(r, w') := work task arg (world fr) in
  let log := calls fr ++ [(task, arg, r)] in
  match r with
  | inl v =>
      (Ok tt, {| completed := Dict.set (completed fr) task v;
                 calls := log; world := w' |})
  | inr e =>
      (Raise e, {| completed := completed fr; calls := log; world := w' |})
  end.

(** [for node, values in self.tasks.graph.items()] *)
Fixpoint feed (items : list (Node * list Node)) (task : Node) (fr : frame)
  : outcome unit * frame :=
  match items with
  | [] => (Ok tt, fr)
  | (node, values) :: rest =>
      if mem task values then
        match Dict.get (completed fr) node with
        | None => (Raise (KeyError node), fr)
        | Some x =>
            match invoke task (Some x) fr with
            | (Ok _, fr') => feed rest task fr'
            | other => other
            end
        end
      else feed rest task fr
  end.

(** Body of [for task in scheduled] *)
Definition exec (g : Dict.t (list Node)) (task : Node) (fr : frame)
  : outcome unit * frame :=
  match feed g task fr with
  | (Ok _, fr') =>
      if Dict.contains (completed fr') task then (Ok tt, fr')
      else invoke task None fr'
  | other => other
  end.

(** [for task in scheduled] *)
Fixpoint run_loop (g : Dict.t (list Node)) (scheduled : list Node)
         (fr : frame) : outcome unit * frame :=
  match scheduled with
  | [] => (Ok tt, fr)
  | task :: rest =>
      match exec g task fr with
      | (Ok _, fr') => run_loop g rest fr'
      | other => other
      end
  end.

(** [run(self)]: what the call does, the local state it ends in
    (its table is the returned one when the call returns), and the
    pipeline object afterwards. *)
Definition run (self : t) (w : World)
  : outcome (Dict.t Val) * frame * t :=
  let fr0 := {| completed := Dict.empty; calls := []; world := w |} in
  let '(r, dag') := DAG.sort (tasks self) in
  match r with
  | Ok scheduled =>
      match run_loop (DAG.graph dag') scheduled fr0 with
      | (Ok _, fr) => (Ok (completed fr), fr, mk dag')
      | (Raise e, fr) => (Raise e, fr, mk dag')
      | (OutOfFuel, fr) => (OutOfFuel, fr, mk dag')
      end
  | Raise e => (Raise e, fr0, mk dag')
  | OutOfFuel => (OutOfFuel, fr0, mk dag')
  end.

(** A unit of work that reads and writes nothing but its argument
    and its result. *)
Definition pure_work (f : Node -> option Val -> Val + exn)
  : Node -> option Val -> World -> (Val + exn) * World :=
  fun n x w => (f n x, w).

End Run.

End Pipeline.

(* ================================================================== *)
(** * Vocabulary of the properties *)

(** [u -> v] is an edge: [v] is in the successor list of [u]. *)
Definition edgeb (g : Dict.t (list Node)) (u v : Node) : bool :=
  match Dict.get g u with
  | Some pointers => mem v pointers
  | None => false
  end.

Definition edge (g : Dict.t (list Node)) (u v : Node) : Prop :=
  edgeb g u v = true.

(** A directed path of at least one edge. *)
Inductive path (g : Dict.t (list Node)) : Node -> Node -> Prop :=
| path_edge u v : edge g u v -> path g u v
| path_step u v w : edge g u v -> path g v w -> path g u w.

Definition cyclic (g : Dict.t (list Node)) : Prop := exists v, path g v v.

Definition acyclic (g : Dict.t (list Node)) : Prop := forall v, ~ path g v v.

(** The graphs that [DAG.add] builds: a key occurs once, and every
    node of a successor list is a key. *)
Definition closed (g : Dict.t (list Node)) : Prop :=
  forall u pointers v, In (u, pointers) g -> In v pointers -> In v (Dict.keys g).

Definition wf (g : Dict.t (list Node)) : Prop :=
  NoDup (Dict.keys g) /\ closed g.

(** Number of occurrences of [v] in a list of nodes. *)
Fixpoint occurrences (v : Node) (l : list Node) : Z :=
  match l with
  | [] => 0
  | x :: l' => (if Nat.eqb x v then 1 else 0) + occurrences v l'
  end.

(** The edges in scanning order: the nodes in insertion order, and
    the successor list of each in its order. *)
Definition edges (g : Dict.t (list Node)) : list (Node * Node) :=
  flat_map (fun item => map (pair (fst item)) (snd item)) g.

(** Number of direct predecessors of [v]: the edges whose target is
    [v]. *)
Definition indegree (g : Dict.t (list Node)) (v : Node) : Z :=
  Z.of_nat (length (filter (fun e => Nat.eqb (snd e) v) (edges g))).

(** The incoming edges of [v] that leave a node outside [done]. *)
Fixpoint pending (g : Dict.t (list Node)) (done : list Node) (v : Node) : Z :=
  match g with
  | [] => 0
  | (u, pointers) :: g' =>
      (if mem u done then 0 else occurrences v pointers) + pending g' done v
  end.

(** Position of the first occurrence of [x] in [l]. *)
Fixpoint pos (l : list Node) (x : Node) : option nat :=
  match l with
  | [] => None
  | y :: l' => if Nat.eqb x y then Some 0 else option_map S (pos l' x)
  end.

Definition precedes (l : list Node) (u v : Node) : Prop :=
  exists i j, pos l u = Some i /\ pos l v = Some j /\ i < j.

(** The value of a dictionary of counters at [v], zero when absent. *)
Definition deg_of (deg : Dict.t Z) (v : Node) : Z :=
  match Dict.get deg v with Some k => k | None => 0%Z end.

Unset Implicit Arguments.

(* ================================================================== *)
(** * Vocabulary of the proofs, and the pipelines of the examples *)

(** What holds of the degrees, the queue [d] and the list [searched]
    each time [while d] is tested. *)
Record kahn_inv (g : Dict.t (list Node)) (deg : Dict.t Z)
       (d searched : list Node) : Prop := {
  inv_nodup : NoDup (searched ++ d);
  inv_incl : forall v, In v (searched ++ d) -> In v (Dict.keys g);
  inv_keys : forall v, In v (Dict.keys g) -> In v (Dict.keys deg);
  inv_deg : forall v, In v (Dict.keys g) -> deg_of deg v = pending g searched v;
  inv_ready : forall v, In v (Dict.keys g) ->
                        (In v (searched ++ d) <-> pending g searched v = 0%Z);
  inv_order : forall u v, edge g u v -> In v searched -> precedes searched u v
}.

(** Consecutive nodes of the list are joined by an edge. *)
Fixpoint chain (g : Dict.t (list Node)) (l : list Node) : Prop :=
  match l with
  | u :: l' =>
      match l' with
      | v :: _ => edge g u v /\ chain g l'
      | [] => True
      end
  | [] => True
  end.

(** The graph after [add(node, to)]. *)
Definition inserted (g : Dict.t (list Node)) (node : Node) (to : option Node)
  : Dict.t (list Node) :=
  match to with
  | None => DAG.ensure g node
  | Some to' =>
      let g2 := DAG.ensure (DAG.ensure g node) to' in
      match DAG.append_edge g2 node to' with
      | Some g3 => g3
      | None => g2
      end
  end.

(** The source of the last edge into [t] in the scanning order of the
    edges. *)
Definition last_incoming (g : Dict.t (list Node)) (t : Node) : option Node :=
  match rev (filter (fun e => Nat.eqb (snd e) t) (edges g)) with
  | [] => None
  | e :: _ => Some (fst e)
  end.

(** The last node of the graph, in the order of its keys, whose
    successor list holds [t]: the node whose entry the scan of [run]
    hands to [t] last. *)
Fixpoint last_pred (items : list (Node * list Node)) (t : Node) : option Node :=
  match items with
  | [] => None
  | (node, values) :: rest =>
      match last_pred rest t with
      | Some p => Some p
      | None => if mem t values then Some node else None
      end
  end.

(** The nodes whose successor list holds [t]. *)
Definition holders (items : list (Node * list Node)) (t : Node)
  : list (Node * list Node) :=
  filter (fun item => mem t (snd item)) items.

(** The unit of work that a call invoked. *)
Definition callee {Val : Type} (c : Pipeline.call Val) : Node := fst (fst c).

(** The call returned a value. *)
Definition returned {Val : Type} (c : Pipeline.call Val) : bool :=
  match snd c with inl _ => true | inr _ => false end.

(** The value that the calls of the log wrote for [u]: the result of
    the last call of [u] that returned. *)
Definition written {Val : Type} (log : list (Pipeline.call Val)) (u : Node) : option Val :=
  fold_left (fun acc c =>
               match snd c with
               | inl v => if Nat.eqb (callee c) u then Some v else acc
               | inr _ => acc
               end) log None.

(** Between two invocations: every call so far returned and invoked a
    node of [allowed], every node of [done] has its entry, and the
    table holds what the calls wrote. *)
Record run_inv {Val World : Type} (allowed done : list Node)
       (fr : Pipeline.frame Val World)
  : Prop := {
  ri_clean : Forall (fun c => returned c = true) (Pipeline.calls fr);
  ri_callee : Forall (fun c => In (callee c) allowed) (Pipeline.calls fr);
  ri_done : forall u, In u done -> Dict.get (Pipeline.completed fr) u <> None;
  ri_table : forall u, Dict.get (Pipeline.completed fr) u
                       = written (Pipeline.calls fr) u
}.

(** After the call of [t] on [x] that raised [e]: it is the last call
    of the log. *)
Definition run_failed {Val World : Type} (allowed done : list Node) (t : Node)
           (x : option Val) (e : exn) (fr : Pipeline.frame Val World) : Prop :=
  exists pre,
    Pipeline.calls fr = pre ++ [(t, x, inr e)]
    /\ Forall (fun c => returned c = true) pre
    /\ Forall (fun c => In (callee c) allowed) pre
    /\ (forall u, In u done -> Dict.get (Pipeline.completed fr) u <> None)
    /\ (forall u, Dict.get (Pipeline.completed fr) u
                  = written (Pipeline.calls fr) u).

(** A unit of work that adds its own identity to the trail it
    receives. *)
Definition trail_work (n : Node) (x : option (list Node)) : list Node + exn :=
  match x with
  | None => inl [n]
  | Some l => inl (l ++ [n])
  end.

(** The diamond [1 -> 2], [1 -> 3], [2 -> 4], [3 -> 4], with [2]
    registered before [3]. *)
Definition diamond : Pipeline.t :=
  Pipeline.register Pipeline.init
    [(1, None); (2, Some 1); (3, Some 1); (4, Some 2); (4, Some 3)].

(** The scenario [load -> evens -> total], nodes 1, 2 and 3, in which
    [evens] raises. *)
Definition failing_work (n : Node) (x : option (list nat)) (w : unit)
  : (list nat + exn) * unit :=
  match n, x with
  | 1, None => (inl [1; 2; 3; 4], w)
  | 2, Some _ => (inr (WorkFailure 7), w)
  | _, Some l => (inl [list_sum l], w)
  | _, None => (inr (WorkFailure 0), w)
  end.

Definition load_evens_total : Pipeline.t :=
  Pipeline.register Pipeline.init [(1, None); (2, Some 1); (3, Some 2)].

(** The graph with the two edges [1 -> 2] and [2 -> 1]. *)
Definition two_loop : DAG.t :=
  {| DAG.graph := [(1, [2]); (2, [1])]; DAG.degrees := Dict.empty |}.

(* ================================================================== *)
(** * Vocabulary of the further properties *)

(** The successor list of [u], empty when [u] is no node. *)
Definition successors (g : Dict.t (list Node)) (u : Node) : list Node :=
  match Dict.get g u with Some l => l | None => [] end.

(** [v] is on a directed cycle or can be reached from one. *)
Definition tainted (g : Dict.t (list Node)) (v : Node) : Prop :=
  exists c, path g c c /\ (c = v \/ path g c v).

(** The graph is the linear chain [A -> B -> C]: its nodes are [A],
    [B] and [C], in whatever order they were inserted, and its edges
    are [A -> B] and [B -> C]. *)
Definition linear_chain (g : Dict.t (list Node)) (A B C : Node) : Prop :=
  NoDup [A; B; C]
  /\ Permutation (Dict.keys g) [A; B; C]
  /\ forall u v, edge g u v <-> (u = A /\ v = B) \/ (u = B /\ v = C).

(** The diamond registered from its end: [4] with its predecessors
    [2] and then [3], and afterwards [2] and [3] with their
    predecessor [1].  The keys are in the order 4, 2, 3, 1. *)
Definition diamond_from_end : Pipeline.t :=
  Pipeline.register Pipeline.init
    [(4, Some 2); (4, Some 3); (2, Some 1); (3, Some 1)].

(** The chain [1 -> 2 -> 3] registered from its end: the three
    functions first, the last one first, and their dependencies
    afterwards. *)
Definition chain_from_end : Pipeline.t :=
  Pipeline.register Pipeline.init
    [(3, None); (2, None); (1, None); (2, Some 1); (3, Some 2)].

(** A pipeline with the cycle [1 -> 2 -> 1] and, apart from it, the
    node [7] with its two predecessors [5] and [6]. *)
Definition loop_and_fork : Pipeline.t :=
  Pipeline.register Pipeline.init
    [(2, Some 1); (1, Some 2); (7, Some 5); (7, Some 6)].

(** The entry of the log records an invocation that the unit of work
    can make: in some world, the callee answers its argument so. *)
Definition genuine {Val World : Type}
           (work : Node -> option Val -> World -> (Val + exn) * World)
           (c : Pipeline.call Val) : Prop :=
  exists w w', work (callee c) (snd (fst c)) w = (snd c, w').

(** The calls of the log that invoked [t]. *)
Definition calls_of {Val : Type} (t : Node) (log : list (Pipeline.call Val))
  : list (Pipeline.call Val) :=
  filter (fun c => Nat.eqb (callee c) t) log.

(** The keys of a table after calls of [t]: as before, or with [t]
    appended when it was not a key. *)
Definition grows (t : Node) (k k' : list Node) : Prop :=
  k' = k \/ (~ In t k /\ k' = k ++ [t]).

(** The decorator applications of a notebook that registers the
    functions of [l] one after the other, each with the one before it
    as [depends_on] and the first with none. *)
Fixpoint chain_decls (prev : option Node) (l : list Node)
  : list (Node * option Node) :=
  match l with
  | [] => []
  | n :: tl => (n, prev) :: chain_decls (Some n) tl
  end.

(** The graph in which each node of [l] has the next one as its only
    successor. *)
Fixpoint chain_dag (l : list Node) : Dict.t (list Node) :=
  match l with
  | [] => []
  | n :: tl => (n, match tl with [] => [] | m :: _ => [m] end) :: chain_dag tl
  end.

(** Calling the functions of [l] in turn, the first on [x] and each
    other one on what the one before returned: the table of what they
    returned and the world they leave, when none of them raises. *)
Fixpoint flow {Val World : Type}
         (work : Node -> option Val -> World -> (Val + exn) * World)
         (x : option Val) (w : World) (l : list Node)
  : option (Dict.t Val * World) :=
  match l with
  | [] => Some ([], w)
  | n :: tl =>
      match work n x w with
      | (inl v, w1) =>
          match flow work (Some v) w1 tl with
          | Some (table, w2) => Some ((n, v) :: table, w2)
          | None => None
          end
      | (inr _, _) => None
      end
  end.

(* ================================================================== *)
(** * The keyword tasks of the notebook *)

(** A Python [str], as the bytes of its UTF-8 encoding: equality of
    strings and splitting on the space character are the same on the
    code points and on these bytes. *)
Definition str : Type := String.string.

(** A dictionary whose keys are strings, in insertion order. *)
Module WordDict.

Definition t (V : Type) := list (str * V).

(** [d[k]]; [None] stands for a [KeyError]. *)
Fixpoint get {V : Type} (d : t V) (k : str) : option V :=
  match d with
  | [] => None
  | (k', v) :: d' => if String.eqb k k' then Some v else get d' k
  end.

(** [k in d] *)
Definition contains {V : Type} (d : t V) (k : str) : bool :=
  match get d k with Some _ => true | None => false end.

(** [d[k] = v] *)
Fixpoint set {V : Type} (d : t V) (k : str) (v : V) : t V :=
  match d with
  | [] => [(k, v)]
  | (k', v') :: d' =>
      if String.eqb k k' then (k', v) :: d' else (k', v') :: set d' k v
  end.

Definition keys {V : Type} (d : t V) : list str := map fst d.

End WordDict.

(** [s.split(' ')]: the pieces of [s] between single spaces; two
    spaces in a row, or a space at either end, give an empty piece. *)
Fixpoint split_space (s : str) : list str :=
  match s with
  | String.EmptyString => [String.EmptyString]
  | String.String c rest =>
      if Ascii.eqb c " "%char then String.EmptyString :: split_space rest
      else match split_space rest with
           | word :: words => String.String c word :: words
           | [] => [String.String c String.EmptyString]
           end
  end.

(** [if word] *)
Definition truthy (word : str) : bool :=
  match word with String.EmptyString => false | _ => true end.

Section Keywords.

(** [word in stop_words]; the module [stop_words] that the notebook
    imports is not in the repository. *)
Variable in_stop_words : str -> bool.

(** The two statements under [if word and word not in stop_words];
    [None] stands for the [KeyError] of [word_freq[word] += 1]. *)
Definition bump (word_freq : WordDict.t Z) (word : str)
  : option (WordDict.t Z) :=
  let word_freq1 :=
    if WordDict.contains word_freq word then word_freq
    else WordDict.set word_freq word 1%Z in
  match WordDict.get word_freq1 word with
  | Some k => Some (WordDict.set word_freq1 word (k + 1)%Z)
  | None => None
  end.

(** Body of [for word in title.split(' ')] *)
Definition count_word (word_freq : WordDict.t Z) (word : str)
  : option (WordDict.t Z) :=
  if truthy word && negb (in_stop_words word) then bump word_freq word
  else Some word_freq.

Fixpoint count_words (words : list str) (word_freq : WordDict.t Z)
  : option (WordDict.t Z) :=
  match words with
  | [] => Some word_freq
  | word :: rest =>
      match count_word word_freq word with
      | Some word_freq' => count_words rest word_freq'
      | None => None
      end
  end.

(** [for title in titles] *)
Fixpoint count_titles (titles : list str) (word_freq : WordDict.t Z)
  : option (WordDict.t Z) :=
  match titles with
  | [] => Some word_freq
  | title :: rest =>
      match count_words (split_space title) word_freq with
      | Some word_freq' => count_titles rest word_freq'
      | None => None
      end
  end.

(** [build_keyword_dictionary(titles)], on the titles that the
    generator it receives yields. *)
Definition build_keyword_dictionary (titles : list str)
  : option (WordDict.t Z) :=
  count_titles titles [].

(** The word is counted: it is not empty and no stop word. *)
Definition counted (word : str) : bool :=
  truthy word && negb (in_stop_words word).

End Keywords.

(** All the pieces of all the titles, in order. *)
Definition tokens (titles : list str) : list str :=
  flat_map split_space titles.

(** Number of occurrences of a word in a list of words. *)
Definition occ (word : str) (words : list str) : Z :=
  Z.of_nat (count_occ String.string_dec words word).

(** Adding a word to the words seen so far, when it is new. *)
Definition see (seen : list str) (word : str) : list str :=
  if existsb (String.eqb word) seen then seen else seen ++ [word].

(** The words of a list, each once, in the order of their first
    occurrence. *)
Definition first_seen (words : list str) : list str :=
  fold_left see words [].

(** [word_freq.get(word)] for a key of [word_freq]. *)
Definition freq (word_freq : WordDict.t Z) (word : str) : Z :=
  match WordDict.get word_freq word with Some k => k | None => 0%Z end.

(** [sorted(..., key=key, reverse=True)]: Python's sort is stable and
    stays so with [reverse]; the list it returns is the one that any
    stable sort by decreasing key returns.  Here insertion from the
    right, each element before the first one whose key is not
    greater. *)
Fixpoint insert_desc (key : str -> Z) (x : str) (l : list str) : list str :=
  match l with
  | [] => [x]
  | y :: l' => if Z.ltb (key x) (key y) then y :: insert_desc key x l'
               else x :: y :: l'
  end.

Definition sorted_desc (key : str -> Z) (l : list str) : list str :=
  fold_right (insert_desc key) [] l.

(** [top_keywords(word_freq)] *)
Definition top_keywords (word_freq : WordDict.t Z) : list (str * Z) :=
  let freq_tuple :=
    map (fun word => (word, freq word_freq word))
        (sorted_desc (freq word_freq) (WordDict.keys word_freq)) in
  firstn 100 freq_tuple.

(* ================================================================== *)
(** * Dictionaries *)

Lemma get_set_same (V : Type) (d : Dict.t V) k v :
  Dict.get (Dict.set d k v) k = Some v.
Proof.
  induction d as [|[k' v'] d IH]; simpl.
  - now rewrite Nat.eqb_refl.
  - destruct (Nat.eqb k k') eqn:E; simpl; rewrite E; auto.
Qed.

Lemma get_set_other (V : Type) (d : Dict.t V) k k' v :
  k <> k' -> Dict.get (Dict.set d k v) k' = Dict.get d k'.
Proof.
  intros Hne. induction d as [|[k0 v0] d IH]; simpl.
  - destruct (Nat.eqb k' k) eqn:E; auto.
    apply Nat.eqb_eq in E. congruence.
  - destruct (Nat.eqb k k0) eqn:E; simpl.
    + apply Nat.eqb_eq in E. subst k0.
      destruct (Nat.eqb k' k) eqn:E'; auto.
      apply Nat.eqb_eq in E'. congruence.
    + now rewrite IH.
Qed.

Lemma get_none_iff (V : Type) (d : Dict.t V) k :
  Dict.get d k = None <-> ~ In k (Dict.keys d).
Proof.
  induction d as [|[k' v'] d IH]; simpl.
  - tauto.
  - destruct (Nat.eqb k k') eqn:E.
    + apply Nat.eqb_eq in E. subst. split; [discriminate | tauto].
    + apply Nat.eqb_neq in E. rewrite IH. intuition congruence.
Qed.

Lemma get_some_iff (V : Type) (d : Dict.t V) k :
  (exists v, Dict.get d k = Some v) <-> In k (Dict.keys d).
Proof.
  destruct (Dict.get d k) eqn:E.
  - split; [intros _ | eauto].
    destruct (in_dec Nat.eq_dec k (Dict.keys d)) as [H|H]; auto.
    apply get_none_iff in H. congruence.
  - apply get_none_iff in E. split; [intros [v H]; discriminate | tauto].
Qed.

Lemma contains_iff (V : Type) (d : Dict.t V) k :
  Dict.contains d k = true <-> In k (Dict.keys d).
Proof.
  unfold Dict.contains. rewrite <- get_some_iff.
  destruct (Dict.get d k); split; eauto; try discriminate.
  intros [v H]; discriminate.
Qed.

Lemma keys_set_present (V : Type) (d : Dict.t V) k v :
  In k (Dict.keys d) -> Dict.keys (Dict.set d k v) = Dict.keys d.
Proof.
  induction d as [|[k' v'] d IH]; simpl; [tauto|].
  intros H. destruct (Nat.eqb k k') eqn:E; simpl; auto.
  apply Nat.eqb_neq in E. f_equal. apply IH. intuition congruence.
Qed.

Lemma keys_set_absent (V : Type) (d : Dict.t V) k v :
  ~ In k (Dict.keys d) -> Dict.keys (Dict.set d k v) = Dict.keys d ++ [k].
Proof.
  induction d as [|[k' v'] d IH]; simpl; auto.
  intros H. destruct (Nat.eqb k k') eqn:E; simpl.
  - apply Nat.eqb_eq in E. subst. tauto.
  - f_equal. apply IH. tauto.
Qed.

Lemma in_keys_set (V : Type) (d : Dict.t V) k v x :
  In x (Dict.keys (Dict.set d k v)) <-> In x (Dict.keys d) \/ x = k.
Proof.
  destruct (in_dec Nat.eq_dec k (Dict.keys d)) as [H|H].
  - rewrite keys_set_present by auto. intuition (subst; auto).
  - rewrite keys_set_absent by auto. rewrite in_app_iff. simpl. intuition.
Qed.

Lemma nodup_keys_set (V : Type) (d : Dict.t V) k v :
  NoDup (Dict.keys d) -> NoDup (Dict.keys (Dict.set d k v)).
Proof.
  intros Hnd. destruct (in_dec Nat.eq_dec k (Dict.keys d)) as [H|H].
  - now rewrite keys_set_present.
  - rewrite keys_set_absent by auto.
    apply NoDup_app; auto.
    + constructor; [simpl; tauto | constructor].
    + intros x Hx [Hk|[]]. subst. contradiction.
Qed.

Lemma get_in (V : Type) (d : Dict.t V) k v :
  Dict.get d k = Some v -> In (k, v) d.
Proof.
  induction d as [|[k' v'] d IH]; simpl; [discriminate|].
  destruct (Nat.eqb k k') eqn:E.
  - apply Nat.eqb_eq in E. intros [= ->]. subst. now left.
  - auto.
Qed.

Lemma in_get (V : Type) (d : Dict.t V) k v :
  NoDup (Dict.keys d) -> In (k, v) d -> Dict.get d k = Some v.
Proof.
  induction d as [|[k' v'] d IH]; simpl; [tauto|].
  intros Hnd [H|H].
  - inversion H; subst. now rewrite Nat.eqb_refl.
  - inversion Hnd as [|? ? Hnotin Hnd']; subst.
    destruct (Nat.eqb k k') eqn:E.
    + apply Nat.eqb_eq in E. subst. exfalso. apply Hnotin.
      apply (in_map fst) in H. exact H.
    + auto.
Qed.

(* ================================================================== *)
(** * Counting *)

Lemma occurrences_nonneg v l : (0 <= occurrences v l)%Z.
Proof.
  induction l as [|x l IH]; simpl; [lia|].
  destruct (Nat.eqb x v); lia.
Qed.

Lemma occurrences_pos_iff v l : (0 < occurrences v l)%Z <-> In v l.
Proof.
  induction l as [|x l IH]; simpl; [split; [lia | tauto]|].
  pose proof (occurrences_nonneg v l).
  destruct (Nat.eqb x v) eqn:E.
  - apply Nat.eqb_eq in E. split; [auto | lia].
  - apply Nat.eqb_neq in E. rewrite <- IH. split; [intros; right; lia|].
    intros [?|?]; [congruence | lia].
Qed.

Lemma occurrences_app v l1 l2 :
  occurrences v (l1 ++ l2) = (occurrences v l1 + occurrences v l2)%Z.
Proof.
  induction l1 as [|x l1 IH]; simpl; [reflexivity|]. rewrite IH. lia.
Qed.

Lemma occurrences_le1_nodup l :
  (forall v, occurrences v l <= 1)%Z -> NoDup l.
Proof.
  induction l as [|x l IH]; intros H; constructor.
  - intros Hin. apply occurrences_pos_iff in Hin.
    specialize (H x). simpl in H. rewrite Nat.eqb_refl in H. lia.
  - apply IH. intros v. specialize (H v). simpl in H.
    destruct (Nat.eqb x v); lia.
Qed.

Lemma mem_iff x l : mem x l = true <-> In x l.
Proof.
  unfold mem. rewrite existsb_exists. split.
  - intros [y [Hy E]]. apply Nat.eqb_eq in E. now subst.
  - intros H. exists x. split; auto. apply Nat.eqb_refl.
Qed.

Lemma mem_false_iff x l : mem x l = false <-> ~ In x l.
Proof.
  rewrite <- mem_iff. destruct (mem x l); split; congruence.
Qed.

Lemma indegree_cons u pointers g v :
  indegree ((u, pointers) :: g) v = (occurrences v pointers + indegree g v)%Z.
Proof.
  unfold indegree, edges. simpl.
  rewrite filter_app, length_app, Nat2Z.inj_add. f_equal.
  induction pointers as [|x l IH]; simpl; [reflexivity|].
  destruct (Nat.eqb x v); cbn [length]; lia.
Qed.

Lemma pending_nil g v : pending g [] v = indegree g v.
Proof.
  induction g as [|[u pointers] g IH]; [reflexivity|].
  rewrite indegree_cons. simpl. now rewrite IH.
Qed.

Lemma pending_nonneg g done v : (0 <= pending g done v)%Z.
Proof.
  induction g as [|[u pointers] g IH]; simpl; [lia|].
  pose proof (occurrences_nonneg v pointers).
  destruct (mem u done); lia.
Qed.

(* ================================================================== *)
(** * in_degrees *)

Lemma deg_of_set_same deg k z : deg_of (Dict.set deg k z) k = z.
Proof. unfold deg_of. now rewrite get_set_same. Qed.

Lemma deg_of_set_other deg k k' z :
  k <> k' -> deg_of (Dict.set deg k z) k' = deg_of deg k'.
Proof. intros. unfold deg_of. now rewrite get_set_other. Qed.

Lemma get_deg_of deg v :
  In v (Dict.keys deg) -> Dict.get deg v = Some (deg_of deg v).
Proof.
  intros H. apply get_some_iff in H. destruct H as [k H].
  unfold deg_of. now rewrite H.
Qed.

Lemma count_pointer_deg deg p v :
  deg_of (DAG.count_pointer deg p) v
  = (deg_of deg v + (if Nat.eqb p v then 1 else 0))%Z.
Proof.
  unfold DAG.count_pointer.
  destruct (Nat.eqb p v) eqn:E.
  - apply Nat.eqb_eq in E. subst v.
    unfold deg_of at 2.
    destruct (Dict.get deg p); rewrite deg_of_set_same; lia.
  - apply Nat.eqb_neq in E.
    destruct (Dict.get deg p); rewrite deg_of_set_other by auto; lia.
Qed.

Lemma count_pointer_keys deg p v :
  In v (Dict.keys (DAG.count_pointer deg p)) <-> In v (Dict.keys deg) \/ v = p.
Proof.
  unfold DAG.count_pointer. destruct (Dict.get deg p); apply in_keys_set.
Qed.

Lemma count_pointer_nodup deg p :
  NoDup (Dict.keys deg) -> NoDup (Dict.keys (DAG.count_pointer deg p)).
Proof.
  unfold DAG.count_pointer. destruct (Dict.get deg p); apply nodup_keys_set.
Qed.

Lemma count_pointers_spec pointers : forall deg,
  (forall v, deg_of (fold_left DAG.count_pointer pointers deg) v
             = (deg_of deg v + occurrences v pointers)%Z)
  /\ (forall v, In v (Dict.keys (fold_left DAG.count_pointer pointers deg))
                <-> In v (Dict.keys deg) \/ In v pointers)
  /\ (NoDup (Dict.keys deg)
      -> NoDup (Dict.keys (fold_left DAG.count_pointer pointers deg))).
Proof.
  induction pointers as [|p l IH]; intros deg; simpl.
  - repeat split; intros; try lia; tauto.
  - destruct (IH (DAG.count_pointer deg p)) as (Hd & Hk & Hn).
    split; [|split].
    + intros v. rewrite Hd, count_pointer_deg. lia.
    + intros v. rewrite Hk, count_pointer_keys. intuition.
    + intros H. apply Hn. now apply count_pointer_nodup.
Qed.

Lemma count_node_spec deg node pointers :
  (forall v, deg_of (DAG.count_node deg (node, pointers)) v
             = (deg_of deg v + occurrences v pointers)%Z)
  /\ (forall v, In v (Dict.keys (DAG.count_node deg (node, pointers)))
                <-> In v (Dict.keys deg) \/ v = node \/ In v pointers)
  /\ (NoDup (Dict.keys deg)
      -> NoDup (Dict.keys (DAG.count_node deg (node, pointers)))).
Proof.
  unfold DAG.count_node.
  set (deg1 := if Dict.contains deg node then deg else Dict.set deg node 0%Z).
  assert (H1 : forall v, deg_of deg1 v = deg_of deg v).
  { intros v. unfold deg1. destruct (Dict.contains deg node) eqn:E; auto.
    destruct (Nat.eq_dec node v) as [->|Hne].
    - rewrite deg_of_set_same. unfold deg_of.
      unfold Dict.contains in E. destruct (Dict.get deg v); congruence.
    - now apply deg_of_set_other. }
  assert (H2 : forall v, In v (Dict.keys deg1) <-> In v (Dict.keys deg) \/ v = node).
  { intros v. unfold deg1. destruct (Dict.contains deg node) eqn:E.
    - apply contains_iff in E. intuition (subst; auto).
    - apply in_keys_set. }
  assert (H3 : NoDup (Dict.keys deg) -> NoDup (Dict.keys deg1)).
  { unfold deg1. destruct (Dict.contains deg node); auto. apply nodup_keys_set. }
  destruct (count_pointers_spec pointers deg1) as (Hd & Hk & Hn).
  split; [|split].
  - intros v. now rewrite Hd, H1.
  - intros v. rewrite Hk, H2. tauto.
  - auto.
Qed.

Lemma count_nodes_spec g : forall deg,
  (forall v, deg_of (fold_left DAG.count_node g deg) v
             = (deg_of deg v + indegree g v)%Z)
  /\ (forall v, In v (Dict.keys (fold_left DAG.count_node g deg))
                <-> In v (Dict.keys deg) \/ In v (Dict.keys g)
                    \/ exists u pointers, In (u, pointers) g /\ In v pointers)
  /\ (NoDup (Dict.keys deg)
      -> NoDup (Dict.keys (fold_left DAG.count_node g deg))).
Proof.
  induction g as [|[node pointers] g IH]; intros deg.
  - simpl. repeat split; intros; try (unfold indegree; simpl; lia); auto.
    destruct H as [?|[[]|(u & ps & [] & _)]]. auto.
  - cbn [fold_left].
    destruct (IH (DAG.count_node deg (node, pointers))) as (Hd & Hk & Hn).
    destruct (count_node_spec deg node pointers) as (Hd1 & Hk1 & Hn1).
    split; [|split].
    + intros v. rewrite Hd, Hd1, indegree_cons. lia.
    + intros v. rewrite Hk, Hk1. simpl. split.
      * intros [[H|[H|H]]|[H|(u & ps & H & H')]]; eauto 8.
      * intros [H|[[H|H]|(u & ps & [H|H] & H')]]; eauto 8.
        inversion H; subst. auto.
    + auto.
Qed.

Lemma in_degrees_graph self : DAG.graph (DAG.in_degrees self) = DAG.graph self.
Proof. reflexivity. Qed.

Lemma in_degrees_get self v :
  In v (Dict.keys (DAG.graph self)) ->
  Dict.get (DAG.degrees (DAG.in_degrees self)) v
  = Some (indegree (DAG.graph self) v).
Proof.
  intros H. simpl.
  destruct (count_nodes_spec (DAG.graph self) Dict.empty) as (Hd & Hk & _).
  rewrite get_deg_of by (apply Hk; auto).
  rewrite Hd. unfold deg_of. simpl. reflexivity.
Qed.

Lemma in_degrees_keys self v :
  closed (DAG.graph self) ->
  In v (Dict.keys (DAG.degrees (DAG.in_degrees self)))
  <-> In v (Dict.keys (DAG.graph self)).
Proof.
  intros Hc. simpl.
  destruct (count_nodes_spec (DAG.graph self) Dict.empty) as (_ & Hk & _).
  rewrite Hk. simpl. split; [|auto].
  intros [[]|[H|(u & ps & H & H')]]; eauto.
Qed.

Lemma in_degrees_nodup self :
  NoDup (Dict.keys (DAG.degrees (DAG.in_degrees self))).
Proof.
  simpl. apply count_nodes_spec. constructor.
Qed.

(* ================================================================== *)
(** * The inner loop of sort *)

Lemma ready_count (k c : Z) :
  (0 <= c)%Z ->
  ((if Z.eqb (k - 1) 0 then 1 else 0)
   + (if Z.leb 1 (k - 1) && Z.leb (k - 1) c then 1 else 0))%Z
  = (if Z.leb 1 k && Z.leb k (1 + c) then 1 else 0)%Z.
Proof.
  intros Hc.
  destruct (Z.eqb_spec (k - 1) 0), (Z.leb_spec 1 (k - 1)), (Z.leb_spec (k - 1) c),
    (Z.leb_spec 1 k), (Z.leb_spec k (1 + c)); simpl; lia.
Qed.

(** On degrees that know every pointer, the inner loop returns: it
    lowers each degree by the occurrences of its node, and appends to
    the queue, once, each node whose degree it brings to zero. *)
Lemma relax_spec pointers : forall deg d,
  (forall p, In p pointers -> In p (Dict.keys deg)) ->
  exists fresh deg',
    DAG.relax pointers deg d = (Ok (d ++ fresh), deg')
    /\ Dict.keys deg' = Dict.keys deg
    /\ (forall v, deg_of deg' v = (deg_of deg v - occurrences v pointers)%Z)
    /\ (forall v, occurrences v fresh
                  = if Z.leb 1 (deg_of deg v)
                       && Z.leb (deg_of deg v) (occurrences v pointers)
                    then 1%Z else 0%Z).
Proof.
  induction pointers as [|p l IH]; intros deg d Hin.
  - exists [], deg. simpl. rewrite app_nil_r. repeat split; auto.
    + intros v. lia.
    + intros v. destruct (Z.leb_spec 1 (deg_of deg v)),
        (Z.leb_spec (deg_of deg v) 0); simpl; auto; lia.
  - assert (Hp : In p (Dict.keys deg)) by (apply Hin; now left).
    pose proof (get_deg_of deg p Hp) as Hget.
    simpl. rewrite Hget.
    set (k := deg_of deg p) in *.
    set (deg1 := Dict.set deg p (k - 1)%Z).
    set (d1 := if Z.eqb (k - 1) 0 then d ++ [p] else d).
    assert (Hk1 : Dict.keys deg1 = Dict.keys deg)
      by (apply keys_set_present; auto).
    destruct (IH deg1 d1) as (fresh & deg' & Hr & Hk & Hd & Hf).
    { intros q Hq. rewrite Hk1. apply Hin. now right. }
    exists ((if Z.eqb (k - 1) 0 then [p] else []) ++ fresh), deg'.
    split; [|split; [|split]].
    + rewrite Hr. f_equal. f_equal. unfold d1.
      destruct (Z.eqb (k - 1) 0); simpl; [now rewrite <- app_assoc | reflexivity].
    + congruence.
    + intros v. rewrite Hd. unfold deg1.
      destruct (Nat.eqb p v) eqn:E.
      * apply Nat.eqb_eq in E. subst v. rewrite deg_of_set_same. fold k. lia.
      * apply Nat.eqb_neq in E. rewrite deg_of_set_other by auto. lia.
    + intros v. rewrite occurrences_app, Hf. unfold deg1.
      pose proof (occurrences_nonneg v l) as Hnn.
      destruct (Nat.eqb p v) eqn:E.
      * apply Nat.eqb_eq in E. subst v. rewrite deg_of_set_same. fold k.
        rewrite <- (ready_count k _ Hnn). f_equal.
        destruct (Z.eqb (k - 1) 0); simpl; [rewrite Nat.eqb_refl|]; reflexivity.
      * rewrite deg_of_set_other by (now apply Nat.eqb_neq).
        replace (occurrences v (if Z.eqb (k - 1) 0 then [p] else [])) with 0%Z.
        -- reflexivity.
        -- destruct (Z.eqb (k - 1) 0); simpl; [rewrite E|]; reflexivity.
Qed.

(* ================================================================== *)
(** * Pending edges and positions *)

Lemma mem_app_last u done x :
  mem u (done ++ [x]) = mem u done || Nat.eqb u x.
Proof.
  unfold mem. rewrite existsb_app. simpl. now rewrite orb_false_r.
Qed.

Lemma pending_skip g done x v :
  ~ In x (Dict.keys g) -> pending g (done ++ [x]) v = pending g done v.
Proof.
  induction g as [|[u pointers] g IH]; simpl; [reflexivity|].
  intros H. rewrite IH by tauto. rewrite mem_app_last.
  destruct (Nat.eqb u x) eqn:E.
  - apply Nat.eqb_eq in E. tauto.
  - now rewrite orb_false_r.
Qed.

Lemma pending_step g done x pointers v :
  NoDup (Dict.keys g) -> Dict.get g x = Some pointers -> ~ In x done ->
  pending g (done ++ [x]) v = (pending g done v - occurrences v pointers)%Z.
Proof.
  intros Hnd Hget Hx.
  induction g as [|[u qs] g IH]; simpl in *; [discriminate|].
  inversion Hnd as [|? ? Hnotin Hnd']; subst.
  rewrite mem_app_last.
  destruct (Nat.eqb x u) eqn:E.
  - apply Nat.eqb_eq in E. subst u. inversion Hget; subst qs.
    rewrite Nat.eqb_refl, orb_true_r, pending_skip by auto.
    apply mem_false_iff in Hx. rewrite Hx. lia.
  - rewrite Nat.eqb_sym, E, orb_false_r, IH by auto. lia.
Qed.

Lemma pending_ge g done u pointers v :
  In (u, pointers) g -> ~ In u done ->
  (occurrences v pointers <= pending g done v)%Z.
Proof.
  intros Hin Hu.
  induction g as [|[u' qs] g IH]; simpl in *; [tauto|].
  pose proof (pending_nonneg g done v) as Hnn.
  destruct Hin as [H|H].
  - inversion H; subst. apply mem_false_iff in Hu. rewrite Hu. lia.
  - specialize (IH H). pose proof (occurrences_nonneg v qs).
    destruct (mem u' done); lia.
Qed.

Lemma edge_inv g u v :
  edge g u v -> exists pointers, Dict.get g u = Some pointers /\ In v pointers.
Proof.
  unfold edge, edgeb. destruct (Dict.get g u) as [ps|]; [|discriminate].
  intros H. apply mem_iff in H. eauto.
Qed.

Lemma edge_intro g u pointers v :
  Dict.get g u = Some pointers -> In v pointers -> edge g u v.
Proof.
  unfold edge, edgeb. intros -> H. now apply mem_iff.
Qed.

Lemma edge_source g u v : edge g u v -> In u (Dict.keys g).
Proof.
  intros H. apply edge_inv in H. destruct H as (ps & Hg & _).
  apply get_some_iff. eauto.
Qed.

Lemma edge_target g u v : closed g -> edge g u v -> In v (Dict.keys g).
Proof.
  intros Hc H. apply edge_inv in H. destruct H as (ps & Hg & Hv).
  apply get_in in Hg. eauto.
Qed.

Lemma pending_zero_pred g done u v :
  pending g done v = 0%Z -> edge g u v -> In u done.
Proof.
  intros Hz He. apply edge_inv in He. destruct He as (ps & Hget & Hv).
  destruct (in_dec Nat.eq_dec u done) as [H|H]; auto.
  apply get_in in Hget.
  pose proof (pending_ge g done u ps v Hget H).
  apply occurrences_pos_iff in Hv. lia.
Qed.

Lemma pending_pos_pred g done v :
  NoDup (Dict.keys g) -> (0 < pending g done v)%Z ->
  exists u, edge g u v /\ ~ In u done.
Proof.
  intros Hnd Hpos.
  assert (H : exists u ps, In (u, ps) g /\ ~ In u done /\ In v ps).
  { clear Hnd. induction g as [|[u ps] g IH]; simpl in *; [lia|].
    destruct (mem u done) eqn:E.
    - destruct IH as (u' & ps' & H1 & H2 & H3); [lia|]. eauto 6.
    - destruct (Z.ltb_spec 0 (occurrences v ps)) as [Hlt|Hle].
      + exists u, ps. apply mem_false_iff in E.
        apply occurrences_pos_iff in Hlt. auto.
      + destruct IH as (u' & ps' & H1 & H2 & H3); [lia|]. eauto 6. }
  destruct H as (u & ps & H1 & H2 & H3).
  exists u. split; auto. apply (edge_intro g u ps); auto.
  now apply in_get.
Qed.

Lemma pos_some_iff l x : In x l <-> exists i, pos l x = Some i.
Proof.
  induction l as [|y l IH]; simpl.
  - split; [tauto | intros [i H]; discriminate].
  - destruct (Nat.eqb x y) eqn:E.
    + apply Nat.eqb_eq in E. split; eauto.
    + apply Nat.eqb_neq in E. rewrite IH. split.
      * intros [H|[i H]]; [congruence|]. rewrite H. simpl. eauto.
      * intros [i H]. right. destruct (pos l x); [eauto | discriminate].
Qed.

Lemma pos_lt l x i : pos l x = Some i -> i < length l.
Proof.
  revert i. induction l as [|y l IH]; simpl; intros i; [discriminate|].
  destruct (Nat.eqb x y).
  - intros [= <-]. lia.
  - destruct (pos l x) as [j|]; simpl; [|discriminate].
    intros [= <-]. specialize (IH j eq_refl). lia.
Qed.

Lemma pos_app_in l l' x : In x l -> pos (l ++ l') x = pos l x.
Proof.
  induction l as [|y l IH]; simpl; [tauto|].
  intros H. destruct (Nat.eqb x y) eqn:E; auto.
  apply Nat.eqb_neq in E. rewrite IH; auto. intuition congruence.
Qed.

Lemma pos_app_last l x : ~ In x l -> pos (l ++ [x]) x = Some (length l).
Proof.
  induction l as [|y l IH]; simpl; intros H.
  - now rewrite Nat.eqb_refl.
  - destruct (Nat.eqb x y) eqn:E.
    + apply Nat.eqb_eq in E. subst. tauto.
    + rewrite IH by tauto. reflexivity.
Qed.

Lemma precedes_trans l u v w : precedes l u v -> precedes l v w -> precedes l u w.
Proof.
  intros (i & j & Hi & Hj & Hij) (j' & k & Hj' & Hk & Hjk).
  exists i, k. repeat split; auto. rewrite Hj in Hj'. inversion Hj'. lia.
Qed.

Lemma precedes_irrefl l u : ~ precedes l u u.
Proof.
  intros (i & j & Hi & Hj & Hij). rewrite Hi in Hj. inversion Hj. lia.
Qed.

Lemma precedes_in_l l u v : precedes l u v -> In u l.
Proof. intros (i & j & Hi & _). apply pos_some_iff. eauto. Qed.

(* ================================================================== *)
(** * The invariant of Kahn's loop *)

Lemma occurrences_in_bool v l (b : bool) :
  occurrences v l = (if b then 1 else 0)%Z -> (In v l <-> b = true).
Proof.
  intros H. rewrite <- occurrences_pos_iff. rewrite H.
  destruct b; split; intros; try lia; try discriminate; auto.
Qed.

Lemma precedes_app_last l x u v :
  precedes l u v -> precedes (l ++ [x]) u v.
Proof.
  intros (i & j & Hi & Hj & Hij). exists i, j.
  rewrite !pos_app_in; auto; apply pos_some_iff; eauto.
Qed.

Lemma precedes_new l x u :
  In u l -> ~ In x l -> precedes (l ++ [x]) u x.
Proof.
  intros Hu Hx. apply pos_some_iff in Hu as Hu'. destruct Hu' as [i Hi].
  exists i, (length l). rewrite pos_app_in, pos_app_last by auto.
  repeat split; auto. eapply pos_lt; eauto.
Qed.

Lemma kahn_step g deg x d searched :
  wf g -> kahn_inv g deg (x :: d) searched ->
  exists pointers fresh deg',
    Dict.get g x = Some pointers
    /\ DAG.relax pointers deg d = (Ok (d ++ fresh), deg')
    /\ kahn_inv g deg' (d ++ fresh) (searched ++ [x]).
Proof.
  intros [Hnd Hcl] [Inod Iincl Ikeys Ideg Iready Iorder].
  assert (Hxk : In x (Dict.keys g)).
  { apply Iincl. apply in_or_app. right. now left. }
  destruct (proj2 (get_some_iff _ g x) Hxk) as [ps Hget].
  pose proof (get_in _ g x ps Hget) as Hitem.
  assert (Hxs : ~ In x searched).
  { apply NoDup_remove_2 in Inod. intros H. apply Inod.
    apply in_or_app. now left. }
  destruct (relax_spec ps deg d) as (fresh & deg' & Hr & Hk & Hd & Hf).
  { intros p Hp. apply Ikeys. eapply Hcl; eauto. }
  exists ps, fresh, deg'. split; [exact Hget|]. split; [exact Hr|].
  assert (Hpend : forall v, pending g (searched ++ [x]) v
                            = (pending g searched v - occurrences v ps)%Z).
  { intros v. now apply pending_step. }
  assert (Hle : forall v, (occurrences v ps <= pending g searched v)%Z).
  { intros v. now apply (pending_ge g searched x ps v). }
  assert (Hfresh : forall v, In v fresh ->
            In v ps /\ (1 <= deg_of deg v <= occurrences v ps)%Z).
  { intros v Hv. apply (occurrences_in_bool _ _ _ (Hf v)) in Hv.
    apply andb_true_iff in Hv. destruct Hv as [H1 H2].
    apply Z.leb_le in H1, H2. split; [|lia].
    apply occurrences_pos_iff. lia. }
  assert (Hold : forall v, In v (searched ++ x :: d) ->
            In v (Dict.keys g) /\ deg_of deg v = 0%Z).
  { intros v Hv. pose proof (Iincl v Hv) as Hvk. split; auto.
    rewrite Ideg by auto. now apply Iready. }
  assert (Hshape : (searched ++ [x]) ++ d ++ fresh = (searched ++ x :: d) ++ fresh).
  { rewrite <- !app_assoc. reflexivity. }
  constructor.
  - rewrite Hshape. apply NoDup_app; auto.
    + apply occurrences_le1_nodup. intros v. rewrite Hf.
      destruct (_ && _); lia.
    + intros v Hv Hv'. apply Hold in Hv. apply Hfresh in Hv'. lia.
  - intros v. rewrite Hshape. intros Hv. apply in_app_or in Hv.
    destruct Hv as [Hv|Hv]; [now apply Iincl|].
    apply Hfresh in Hv. eapply Hcl; [exact Hitem | tauto].
  - intros v Hv. rewrite Hk. auto.
  - intros v Hv. rewrite Hd, Hpend, Ideg by auto. reflexivity.
  - intros v Hv. rewrite Hshape, Hpend, in_app_iff.
    pose proof (occurrences_nonneg v ps) as Hnn.
    specialize (Hle v). split.
    + intros [H|H].
      * apply Hold in H. destruct H as [_ H]. rewrite Ideg in H by auto. lia.
      * apply Hfresh in H. destruct H as [_ H]. rewrite Ideg in H by auto. lia.
    + intros Hz.
      destruct (Z.eq_dec (pending g searched v) 0) as [H0|H0].
      * left. now apply Iready.
      * right. apply (occurrences_in_bool _ _ _ (Hf v)).
        rewrite Ideg by auto. apply andb_true_iff.
        split; apply Z.leb_le; lia.
  - intros u v He Hv. apply in_app_or in Hv. destruct Hv as [Hv|[Hv|[]]].
    + apply precedes_app_last. auto.
    + subst v. apply precedes_new; auto.
      apply (pending_zero_pred g searched u x); auto.
      apply Iready; auto. apply in_or_app. right. now left.
Qed.

(** With enough fuel the loop returns, and its invariant holds of what
    it returns. *)
Lemma sort_loop_spec g : wf g -> forall fuel deg d searched,
  kahn_inv g deg d searched ->
  length g < fuel + length searched ->
  exists out deg',
    DAG.sort_loop fuel g deg d searched = (Ok out, deg')
    /\ kahn_inv g deg' [] out.
Proof.
  intros Hwf fuel. induction fuel as [|fuel IH]; intros deg d searched Hinv Hfuel.
  - exfalso. destruct Hinv as [Inod Iincl _ _ _ _].
    assert (length searched <= length (Dict.keys g)).
    { apply NoDup_incl_length.
      - now apply NoDup_app_remove_r in Inod.
      - intros v Hv. apply Iincl. apply in_or_app. now left. }
    unfold Dict.keys in *. rewrite length_map in *. lia.
  - destruct d as [|x d].
    + exists searched, deg. split; [reflexivity | exact Hinv].
    + destruct (kahn_step g deg x d searched Hwf Hinv)
        as (ps & fresh & deg' & Hget & Hr & Hinv').
      simpl. rewrite Hget, Hr. apply IH; auto.
      rewrite length_app. simpl. lia.
Qed.

Lemma kahn_init self :
  wf (DAG.graph self) ->
  kahn_inv (DAG.graph self) (DAG.degrees (DAG.in_degrees self))
           (DAG.seeds (DAG.degrees (DAG.in_degrees self))) [].
Proof.
  intros [Hnd Hcl].
  set (g := DAG.graph self). set (deg := DAG.degrees (DAG.in_degrees self)).
  assert (Hseed : forall v, In v (DAG.seeds deg)
            <-> In v (Dict.keys deg) /\ Dict.get deg v = Some 0%Z).
  { intros v. unfold DAG.seeds. rewrite filter_In.
    destruct (Dict.get deg v) as [k|]; [|intuition discriminate].
    destruct (Z.eqb_spec k 0); [subst|]; intuition congruence. }
  constructor; simpl.
  - apply NoDup_filter. apply in_degrees_nodup.
  - intros v Hv. apply Hseed in Hv. now apply (in_degrees_keys self).
  - intros v Hv. now apply (in_degrees_keys self).
  - intros v Hv. unfold deg_of, deg. rewrite in_degrees_get by auto.
    now rewrite pending_nil.
  - intros v Hv. rewrite Hseed, pending_nil. unfold deg.
    rewrite in_degrees_get by auto. split.
    + intros [_ H]. unfold g. congruence.
    + unfold g. intros ->. split; auto. now apply (in_degrees_keys self).
  - intros u v _ [].
Qed.

(** [sort] returns on every well-formed graph, leaves the graph as it
    is, and the loop invariant holds of the list it returns. *)
Lemma sort_spec self :
  wf (DAG.graph self) ->
  exists out deg',
    DAG.sort self = (Ok out, {| DAG.graph := DAG.graph self; DAG.degrees := deg' |})
    /\ kahn_inv (DAG.graph self) deg' [] out.
Proof.
  intros Hwf.
  destruct (sort_loop_spec (DAG.graph self) Hwf (S (length (DAG.graph self)))
              (DAG.degrees (DAG.in_degrees self))
              (DAG.seeds (DAG.degrees (DAG.in_degrees self))) [])
    as (out & deg' & Hloop & Hinv).
  - now apply kahn_init.
  - simpl. lia.
  - exists out, deg'. split; auto.
    unfold DAG.sort. rewrite in_degrees_graph. rewrite Hloop. reflexivity.
Qed.

(* ================================================================== *)
(** * Edge insertion keeps the graph well formed *)

Lemma in_set (V : Type) (d : Dict.t V) k v k' v' :
  In (k', v') (Dict.set d k v) -> (k', v') = (k, v) \/ In (k', v') d.
Proof.
  induction d as [|[k0 v0] d IH]; simpl.
  - intros [H|[]]. left. congruence.
  - destruct (Nat.eqb k k0) eqn:E; simpl.
    + apply Nat.eqb_eq in E. subst k0. intros [H|H]; auto.
    + intros [H|H]; auto. destruct (IH H); auto.
Qed.

Lemma wf_empty : wf Dict.empty.
Proof. split; [constructor | intros u ps v []]. Qed.

Lemma wf_ensure g node : wf g -> wf (DAG.ensure g node).
Proof.
  intros [Hnd Hcl]. unfold DAG.ensure.
  destruct (Dict.contains g node); [now split|].
  split; [now apply nodup_keys_set|].
  intros u ps v Hin Hv. apply in_set in Hin. destruct Hin as [H|H].
  - inversion H; subst. destruct Hv.
  - apply in_keys_set. left. eauto.
Qed.

Lemma in_keys_ensure g node : In node (Dict.keys (DAG.ensure g node)).
Proof.
  unfold DAG.ensure. destruct (Dict.contains g node) eqn:E.
  - now apply contains_iff.
  - apply in_keys_set. now right.
Qed.

Lemma keys_ensure_mono g node v :
  In v (Dict.keys g) -> In v (Dict.keys (DAG.ensure g node)).
Proof.
  unfold DAG.ensure. destruct (Dict.contains g node); auto.
  intros H. apply in_keys_set. now left.
Qed.

Lemma wf_append_edge g node to :
  wf g -> In node (Dict.keys g) -> In to (Dict.keys g) ->
  exists g', DAG.append_edge g node to = Some g' /\ wf g'.
Proof.
  intros [Hnd Hcl] Hn Ht. unfold DAG.append_edge.
  destruct (proj2 (get_some_iff _ g node) Hn) as [l Hl]. rewrite Hl.
  eexists. split; [reflexivity|].
  split; [now apply nodup_keys_set|].
  intros u ps v Hin Hv. apply in_keys_set. left.
  apply in_set in Hin. destruct Hin as [H|H].
  - inversion H; subst. apply in_app_or in Hv. destruct Hv as [Hv|[Hv|[]]].
    + apply get_in in Hl. eauto.
    + now subst.
  - eauto.
Qed.

Lemma sorted_length g deg out :
  kahn_inv g deg [] out -> NoDup out /\ length out <= length g.
Proof.
  intros [Inod Iincl _ _ _ _]. rewrite app_nil_r in *.
  split; auto.
  replace (length g) with (length (Dict.keys g))
    by (unfold Dict.keys; apply length_map).
  apply NoDup_incl_length; auto.
Qed.

(** The check at the end of [add] passes on every well-formed graph. *)
Lemma validate_ok self :
  wf (DAG.graph self) ->
  exists deg', DAG.validate self
               = (Ok tt, {| DAG.graph := DAG.graph self; DAG.degrees := deg' |}).
Proof.
  intros Hwf. destruct (sort_spec self Hwf) as (out & deg' & Hs & Hinv).
  exists deg'. unfold DAG.validate. rewrite Hs. simpl.
  apply sorted_length in Hinv. destruct Hinv as [_ Hlen].
  apply Nat.ltb_ge in Hlen. now rewrite Hlen.
Qed.

Lemma add_ok self node to :
  wf (DAG.graph self) ->
  exists self', DAG.add self node to = (Ok tt, self') /\ wf (DAG.graph self').
Proof.
  intros Hwf. unfold DAG.add. destruct (given to) as [to'|].
  - pose proof (wf_ensure _ to' (wf_ensure _ node Hwf)) as Hwf2.
    destruct (wf_append_edge _ node to' Hwf2) as (g3 & Happ & Hwf3).
    { apply keys_ensure_mono, in_keys_ensure. }
    { apply in_keys_ensure. }
    rewrite Happ.
    destruct (validate_ok {| DAG.graph := g3; DAG.degrees := DAG.degrees self |} Hwf3)
      as [deg' Hv].
    rewrite Hv. eexists. split; [reflexivity | exact Hwf3].
  - pose proof (wf_ensure _ node Hwf) as Hwf1.
    destruct (validate_ok {| DAG.graph := DAG.ensure (DAG.graph self) node;
                             DAG.degrees := DAG.degrees self |} Hwf1)
      as [deg' Hv].
    rewrite Hv. eexists. split; [reflexivity | exact Hwf1].
Qed.

Lemma adds_wf ops : forall self,
  wf (DAG.graph self) -> wf (DAG.graph (DAG.adds self ops)).
Proof.
  induction ops as [|[node to] ops IH]; intros self Hwf; [exact Hwf|].
  unfold DAG.adds. simpl. apply IH.
  destruct (add_ok self node to Hwf) as (self' & Ha & Hwf').
  now rewrite Ha.
Qed.

Lemma built_wf ops : wf (DAG.graph (DAG.adds DAG.init ops)).
Proof. apply adds_wf. apply wf_empty. Qed.

(* ================================================================== *)
(** * Paths, cycles and the order of sort *)

Lemma chain_app_r g l1 : forall l2, chain g (l1 ++ l2) -> chain g l2.
Proof.
  induction l1 as [|x l1 IH]; intros l2 H; [exact H|].
  apply IH. simpl in H. destruct (l1 ++ l2); [exact I | tauto].
Qed.

Lemma chain_app_l g l1 : forall l2, chain g (l1 ++ l2) -> chain g l1.
Proof.
  induction l1 as [|x l1 IH]; intros l2 H; [exact I|].
  destruct l1 as [|y l1]; [exact I|].
  simpl in H. destruct H as [He H]. split; auto. apply (IH l2). exact H.
Qed.

Lemma chain_path g m : forall a b, chain g (a :: m ++ [b]) -> path g a b.
Proof.
  induction m as [|x m IH]; intros a b H.
  - simpl in H. apply path_edge. tauto.
  - destruct H as [He H]. eapply path_step; [exact He|]. apply IH. exact H.
Qed.

Lemma repeat_split (l : list Node) :
  NoDup l \/ exists a l1 l2 l3, l = l1 ++ a :: l2 ++ a :: l3.
Proof.
  induction l as [|x l [IH|(a & l1 & l2 & l3 & IH)]].
  - left. constructor.
  - destruct (in_dec Nat.eq_dec x l) as [H|H].
    + right. apply in_split in H. destruct H as (l2 & l3 & ->).
      exists x, [], l2, l3. reflexivity.
    + left. now constructor.
  - right. exists a, (x :: l1), l2, l3. now rewrite IH.
Qed.

(** In a set of nodes where each has a predecessor in the set, edges
    chain backwards for as long as one likes. *)
Lemma chain_back g (P : Node -> Prop) :
  (forall v, P v -> exists u, edge g u v /\ P u) ->
  forall n v, P v ->
  exists l, length l = S n /\ chain g l /\ (forall u, In u l -> P u).
Proof.
  intros Hpred n v Hv. induction n as [|n (l & Hlen & Hch & Hall)].
  - exists [v]. repeat split; auto. intros u [<-|[]]. exact Hv.
  - destruct l as [|h l]; [discriminate|].
    destruct (Hpred h) as (u & He & Hu); [apply Hall; now left|].
    exists (u :: h :: l). split; [simpl in *; lia|]. split.
    + split; auto.
    + intros w [<-|Hw]; auto.
Qed.

Lemma no_pred_closed_set g (P : Node -> Prop) v :
  acyclic g ->
  (forall v, P v -> In v (Dict.keys g)) ->
  (forall v, P v -> exists u, edge g u v /\ P u) ->
  ~ P v.
Proof.
  intros Hac Hsub Hpred Hv.
  destruct (chain_back g P Hpred (length (Dict.keys g)) v Hv)
    as (l & Hlen & Hch & Hall).
  destruct (repeat_split l) as [Hnd|(a & l1 & l2 & l3 & ->)].
  - assert (length l <= length (Dict.keys g)); [|lia].
    apply NoDup_incl_length; auto. intros u Hu. auto.
  - apply (Hac a). apply chain_path with (m := l2).
    apply chain_app_r in Hch.
    change (a :: l2 ++ a :: l3) with ((a :: l2) ++ [a] ++ l3) in Hch.
    rewrite app_assoc in Hch. apply chain_app_l in Hch. exact Hch.
Qed.

Lemma path_source g u v : path g u v -> In u (Dict.keys g).
Proof. intros [? ? H|? ? ? H _]; eapply edge_source; eauto. Qed.

Lemma path_precedes g deg out u v :
  kahn_inv g deg [] out -> path g u v -> In v out -> precedes out u v.
Proof.
  intros Hinv Hp. induction Hp as [u v He|u w v He Hp IH]; intros Hv.
  - now apply (inv_order _ _ _ _ Hinv).
  - specialize (IH Hv). apply precedes_trans with (v := w); auto.
    apply (inv_order _ _ _ _ Hinv); auto. eapply precedes_in_l; eauto.
Qed.

Lemma sorted_complete g deg out :
  wf g -> acyclic g -> kahn_inv g deg [] out ->
  forall v, In v (Dict.keys g) -> In v out.
Proof.
  intros [Hnd Hcl] Hac Hinv v Hv.
  destruct (in_dec Nat.eq_dec v out) as [H|H]; auto. exfalso.
  apply (no_pred_closed_set g
           (fun v => In v (Dict.keys g) /\ ~ In v out) v Hac); auto.
  - tauto.
  - intros w [Hw Hnw].
    assert (Hpos : (0 < pending g out w)%Z).
    { pose proof (pending_nonneg g out w).
      destruct (Z.eq_dec (pending g out w) 0) as [Hz|Hz]; [|lia].
      exfalso. apply Hnw. apply (inv_ready _ _ _ _ Hinv) in Hz; auto.
      now rewrite app_nil_r in Hz. }
    destruct (pending_pos_pred g out w Hnd Hpos) as (u & He & Hu).
    exists u. repeat split; auto. eapply edge_source; eauto.
Qed.

Lemma ranked_acyclic g (rank : Node -> nat) :
  (forall u v, edge g u v -> rank u < rank v) -> acyclic g.
Proof.
  intros Hr.
  assert (H : forall u v, path g u v -> rank u < rank v).
  { intros u v Hp. induction Hp as [u v He|u w v He Hp IH].
    - auto.
    - specialize (Hr u w He). lia. }
  intros v Hp. specialize (H v v Hp). lia.
Qed.

(* ================================================================== *)
(** * Properties of DAG *)

(** C2: on a graph without directed cycle, [sort] returns a
    permutation of all the nodes in which the source of every edge
    comes before its target.  Every graph that [add] builds is well
    formed ([built_wf]). *)
Theorem sort_topological_order (self : DAG.t) :
  wf (DAG.graph self) -> acyclic (DAG.graph self) ->
  exists order self',
    DAG.sort self = (Ok order, self')
    /\ Permutation order (Dict.keys (DAG.graph self))
    /\ forall u v, edge (DAG.graph self) u v -> precedes order u v.
Proof.
  intros Hwf Hac.
  destruct (sort_spec self Hwf) as (out & deg' & Hs & Hinv).
  exists out, {| DAG.graph := DAG.graph self; DAG.degrees := deg' |}.
  split; [exact Hs|].
  pose proof (sorted_complete _ _ _ Hwf Hac Hinv) as Hall.
  split.
  - apply NoDup_Permutation.
    + now apply (sorted_length _ _ _ Hinv).
    + apply Hwf.
    + intros v. split; [|apply Hall].
      intros Hv. apply (inv_incl _ _ _ _ Hinv). now rewrite app_nil_r.
  - intros u v He. apply (inv_order _ _ _ _ Hinv); auto.
    apply Hall. eapply edge_target; eauto. apply Hwf.
Qed.

(** C4: on a graph with a directed cycle, [sort] returns fewer nodes
    than the graph has. *)
Theorem sort_short_on_cycle (self : DAG.t) :
  wf (DAG.graph self) -> cyclic (DAG.graph self) ->
  exists order self',
    DAG.sort self = (Ok order, self')
    /\ length order < length (Dict.keys (DAG.graph self)).
Proof.
  intros Hwf [v Hp].
  destruct (sort_spec self Hwf) as (out & deg' & Hs & Hinv).
  exists out, {| DAG.graph := DAG.graph self; DAG.degrees := deg' |}.
  split; [exact Hs|].
  assert (Hv : ~ In v out).
  { intros Hv. apply (precedes_irrefl out v).
    eapply path_precedes; eauto. }
  assert (Hlen : length (v :: out) <= length (Dict.keys (DAG.graph self))).
  { apply NoDup_incl_length.
    - constructor; auto. now apply (sorted_length _ _ _ Hinv).
    - intros w [<-|Hw].
      + eapply path_source; eauto.
      + apply (inv_incl _ _ _ _ Hinv). now rewrite app_nil_r. }
  simpl in Hlen. lia.
Qed.

(** C5: on every graph built by [add] calls, [sort] returns a list
    without repetition, at most as long as the graph has nodes. *)
Theorem sort_no_duplicates (ops : list (Node * option Node)) :
  exists order self',
    DAG.sort (DAG.adds DAG.init ops) = (Ok order, self')
    /\ NoDup order
    /\ length order <= length (Dict.keys (DAG.graph (DAG.adds DAG.init ops))).
Proof.
  destruct (sort_spec _ (built_wf ops)) as (out & deg' & Hs & Hinv).
  eexists _, _. split; [exact Hs|].
  apply sorted_length in Hinv. unfold Dict.keys. now rewrite length_map.
Qed.

(** C9: on every graph built by [add] calls, [in_degrees] leaves in
    [degrees] one entry per node of the graph, and the entry of a node
    is the number of edges that point to it. *)
Theorem in_degrees_counts_predecessors (ops : list (Node * option Node)) :
  (forall v, In v (Dict.keys (DAG.degrees (DAG.in_degrees (DAG.adds DAG.init ops))))
             <-> In v (Dict.keys (DAG.graph (DAG.adds DAG.init ops))))
  /\ NoDup (Dict.keys (DAG.degrees (DAG.in_degrees (DAG.adds DAG.init ops))))
  /\ Forall (fun v =>
               Dict.get (DAG.degrees (DAG.in_degrees (DAG.adds DAG.init ops))) v
               = Some (indegree (DAG.graph (DAG.adds DAG.init ops)) v))
            (Dict.keys (DAG.graph (DAG.adds DAG.init ops))).
Proof.
  split; [|split].
  - intros v. apply in_degrees_keys. apply (built_wf ops).
  - apply in_degrees_nodup.
  - apply Forall_forall. intros v Hv. now apply in_degrees_get.
Qed.

(** No call of [add] on a graph built by [add] calls raises, whatever
    edge it inserts. *)
Lemma add_never_raises (ops : list (Node * option Node)) node to :
  exists self', DAG.add (DAG.adds DAG.init ops) node to = (Ok tt, self').
Proof.
  destruct (add_ok (DAG.adds DAG.init ops) node to (built_wf ops))
    as (self' & H & _).
  eauto.
Qed.

Lemma two_cycle : cyclic [(1, [2]); (2, [1])].
Proof.
  exists 1. apply path_step with (v := 2); [|apply path_edge]; reflexivity.
Qed.

(** C1: the call [add(2, 1)] on the graph with the single edge
    [1 -> 2] closes a cycle and returns without raising, and so does
    the registration of [1] with [depends_on=2] in the pipeline where
    [2] depends on [1]. *)
Theorem add_closing_cycle_returns :
  DAG.add (DAG.adds DAG.init [(1, Some 2)]) 2 (Some 1)
  = (Ok tt, {| DAG.graph := [(1, [2]); (2, [1])];
               DAG.degrees := [(1, 1%Z); (2, 1%Z)] |})
  /\ Pipeline.task (Pipeline.register Pipeline.init [(1, None); (2, Some 1)])
                   (Some 2) 1
     = (Ok 1, {| Pipeline.tasks :=
                   {| DAG.graph := [(1, [2]); (2, [1])];
                      DAG.degrees := [(1, 1%Z); (2, 1%Z)] |} |})
  /\ cyclic [(1, [2]); (2, [1])].
Proof.
  split; [|split]; [reflexivity | reflexivity | exact two_cycle].
Qed.

(** C3: three [add] calls in a row return without raising and leave
    the graph with the cycle [1 -> 2 -> 3 -> 1]. *)
Theorem adds_reach_cyclic_graph :
  exists s1 s2 s3,
    DAG.add DAG.init 1 (Some 2) = (Ok tt, s1)
    /\ DAG.add s1 2 (Some 3) = (Ok tt, s2)
    /\ DAG.add s2 3 (Some 1) = (Ok tt, s3)
    /\ DAG.graph s3 = [(1, [2]); (2, [3]); (3, [1])]
    /\ cyclic (DAG.graph s3).
Proof.
  eexists _, _, _.
  split; [reflexivity|]. split; [reflexivity|]. split; [reflexivity|].
  split; [reflexivity|].
  exists 1. apply path_step with (v := 2); [reflexivity|].
  apply path_step with (v := 3); [reflexivity|].
  apply path_edge. reflexivity.
Qed.

(* ================================================================== *)
(** * Registration *)

Lemma sort_graph self : DAG.graph (snd (DAG.sort self)) = DAG.graph self.
Proof.
  unfold DAG.sort. destruct (DAG.sort_loop _ _ _ _ _). reflexivity.
Qed.

Lemma validate_graph self : DAG.graph (snd (DAG.validate self)) = DAG.graph self.
Proof.
  unfold DAG.validate. pose proof (sort_graph self) as H.
  destruct (DAG.sort self) as [[out|e|] self']; simpl in *; auto.
  destruct (Nat.ltb _ _); auto.
Qed.

Lemma given_truthy n : truth n = true -> given (Some n) = Some n.
Proof. intros H. simpl. now rewrite H. Qed.

Lemma given_falsy n : truth n = false -> given (Some n) = None.
Proof. intros H. simpl. now rewrite H. Qed.

Lemma add_graph self node to :
  DAG.graph (snd (DAG.add self node to))
  = inserted (DAG.graph self) node (given to).
Proof.
  unfold DAG.add, inserted. destruct (given to) as [to'|].
  - destruct (DAG.append_edge _ node to'); [|reflexivity].
    now rewrite validate_graph.
  - now rewrite validate_graph.
Qed.

Lemma task_ok self depends_on f :
  wf (DAG.graph (Pipeline.tasks self)) ->
  exists self',
    Pipeline.task self depends_on f = (Ok f, self')
    /\ wf (DAG.graph (Pipeline.tasks self'))
    /\ DAG.graph (Pipeline.tasks self')
       = match given depends_on with
         | None => inserted (DAG.graph (Pipeline.tasks self)) f None
         | Some dep =>
             inserted (inserted (DAG.graph (Pipeline.tasks self)) f None)
                      dep (given (Some f))
         end.
Proof.
  intros Hwf. unfold Pipeline.task.
  destruct (add_ok (Pipeline.tasks self) f None Hwf) as (d1 & H1 & Hwf1).
  pose proof (add_graph (Pipeline.tasks self) f None) as G1.
  rewrite H1 in *. simpl in G1. destruct (given depends_on) as [dep|].
  - destruct (add_ok d1 dep (Some f) Hwf1) as (d2 & H2 & Hwf2).
    pose proof (add_graph d1 dep (Some f)) as G2.
    rewrite H2 in *. simpl in G2. eexists. split; [reflexivity|].
    split; [exact Hwf2|]. simpl. now rewrite G2, G1.
  - eexists. split; [reflexivity|]. split; [exact Hwf1 | exact G1].
Qed.

Lemma register_wf decls : forall self,
  wf (DAG.graph (Pipeline.tasks self)) ->
  wf (DAG.graph (Pipeline.tasks (Pipeline.register self decls))).
Proof.
  induction decls as [|[f dep] decls IH]; intros self Hwf; [exact Hwf|].
  unfold Pipeline.register. simpl. apply IH.
  destruct (task_ok self dep f Hwf) as (self' & Ht & Hwf' & _).
  now rewrite Ht.
Qed.

Lemma registered_wf decls :
  wf (DAG.graph (Pipeline.tasks (Pipeline.register Pipeline.init decls))).
Proof. apply register_wf. apply wf_empty. Qed.

(** No registration in a pipeline built by registrations raises. *)
Lemma task_never_raises decls depends_on f :
  exists self',
    Pipeline.task (Pipeline.register Pipeline.init decls) depends_on f
    = (Ok f, self').
Proof.
  destruct (task_ok _ depends_on f (registered_wf decls)) as (self' & H & _).
  eauto.
Qed.

(* ================================================================== *)
(** * run and the graph *)

Section RunFrame.

Variables (Val World : Type).
Variable work : Node -> option Val -> World -> (Val + exn) * World.

Lemma invoke_cases task arg (fr : Pipeline.frame Val World) :
  (exists v w',
      work task arg (Pipeline.world fr) = (inl v, w')
      /\ Pipeline.invoke work task arg fr
         = (Ok tt, {| Pipeline.completed := Dict.set (Pipeline.completed fr) task v;
                      Pipeline.calls := Pipeline.calls fr ++ [(task, arg, inl v)];
                      Pipeline.world := w' |}))
  \/ (exists e w',
      work task arg (Pipeline.world fr) = (inr e, w')
      /\ Pipeline.invoke work task arg fr
         = (Raise e, {| Pipeline.completed := Pipeline.completed fr;
                        Pipeline.calls := Pipeline.calls fr ++ [(task, arg, inr e)];
                        Pipeline.world := w' |})).
Proof.
  unfold Pipeline.invoke.
  destruct (work task arg (Pipeline.world fr)) as [[v|e] w']; eauto 6.
Qed.

Lemma invoke_frame task arg (fr fr' : Pipeline.frame Val World) r u :
  Pipeline.invoke work task arg fr = (r, fr') -> u <> task ->
  Dict.get (Pipeline.completed fr') u = Dict.get (Pipeline.completed fr) u.
Proof.
  intros H Hu.
  destruct (invoke_cases task arg fr) as [(v & w' & _ & E)|(e & w' & _ & E)];
    rewrite E in H; inversion H; subst; simpl; auto.
  apply get_set_other. congruence.
Qed.

Lemma feed_frame items task : forall (fr fr' : Pipeline.frame Val World) r u,
  Pipeline.feed work items task fr = (r, fr') -> u <> task ->
  Dict.get (Pipeline.completed fr') u = Dict.get (Pipeline.completed fr) u.
Proof.
  induction items as [|[node values] items IH]; intros fr fr' r u H Hu; simpl in H.
  - now inversion H.
  - destruct (mem task values); [|eauto].
    destruct (Dict.get (Pipeline.completed fr) node) as [x|];
      [|now inversion H].
    destruct (Pipeline.invoke work task (Some x) fr) as [[[]|e|] fr1] eqn:E.
    + rewrite (IH _ _ _ _ H Hu). eapply invoke_frame; eauto.
    + inversion H; subst. eapply invoke_frame; eauto.
    + inversion H; subst. eapply invoke_frame; eauto.
Qed.

Lemma exec_frame g task (fr fr' : Pipeline.frame Val World) r u :
  Pipeline.exec work g task fr = (r, fr') -> u <> task ->
  Dict.get (Pipeline.completed fr') u = Dict.get (Pipeline.completed fr) u.
Proof.
  unfold Pipeline.exec. intros H Hu.
  destruct (Pipeline.feed work g task fr) as [[[]|e|] fr1] eqn:E.
  - destruct (Dict.contains (Pipeline.completed fr1) task).
    + inversion H; subst. eapply feed_frame; eauto.
    + rewrite (invoke_frame _ _ _ _ _ _ H Hu). eapply feed_frame; eauto.
  - inversion H; subst. eapply feed_frame; eauto.
  - inversion H; subst. eapply feed_frame; eauto.
Qed.

Lemma run_loop_frame g scheduled : forall (fr fr' : Pipeline.frame Val World) r u,
  Pipeline.run_loop work g scheduled fr = (r, fr') -> ~ In u scheduled ->
  Dict.get (Pipeline.completed fr') u = Dict.get (Pipeline.completed fr) u.
Proof.
  induction scheduled as [|task rest IH]; intros fr fr' r u H Hu; simpl in *.
  - now inversion H.
  - destruct (Pipeline.exec work g task fr) as [[[]|e|] fr1] eqn:E.
    + rewrite (IH _ _ _ _ H) by tauto. eapply exec_frame; eauto.
    + inversion H; subst. eapply exec_frame; eauto.
    + inversion H; subst. eapply exec_frame; eauto.
Qed.

(** C10: [run] leaves the adjacency mapping of the pipeline's graph
    as it was, whether it returns or raises. *)
Theorem run_keeps_graph (self : Pipeline.t) (w : World) :
  DAG.graph (Pipeline.tasks (snd (Pipeline.run work self w)))
  = DAG.graph (Pipeline.tasks self).
Proof.
  unfold Pipeline.run.
  pose proof (sort_graph (Pipeline.tasks self)) as H.
  destruct (DAG.sort (Pipeline.tasks self)) as [[scheduled|e|] dag']; simpl in *;
    auto.
  destruct (Pipeline.run_loop work (DAG.graph dag') scheduled _)
    as [[[]|e|] fr]; simpl; auto.
Qed.

End RunFrame.

(* ================================================================== *)
(** * run: the last predecessor wins *)

Lemma last_pred_in items t p :
  last_pred items t = Some p ->
  exists values, In (p, values) items /\ mem t values = true.
Proof.
  induction items as [|[node values] items IH]; simpl; [discriminate|].
  destruct (last_pred items t) as [q|].
  - intros [= ->]. destruct IH as (vs & H1 & H2); eauto.
  - destruct (mem t values) eqn:E; [|discriminate].
    intros [= ->]. eauto.
Qed.

Lemma filter_targets node values t :
  filter (fun e : Node * Node => Nat.eqb (snd e) t) (map (pair node) values)
  = map (pair node) (filter (fun v => Nat.eqb v t) values).
Proof.
  induction values as [|v l IH]; simpl; [reflexivity|].
  destruct (Nat.eqb v t); simpl; now rewrite IH.
Qed.

Lemma filter_targets_nil values t :
  filter (fun v => Nat.eqb v t) values = [] <-> mem t values = false.
Proof.
  rewrite mem_false_iff. induction values as [|v l IH]; simpl; [tauto|].
  destruct (Nat.eqb v t) eqn:E.
  - apply Nat.eqb_eq in E. split; [discriminate | intros H; exfalso; auto].
  - apply Nat.eqb_neq in E. rewrite IH. intuition congruence.
Qed.

Lemma last_incoming_scan g t : last_incoming g t = last_pred g t.
Proof.
  unfold last_incoming. induction g as [|[node values] g IH]; [reflexivity|].
  unfold edges in *. simpl. rewrite filter_app, rev_app_distr, filter_targets.
  destruct (rev (filter _ (flat_map _ g))) as [|e l] eqn:E.
  - rewrite <- IH. simpl.
    destruct (filter (fun v => Nat.eqb v t) values) as [|v l] eqn:F.
    + apply filter_targets_nil in F. now rewrite F.
    + assert (Hm : mem t values = true).
      { destruct (mem t values) eqn:M; auto.
        apply filter_targets_nil in M. congruence. }
      rewrite Hm. rewrite <- map_rev.
      destruct (rev (v :: l)) as [|v' l'] eqn:R; [|reflexivity].
      apply (f_equal (@length _)) in R. rewrite length_rev in R. discriminate.
  - rewrite <- IH. reflexivity.
Qed.

Lemma pos_app_notin l l' x :
  ~ In x l -> pos (l ++ l') x = option_map (Nat.add (length l)) (pos l' x).
Proof.
  induction l as [|y l IH]; simpl; intros H.
  - destruct (pos l' x); reflexivity.
  - destruct (Nat.eqb x y) eqn:E.
    + apply Nat.eqb_eq in E. subst. tauto.
    + rewrite IH by tauto. destruct (pos l' x); reflexivity.
Qed.

Lemma nodup_app_disjoint (l1 l2 : list Node) :
  NoDup (l1 ++ l2) -> forall u, In u l1 -> ~ In u l2.
Proof.
  induction l1 as [|x l1 IH]; simpl; intros Hnd u Hu Hu2; [tauto|].
  inversion Hnd as [|? ? Hx Hnd']; subst. destruct Hu as [->|Hu].
  - apply Hx. apply in_or_app. now right.
  - exact (IH Hnd' u Hu Hu2).
Qed.

Lemma precedes_split r1 t r2 p :
  NoDup (r1 ++ t :: r2) -> precedes (r1 ++ t :: r2) p t -> In p r1.
Proof.
  intros Hnd (i & j & Hi & Hj & Hij).
  assert (Ht : ~ In t r1).
  { apply NoDup_remove_2 in Hnd. intros H. apply Hnd. apply in_or_app. now left. }
  rewrite pos_app_notin in Hj by auto. simpl in Hj. rewrite Nat.eqb_refl in Hj.
  simpl in Hj. inversion Hj; subst j.
  destruct (in_dec Nat.eq_dec p r1) as [H|H]; auto.
  rewrite pos_app_notin in Hi by auto.
  destruct (pos (t :: r2) p); simpl in Hi; [|discriminate].
  inversion Hi. lia.
Qed.

Section RunLast.

Variables (Val World : Type).
Variable work : Node -> option Val -> World -> (Val + exn) * World.

Lemma run_loop_app g l1 : forall l2 (fr fr' : Pipeline.frame Val World),
  Pipeline.run_loop work g (l1 ++ l2) fr = (Ok tt, fr') ->
  exists fr1,
    Pipeline.run_loop work g l1 fr = (Ok tt, fr1)
    /\ Pipeline.run_loop work g l2 fr1 = (Ok tt, fr').
Proof.
  induction l1 as [|t l1 IH]; intros l2 fr fr' H; simpl in *; [eauto|].
  destruct (Pipeline.exec _ g t fr) as [[[]|e|] fr1]; try discriminate.
  now apply IH.
Qed.

Lemma invoke_log t arg (fr fr' : Pipeline.frame Val World) r :
  Pipeline.invoke work t arg fr = (r, fr') ->
  exists later, Pipeline.calls fr' = Pipeline.calls fr ++ later
                /\ Forall (fun c => callee c = t) later.
Proof.
  intros H.
  destruct (invoke_cases Val World work t arg fr)
    as [(v & w' & _ & E)|(e & w' & _ & E)];
    rewrite E in H; inversion H; subst; simpl;
    eexists; (split; [reflexivity|]); repeat constructor.
Qed.

Lemma feed_log items t : forall (fr fr' : Pipeline.frame Val World) r,
  Pipeline.feed work items t fr = (r, fr') ->
  exists later, Pipeline.calls fr' = Pipeline.calls fr ++ later
                /\ Forall (fun c => callee c = t) later.
Proof.
  induction items as [|[node values] items IH]; intros fr fr' r H; simpl in H.
  - inversion H; subst. exists []. now rewrite app_nil_r.
  - destruct (mem t values); [|eauto].
    destruct (Dict.get (Pipeline.completed fr) node) as [x|].
    + destruct (Pipeline.invoke work t (Some x) fr) as [r1 fr1] eqn:E.
      destruct (invoke_log _ _ _ _ _ E) as (l1 & H1 & F1).
      destruct r1 as [[]|e|]; try solve [inversion H; subst; eauto].
      destruct (IH _ _ _ H) as (l2 & H2 & F2).
      exists (l1 ++ l2). rewrite H2, H1, app_assoc. split; auto.
      apply Forall_app. auto.
    + inversion H; subst. exists []. now rewrite app_nil_r.
Qed.

Lemma exec_log g t (fr fr' : Pipeline.frame Val World) r :
  Pipeline.exec work g t fr = (r, fr') ->
  exists later, Pipeline.calls fr' = Pipeline.calls fr ++ later
                /\ Forall (fun c => callee c = t) later.
Proof.
  unfold Pipeline.exec. intros H.
  destruct (Pipeline.feed work g t fr) as [r1 fr1] eqn:E.
  destruct (feed_log _ _ _ _ _ E) as (l1 & H1 & F1).
  destruct r1 as [[]|e|]; try solve [inversion H; subst; eauto].
  destruct (Dict.contains (Pipeline.completed fr1) t);
    [inversion H; subst; eauto|].
  destruct (invoke_log _ _ _ _ _ H) as (l2 & H2 & F2).
  exists (l1 ++ l2). rewrite H2, H1, app_assoc. split; auto.
  apply Forall_app. auto.
Qed.

Lemma run_loop_log g rest : forall (fr fr' : Pipeline.frame Val World) r,
  Pipeline.run_loop work g rest fr = (r, fr') ->
  exists later, Pipeline.calls fr' = Pipeline.calls fr ++ later
                /\ Forall (fun c => In (callee c) rest) later.
Proof.
  induction rest as [|t rest IH]; intros fr fr' r H; simpl in H.
  - inversion H; subst. exists []. now rewrite app_nil_r.
  - destruct (Pipeline.exec work g t fr) as [r1 fr1] eqn:E.
    destruct (exec_log _ _ _ _ _ E) as (l1 & H1 & F1).
    assert (F1' : Forall (fun c => In (callee c) (t :: rest)) l1).
    { eapply Forall_impl; [|exact F1]. intros c ->. now left. }
    destruct r1 as [[]|e|]; try solve [inversion H; subst; eauto].
    destruct (IH _ _ _ H) as (l2 & H2 & F2).
    exists (l1 ++ l2). rewrite H2, H1, app_assoc. split; auto.
    apply Forall_app. split; auto.
    eapply Forall_impl; [|exact F2]. intros c Hc. now right.
Qed.

(** After a scan that returned, the entry of [t] is what the call of
    [t] on the entry of its last holder returned, and that call is the
    last of the log. *)
Lemma feed_last items t : forall (fr fr' : Pipeline.frame Val World),
  Pipeline.feed work items t fr = (Ok tt, fr') ->
  (forall node values, In (node, values) items -> mem t values = true -> node <> t) ->
  match last_pred items t with
  | Some p =>
      exists x v w1 w2 pre,
        Dict.get (Pipeline.completed fr) p = Some x
        /\ work t (Some x) w1 = (inl v, w2)
        /\ Dict.get (Pipeline.completed fr') t = Some v
        /\ Pipeline.calls fr' = pre ++ [(t, Some x, inl v)]
  | None => fr' = fr
  end.
Proof.
  induction items as [|[node values] items IH]; intros fr fr' H Hself.
  - simpl in *. now inversion H.
  - simpl in H. cbn [last_pred].
    assert (Hrest : forall n vs, In (n, vs) items -> mem t vs = true -> n <> t).
    { intros n vs Hin. apply Hself. now right. }
    destruct (mem t values) eqn:M.
    + destruct (Dict.get (Pipeline.completed fr) node) as [x|] eqn:Gx;
        [|discriminate].
      destruct (invoke_cases Val World work t (Some x) fr)
        as [(v & w' & Hw & E)|(e & w' & Hw & E)]; rewrite E in H;
        [|discriminate].
      specialize (IH _ _ H Hrest).
      destruct (last_pred items t) as [p|] eqn:L.
      * destruct IH as (x' & v' & w1 & w2 & pre & H1 & H2 & H3 & H4).
        exists x', v', w1, w2, pre. repeat split; auto. simpl in H1.
        rewrite get_set_other in H1; auto.
        apply last_pred_in in L. destruct L as (vs & Hin & Hm).
        intros ->. now apply (Hrest p vs).
      * subst fr'. exists x, v, (Pipeline.world fr), w', (Pipeline.calls fr).
        simpl. repeat split; auto. apply get_set_same.
    + specialize (IH _ _ H Hrest).
      destruct (last_pred items t); exact IH.
Qed.

Lemma exec_last g t p (fr fr' : Pipeline.frame Val World) :
  Pipeline.exec work g t fr = (Ok tt, fr') ->
  (forall node values, In (node, values) g -> mem t values = true -> node <> t) ->
  last_pred g t = Some p ->
  exists x v w1 w2 pre,
    Dict.get (Pipeline.completed fr) p = Some x
    /\ work t (Some x) w1 = (inl v, w2)
    /\ Dict.get (Pipeline.completed fr') t = Some v
    /\ Pipeline.calls fr' = pre ++ [(t, Some x, inl v)].
Proof.
  unfold Pipeline.exec. intros H Hself L.
  destruct (Pipeline.feed _ g t fr) as [[[]|e|] fr1] eqn:E; try discriminate.
  pose proof (feed_last g t fr fr1 E Hself) as Hf. rewrite L in Hf.
  destruct Hf as (x & v & w1 & w2 & pre & H1 & H2 & H3 & H4).
  unfold Dict.contains in H. rewrite H3 in H. inversion H; subst. eauto 10.
Qed.

Lemma run_loop_last g scheduled t p (fr fr' : Pipeline.frame Val World) :
  NoDup (Dict.keys g) -> NoDup scheduled ->
  (forall u v, edge g u v -> In v scheduled -> precedes scheduled u v) ->
  Pipeline.run_loop work g scheduled fr = (Ok tt, fr') ->
  In t scheduled -> last_pred g t = Some p ->
  exists x v w1 w2 pre post,
    Dict.get (Pipeline.completed fr') p = Some x
    /\ work t (Some x) w1 = (inl v, w2)
    /\ Dict.get (Pipeline.completed fr') t = Some v
    /\ Pipeline.calls fr' = pre ++ (t, Some x, inl v) :: post
    /\ Forall (fun c => callee c <> t) post.
Proof.
  intros Hg Hnd Hord Hrun Ht L.
  apply in_split in Ht. destruct Ht as (r1 & r2 & ->).
  assert (Hpred : forall node values,
             In (node, values) g -> mem t values = true -> In node r1).
  { intros node values Hin Hm. apply (precedes_split r1 t r2); auto.
    apply Hord; [|apply in_or_app; right; now left].
    apply (edge_intro g node values); [now apply in_get | now apply mem_iff]. }
  assert (Ht1 : ~ In t r1).
  { apply NoDup_remove_2 in Hnd. intros H. apply Hnd. apply in_or_app. now left. }
  assert (Hr2 : forall u, In u (r1 ++ [t]) -> ~ In u r2).
  { intros u Hu Hu2.
    change (r1 ++ t :: r2) with (r1 ++ [t] ++ r2) in Hnd.
    rewrite app_assoc in Hnd.
    exact (nodup_app_disjoint _ _ Hnd u Hu Hu2). }
  destruct (run_loop_app g r1 (t :: r2) fr fr' Hrun) as (fr1 & _ & Hrun2).
  simpl in Hrun2.
  destruct (Pipeline.exec _ g t fr1) as [[[]|e|] fr2] eqn:E; try discriminate.
  apply last_pred_in in L as Lin. destruct Lin as (vs & Hin & Hm).
  pose proof (Hpred p vs Hin Hm) as Hp1.
  destruct (exec_last g t p fr1 fr2 E) as (x & v & w1 & w2 & pre & H1 & H2 & H3 & H4);
    auto.
  { intros node values Hi Hmm ->. apply Ht1. eauto. }
  destruct (run_loop_log g r2 fr2 fr' _ Hrun2) as (post & Hpost & Fpost).
  exists x, v, w1, w2, pre, post. split; [|split; [exact H2|split; [|split]]].
  - rewrite (run_loop_frame _ _ _ _ _ _ _ _ p Hrun2)
      by (apply Hr2, in_or_app; now left).
    rewrite (exec_frame _ _ _ _ _ _ _ _ p E) by (intros ->; auto).
    exact H1.
  - rewrite (run_loop_frame _ _ _ _ _ _ _ _ t Hrun2)
      by (apply Hr2, in_or_app; right; now left).
    exact H3.
  - rewrite Hpost, H4, <- app_assoc. reflexivity.
  - eapply Forall_impl; [|exact Fpost]. intros c Hc Heq.
    apply (Hr2 t); [apply in_or_app; right; now left | now rewrite <- Heq].
Qed.

End RunLast.

(* ================================================================== *)
(** * The diamond, and graphs that differ in their degrees only *)

Lemma diamond_acyclic : acyclic (DAG.graph (Pipeline.tasks diamond)).
Proof.
  apply (ranked_acyclic _ (fun n => n)). intros u v He.
  apply edge_inv in He. destruct He as (ps & Hget & Hin).
  apply get_in in Hget. vm_compute in Hget.
  repeat (destruct Hget as [Hget|Hget];
          [inversion Hget; subst; simpl in Hin; lia|]).
  destruct Hget.
Qed.

Lemma sort_same_graph s1 s2 :
  DAG.graph s1 = DAG.graph s2 -> DAG.sort s1 = DAG.sort s2.
Proof.
  intros H. unfold DAG.sort, DAG.in_degrees. simpl. now rewrite H.
Qed.

(* ================================================================== *)
(** * run and the failure of a unit of work *)

Section RunLog.

Variables (Val World : Type).
Variable work : Node -> option Val -> World -> (Val + exn) * World.

Lemma written_app_last (log : list (Pipeline.call Val)) c u :
  written (log ++ [c]) u
  = match snd c with
    | inl v => if Nat.eqb (callee c) u then Some v else written log u
    | inr _ => written log u
    end.
Proof. unfold written. now rewrite fold_left_app. Qed.

Lemma written_callee (log : list (Pipeline.call Val)) u v :
  written log u = Some v -> exists c, In c log /\ callee c = u.
Proof.
  induction log as [|c log IH] using rev_ind; [discriminate|].
  rewrite written_app_last. intros H.
  assert (Hold : written log u = Some v -> exists c0, In c0 (log ++ [c]) /\ callee c0 = u).
  { intros H'. destruct (IH H') as (c0 & H1 & H2). exists c0.
    split; auto. apply in_or_app. now left. }
  destruct (snd c); auto.
  destruct (Nat.eqb (callee c) u) eqn:E; auto.
  apply Nat.eqb_eq in E. exists c. split; auto. apply in_or_app. right. now left.
Qed.

Lemma run_inv_allow allowed allowed' done (fr : Pipeline.frame Val World) :
  incl allowed allowed' -> run_inv allowed done fr -> run_inv allowed' done fr.
Proof.
  intros Hsub [H1 H2 H3 H4]. constructor; auto.
  eapply Forall_impl; [|exact H2]. intros c Hc. now apply Hsub.
Qed.

Lemma run_inv_done allowed done t (fr : Pipeline.frame Val World) :
  run_inv allowed done fr -> Dict.get (Pipeline.completed fr) t <> None ->
  run_inv allowed (done ++ [t]) fr.
Proof.
  intros [H1 H2 H3 H4] Ht. constructor; auto.
  intros u Hu. apply in_app_or in Hu. destruct Hu as [Hu|[<-|[]]]; auto.
Qed.

Lemma invoke_inv allowed done t arg (fr fr' : Pipeline.frame Val World) r :
  run_inv allowed done fr -> In t allowed ->
  Pipeline.invoke work t arg fr = (r, fr') ->
  (r = Ok tt /\ run_inv allowed done fr'
   /\ Dict.get (Pipeline.completed fr') t <> None)
  \/ (exists e, r = Raise e /\ run_failed allowed done t arg e fr').
Proof.
  intros [H1 H2 H3 H4] Ht H.
  destruct (invoke_cases Val World work t arg fr)
    as [(v & w' & _ & E)|(e & w' & _ & E)];
    rewrite E in H; inversion H; subst; clear H.
  - left. split; auto. split.
    + constructor; simpl.
      * apply Forall_app. split; auto.
      * apply Forall_app. split; auto.
      * intros u Hu. destruct (Nat.eq_dec t u) as [->|Hne].
        -- now rewrite get_set_same.
        -- rewrite get_set_other by auto. auto.
      * intros u. rewrite written_app_last. simpl. unfold callee. simpl.
        destruct (Nat.eqb t u) eqn:Et.
        -- apply Nat.eqb_eq in Et. subst. apply get_set_same.
        -- apply Nat.eqb_neq in Et. rewrite get_set_other by auto. apply H4.
    + simpl. now rewrite get_set_same.
  - right. exists e. split; auto. exists (Pipeline.calls fr). simpl.
    repeat split; auto.
    intros u. rewrite written_app_last. simpl. apply H4.
Qed.

Lemma feed_inv allowed done t items : forall (fr fr' : Pipeline.frame Val World) r,
  run_inv allowed done fr -> In t allowed ->
  Pipeline.feed work items t fr = (r, fr') ->
  (run_inv allowed done fr' /\ (r = Ok tt \/ exists n, r = Raise (KeyError n)))
  \/ (exists x e, r = Raise e /\ run_failed allowed done t x e fr').
Proof.
  induction items as [|[node values] items IH]; intros fr fr' r Hinv Ht H;
    simpl in H.
  - inversion H; subst. auto.
  - destruct (mem t values); [|eauto].
    destruct (Dict.get (Pipeline.completed fr) node) as [x|].
    + destruct (Pipeline.invoke work t (Some x) fr) as [r1 fr1] eqn:E.
      destruct (invoke_inv allowed done t (Some x) fr fr1 r1 Hinv Ht E)
        as [(-> & Hinv1 & _)|(e & -> & Hf)].
      * eauto.
      * inversion H; subst. right. eauto.
    + inversion H; subst. left. eauto.
Qed.

Lemma exec_inv allowed done g t (fr fr' : Pipeline.frame Val World) r :
  run_inv allowed done fr -> In t allowed ->
  Pipeline.exec work g t fr = (r, fr') ->
  (r = Ok tt /\ run_inv allowed done fr'
   /\ Dict.get (Pipeline.completed fr') t <> None)
  \/ ((exists n, r = Raise (KeyError n)) /\ run_inv allowed done fr')
  \/ (exists x e, r = Raise e /\ run_failed allowed done t x e fr').
Proof.
  intros Hinv Ht H. unfold Pipeline.exec in H.
  destruct (Pipeline.feed work g t fr) as [r1 fr1] eqn:E.
  destruct (feed_inv allowed done t g fr fr1 r1 Hinv Ht E)
    as [(Hinv1 & [->|(n & ->)])|(x & e & -> & Hf)].
  - destruct (Dict.contains (Pipeline.completed fr1) t) eqn:C.
    + inversion H; subst. left. split; [reflexivity|]. split; [exact Hinv1|].
      unfold Dict.contains in C.
      destruct (Dict.get (Pipeline.completed fr') t); congruence.
    + destruct (invoke_inv allowed done t None fr1 fr' r Hinv1 Ht H)
        as [?|(e & -> & Hf)]; eauto 6.
  - inversion H; subst. right. left. eauto.
  - inversion H; subst. right. right. eauto.
Qed.

(** The loop runs the units in turn and stops at the first one that
    does not return. *)
Lemma run_loop_inv g rest : forall done (fr fr' : Pipeline.frame Val World) r,
  run_inv done done fr ->
  Pipeline.run_loop work g rest fr = (r, fr') ->
  (r = Ok tt /\ run_inv (done ++ rest) (done ++ rest) fr')
  \/ (exists d1 t d2 fr_t,
        rest = d1 ++ t :: d2
        /\ run_inv (done ++ d1) (done ++ d1) fr_t
        /\ Pipeline.exec work g t fr_t = (r, fr')
        /\ r <> Ok tt).
Proof.
  induction rest as [|t rest IH]; intros done fr fr' r Hinv H; simpl in H.
  - inversion H; subst. left. now rewrite app_nil_r.
  - destruct (Pipeline.exec work g t fr) as [r1 fr1] eqn:E.
    assert (Hinv0 : run_inv (done ++ [t]) done fr).
    { eapply run_inv_allow; [|exact Hinv]. intros u Hu. apply in_or_app. now left. }
    assert (Ht : In t (done ++ [t])) by (apply in_or_app; right; now left).
    assert (Hstop : r1 <> Ok tt -> (r1, fr1) = (r, fr') ->
                    exists d1 t0 d2 fr_t,
                      t :: rest = d1 ++ t0 :: d2
                      /\ run_inv (done ++ d1) (done ++ d1) fr_t
                      /\ Pipeline.exec work g t0 fr_t = (r, fr')
                      /\ r <> Ok tt).
    { intros Hne Heq. inversion Heq; subst. exists [], t, rest, fr.
      rewrite app_nil_r. auto. }
    destruct (exec_inv (done ++ [t]) done g t fr fr1 r1 Hinv0 Ht E)
      as [(-> & Hinv1 & Hent)|[((n & ->) & Hinv1)|(x & e & -> & Hf)]].
    + apply run_inv_done with (t := t) in Hinv1; auto.
      destruct (IH (done ++ [t]) fr1 fr' r Hinv1 H)
        as [(-> & Hend)|(d1 & t' & d2 & fr_t & -> & Hcase)].
      * left. split; auto. now rewrite <- app_assoc in Hend.
      * right. exists (t :: d1), t', d2, fr_t. split; [reflexivity|].
        rewrite <- !app_assoc in Hcase. exact Hcase.
    + right. apply Hstop; [discriminate | exact H].
    + right. apply Hstop; [discriminate | exact H].
Qed.

Lemma feed_no_holder items t : forall (fr : Pipeline.frame Val World),
  holders items t = [] -> Pipeline.feed work items t fr = (Ok tt, fr).
Proof.
  induction items as [|[node values] items IH]; intros fr H; [reflexivity|].
  unfold holders in *. simpl in *.
  destruct (mem t values); [discriminate | auto].
Qed.

(** Scanning a graph where at most one node holds [t] makes at most
    one call, and [t] has its entry when that call returns. *)
Lemma feed_single items t : forall (fr fr' : Pipeline.frame Val World) r,
  Pipeline.feed work items t fr = (r, fr') ->
  length (holders items t) <= 1 ->
  fr' = fr
  \/ (exists c, Pipeline.calls fr' = Pipeline.calls fr ++ [c]
                /\ (r = Ok tt -> Dict.get (Pipeline.completed fr') t <> None)).
Proof.
  induction items as [|[node values] items IH]; intros fr fr' r H Hlen;
    simpl in H.
  - inversion H. auto.
  - unfold holders in Hlen. simpl in Hlen.
    destruct (mem t values); [|eauto].
    simpl in Hlen.
    assert (Hnil : holders items t = []).
    { unfold holders. destruct (filter _ items); [reflexivity | simpl in Hlen; lia]. }
    destruct (Dict.get (Pipeline.completed fr) node) as [x|];
      [|inversion H; auto].
    destruct (invoke_cases Val World work t (Some x) fr)
      as [(v & w' & _ & E)|(e & w' & _ & E)]; rewrite E in H.
    + rewrite feed_no_holder in H by exact Hnil. inversion H; subst.
      right. eexists. split; [reflexivity|]. intros _. simpl.
      now rewrite get_set_same.
    + inversion H; subst. right. eexists. split; [reflexivity|]. discriminate.
Qed.

Lemma exec_single g t (fr fr' : Pipeline.frame Val World) r :
  Pipeline.exec work g t fr = (r, fr') ->
  length (holders g t) <= 1 ->
  fr' = fr \/ exists c, Pipeline.calls fr' = Pipeline.calls fr ++ [c].
Proof.
  unfold Pipeline.exec. intros H Hlen.
  destruct (Pipeline.feed work g t fr) as [r1 fr1] eqn:E.
  destruct (feed_single g t fr fr1 r1 E Hlen) as [->|(c & Hc & Hent)].
  - destruct r1 as [[]|e|]; try (inversion H; auto).
    destruct (Dict.contains (Pipeline.completed fr) t); [inversion H; auto|].
    destruct (invoke_cases Val World work t None fr)
      as [(v & w' & _ & E')|(e & w' & _ & E')]; rewrite E' in H;
      inversion H; subst; right; eexists; reflexivity.
  - right. exists c.
    destruct r1 as [[]|e|]; try (inversion H; subst; exact Hc).
    unfold Dict.contains in H.
    destruct (Dict.get (Pipeline.completed fr1) t) eqn:G.
    + inversion H; subst. exact Hc.
    + exfalso. now apply Hent.
Qed.

End RunLog.

Lemma holders_le_indegree g t :
  (Z.of_nat (length (holders g t)) <= indegree g t)%Z.
Proof.
  induction g as [|[u values] g IH].
  - unfold indegree. simpl. lia.
  - rewrite indegree_cons. unfold holders in *. simpl.
    pose proof (occurrences_nonneg t values) as Hnn.
    destruct (mem t values) eqn:M; [|lia].
    apply mem_iff, occurrences_pos_iff in M. cbn [length]. lia.
Qed.

Lemma last_call_unique (Val : Type) (pre : list (Pipeline.call Val)) c c' :
  Forall (fun c => returned c = true) pre ->
  returned c = false -> In c (pre ++ [c']) -> c = c'.
Proof.
  intros Hpre Hc Hin. apply in_app_or in Hin. destruct Hin as [Hin|[Hin|[]]]; auto.
  rewrite Forall_forall in Hpre. specialize (Hpre c Hin). congruence.
Qed.

Lemma written_no_call (Val : Type) (log : list (Pipeline.call Val)) u :
  (forall c, In c log -> callee c <> u) -> written log u = None.
Proof.
  intros H. destruct (written log u) as [v|] eqn:W; auto.
  apply written_callee in W. destruct W as (c & Hc & Heq).
  exfalso. exact (H c Hc Heq).
Qed.

(** C8: when a call of a unit of work raises during [run], [run]
    raises the same failure, that call is the last one made, the
    units scheduled after the failing one are not invoked and have no
    entry in the table, the units scheduled before it have theirs, no
    other node than these and the failing one has an entry, the table
    holds what the calls that returned wrote, and the failing unit has
    no entry when at most one edge points to it. *)
Theorem run_aborts_on_work_failure (Val World : Type)
        (work : Node -> option Val -> World -> (Val + exn) * World)
        (self self' : Pipeline.t) (w : World)
        (r : outcome (Dict.t Val)) (fr : Pipeline.frame Val World)
        (t : Node) (x : option Val) (e : exn) :
  wf (DAG.graph (Pipeline.tasks self)) ->
  Pipeline.run work self w = (r, fr, self') ->
  In (t, x, inr e) (Pipeline.calls fr) ->
  r = Raise e
  /\ exists before after pre,
       fst (DAG.sort (Pipeline.tasks self)) = Ok (before ++ t :: after)
       /\ Pipeline.calls fr = pre ++ [(t, x, inr e)]
       /\ Forall (fun c => returned c = true) pre
       /\ (forall u, In u after ->
             Dict.get (Pipeline.completed fr) u = None
             /\ forall c, In c (Pipeline.calls fr) -> callee c <> u)
       /\ (forall u, In u before -> Dict.get (Pipeline.completed fr) u <> None)
       /\ (forall u, Dict.get (Pipeline.completed fr) u <> None ->
                     In u (before ++ [t]))
       /\ (forall u, Dict.get (Pipeline.completed fr) u
                     = written (Pipeline.calls fr) u)
       /\ ((indegree (DAG.graph (Pipeline.tasks self)) t <= 1)%Z ->
           Dict.get (Pipeline.completed fr) t = None).
Proof.
  intros Hwf Hrun Hcall.
  destruct (sort_spec _ Hwf) as (out & deg' & Hs & Hinv).
  apply sorted_length in Hinv. destruct Hinv as [Hnd _].
  unfold Pipeline.run in Hrun. rewrite Hs in Hrun. simpl in Hrun.
  destruct (Pipeline.run_loop work _ out _) as [r0 fr1] eqn:E.
  assert (Hfr : fr = fr1 /\ forall e0, r0 = Raise e0 -> r = Raise e0).
  { destruct r0 as [[]|e0|]; inversion Hrun; subst; split; auto;
      intros e1 H1; inversion H1; auto. }
  destruct Hfr as [-> Hr]. clear Hrun.
  assert (Hinv0 : run_inv [] []
                    {| Pipeline.completed := @Dict.empty Val;
                       Pipeline.calls := []; Pipeline.world := w |}).
  { constructor; simpl; auto. }
  assert (Hquiet : forall A D, run_inv A D fr1 -> False).
  { intros A D [Hc _ _ _]. rewrite Forall_forall in Hc.
    specialize (Hc _ Hcall). discriminate. }
  destruct (run_loop_inv Val World work _ out [] _ fr1 r0 Hinv0 E)
    as [(_ & Hend)|(d1 & t' & d2 & fr_t & Hout & Hbefore & Hexec & Hne)];
    [exfalso; eapply Hquiet; eauto|].
  simpl in Hbefore.
  assert (Hinv1 : run_inv (d1 ++ [t']) d1 fr_t).
  { eapply run_inv_allow; [|exact Hbefore]. intros u Hu. apply in_or_app. now left. }
  assert (Ht' : In t' (d1 ++ [t'])) by (apply in_or_app; right; now left).
  destruct (exec_inv Val World work (d1 ++ [t']) d1 _ t' fr_t fr1 r0 Hinv1 Ht' Hexec)
    as [(-> & _)|[(_ & Hq)|(x' & e' & Hr0 & Hf)]];
    [congruence | exfalso; eapply Hquiet; eauto |].
  destruct Hf as (pre & Hlog & Hpre & Hcallee & Hdone & Htable).
  rewrite Hlog in Hcall.
  pose proof (last_call_unique Val pre (t, x, inr e) _ Hpre eq_refl Hcall)
    as Heq.
  inversion Heq; subst t' x' e'. clear Heq.
  split; [now apply Hr|].
  assert (Hcallees : forall c, In c (Pipeline.calls fr1) ->
                               In (callee c) (d1 ++ [t])).
  { intros c Hc. rewrite Hlog in Hc. apply in_app_or in Hc.
    destruct Hc as [Hc|[<-|[]]].
    - rewrite Forall_forall in Hcallee. auto.
    - apply in_or_app. right. now left. }
  assert (Hdom : forall u, Dict.get (Pipeline.completed fr1) u <> None ->
                           In u (d1 ++ [t])).
  { intros u Hu. rewrite Htable in Hu.
    destruct (written (Pipeline.calls fr1) u) as [v|] eqn:Wr; [|congruence].
    apply written_callee in Wr. destruct Wr as (c & Hc & <-). auto. }
  assert (Hafter : forall u, In u d2 -> ~ In u (d1 ++ [t])).
  { intros u Hu Hu'. subst out.
    change (d1 ++ t :: d2) with (d1 ++ [t] ++ d2) in Hnd.
    rewrite app_assoc in Hnd.
    exact (nodup_app_disjoint _ _ Hnd u Hu' Hu). }
  assert (Ht1 : ~ In t d1).
  { subst out. apply NoDup_remove_2 in Hnd. intros H. apply Hnd.
    apply in_or_app. now left. }
  exists d1, d2, pre. subst out. simpl.
  split; [now rewrite Hs|]. split; [exact Hlog|]. split; [exact Hpre|].
  split; [|split; [exact Hdone|split; [exact Hdom|split; [exact Htable|]]]].
  - intros u Hu. split.
    + destruct (Dict.get (Pipeline.completed fr1) u) eqn:G; auto.
      exfalso. apply (Hafter u); auto. apply Hdom. congruence.
    + intros c Hc Heq. apply (Hafter u); auto. rewrite <- Heq. auto.
  - intros Hdeg.
    assert (Hlen : length (holders (DAG.graph (Pipeline.tasks self)) t) <= 1).
    { pose proof (holders_le_indegree (DAG.graph (Pipeline.tasks self)) t). lia. }
    assert (Hpre_eq : pre = Pipeline.calls fr_t).
    { destruct (exec_single Val World work _ t fr_t fr1 _ Hexec Hlen)
        as [->|(c & Hc)].
      - exfalso. eapply Hquiet; eauto.
      - rewrite Hlog in Hc. apply app_inj_tail in Hc. tauto. }
    rewrite Htable, Hlog, written_app_last. simpl.
    apply written_no_call. intros c Hc Heq. apply Ht1.
    rewrite <- Heq. rewrite Hpre_eq in Hc.
    destruct Hbefore as [_ Hcal _ _]. rewrite Forall_forall in Hcal. auto.
Qed.

Lemma run_aborts_on_work_failure_witness :
  Raise (WorkFailure 7) = Raise (WorkFailure 7) :> outcome (Dict.t (list nat))
  /\ exists before after pre,
       fst (DAG.sort (Pipeline.tasks load_evens_total))
       = Ok (before ++ 2 :: after)
       /\ [(1, None, inl [1; 2; 3; 4]);
           (2, Some [1; 2; 3; 4], inr (WorkFailure 7))]
          = pre ++ [(2, Some [1; 2; 3; 4], inr (WorkFailure 7))]
       /\ Forall (fun c => returned c = true) pre
       /\ (forall u, In u after ->
             Dict.get [(1, [1; 2; 3; 4])] u = None
             /\ forall c,
                 In c [(1, None, inl [1; 2; 3; 4]);
                       (2, Some [1; 2; 3; 4], inr (WorkFailure 7))] ->
                 callee c <> u)
       /\ (forall u, In u before -> Dict.get [(1, [1; 2; 3; 4])] u <> None)
       /\ (forall u, Dict.get [(1, [1; 2; 3; 4])] u <> None ->
                     In u (before ++ [2]))
       /\ (forall u, Dict.get [(1, [1; 2; 3; 4])] u
                     = written
                         [(1, None, inl [1; 2; 3; 4]);
                          (2, Some [1; 2; 3; 4], inr (WorkFailure 7))] u)
       /\ ((indegree (DAG.graph (Pipeline.tasks load_evens_total)) 2%nat <= 1)%Z ->
           Dict.get [(1, [1; 2; 3; 4])] 2 = None).
Proof.
  eapply (run_aborts_on_work_failure (list nat) unit failing_work
            load_evens_total _ tt (Raise (WorkFailure 7))
            {| Pipeline.completed := [(1, [1; 2; 3; 4])];
               Pipeline.calls := [(1, None, inl [1; 2; 3; 4]);
                                  (2, Some [1; 2; 3; 4], inr (WorkFailure 7))];
               Pipeline.world := tt |}
            2 (Some [1; 2; 3; 4]) (WorkFailure 7)).
  - apply registered_wf.
  - vm_compute. reflexivity.
  - simpl. auto.
Defined.

(* ================================================================== *)
(** * Concrete runs *)

Lemma sort_topological_order_witness :
  exists order self',
    DAG.sort (Pipeline.tasks diamond) = (Ok order, self')
    /\ Permutation order (Dict.keys (DAG.graph (Pipeline.tasks diamond)))
    /\ forall u v, edge (DAG.graph (Pipeline.tasks diamond)) u v ->
                   precedes order u v.
Proof.
  apply (sort_topological_order (Pipeline.tasks diamond)).
  - apply registered_wf.
  - exact diamond_acyclic.
Defined.

Lemma two_loop_wf : wf (DAG.graph two_loop).
Proof.
  split.
  - simpl. repeat constructor; simpl; intuition lia.
  - intros u ps v Hin Hv. simpl in *.
    destruct Hin as [H|[H|[]]]; inversion H; subst; simpl in Hv; intuition.
Qed.

Lemma sort_short_on_cycle_witness :
  exists order self',
    DAG.sort two_loop = (Ok order, self')
    /\ length order < length (Dict.keys (DAG.graph two_loop)).
Proof.
  apply (sort_short_on_cycle two_loop).
  - exact two_loop_wf.
  - exact two_cycle.
Defined.

Example sort_diamond :
  fst (DAG.sort (Pipeline.tasks diamond)) = Ok [1; 2; 3; 4].
Proof. reflexivity. Qed.

Example sort_two_loop : fst (DAG.sort two_loop) = Ok [].
Proof. reflexivity. Qed.

Example sort_below_cycle :
  fst (DAG.sort (DAG.adds DAG.init [(1, Some 2); (2, Some 1); (3, Some 1); (4, None)]))
  = Ok [3; 4].
Proof. reflexivity. Qed.

Example in_degrees_diamond :
  DAG.degrees (DAG.in_degrees (Pipeline.tasks diamond))
  = [(1, 0%Z); (2, 1%Z); (3, 1%Z); (4, 2%Z)].
Proof. reflexivity. Qed.

(** In the diamond, [4] receives the output of [3], not that of [2]. *)
Example run_diamond :
  fst (fst (Pipeline.run (Pipeline.pure_work (World := unit) trail_work) diamond tt))
  = Ok [(1, [1]); (2, [1; 2]); (3, [1; 3]); (4, [1; 3; 4])].
Proof. reflexivity. Qed.

Example run_load_evens_total :
  fst (Pipeline.run failing_work load_evens_total tt)
  = (Raise (WorkFailure 7),
     {| Pipeline.completed := [(1, [1; 2; 3; 4])];
        Pipeline.calls := [(1, None, inl [1; 2; 3; 4]);
                           (2, Some [1; 2; 3; 4], inr (WorkFailure 7))];
        Pipeline.world := tt |}).
Proof. reflexivity. Qed.

(* ================================================================== *)
(** * Further properties of DAG.add *)

Lemma set_absent (V : Type) (d : Dict.t V) k v :
  Dict.get d k = None -> Dict.set d k v = d ++ [(k, v)].
Proof.
  induction d as [|[k' v'] d IH]; simpl; [reflexivity|].
  destruct (Nat.eqb k k'); [discriminate|].
  intros H. now rewrite IH.
Qed.

Lemma contains_false_get (V : Type) (d : Dict.t V) k :
  Dict.contains d k = false <-> Dict.get d k = None.
Proof.
  unfold Dict.contains. destruct (Dict.get d k); split; congruence.
Qed.

Lemma get_ensure g node u :
  Dict.get (DAG.ensure g node) u
  = match Dict.get g u with
    | Some l => Some l
    | None => if Nat.eqb u node then Some [] else None
    end.
Proof.
  unfold DAG.ensure. destruct (Dict.contains g node) eqn:C.
  - destruct (Dict.get g u) eqn:G; auto.
    destruct (Nat.eqb_spec u node) as [->|]; auto.
    unfold Dict.contains in C. rewrite G in C. discriminate.
  - apply contains_false_get in C.
    destruct (Nat.eqb_spec u node) as [->|Hne].
    + rewrite get_set_same, C. reflexivity.
    + rewrite get_set_other by auto. destruct (Dict.get g u); reflexivity.
Qed.

Lemma keys_ensure g node :
  Dict.keys (DAG.ensure g node)
  = Dict.keys g ++ (if Dict.contains g node then [] else [node]).
Proof.
  unfold DAG.ensure. destruct (Dict.contains g node) eqn:C.
  - now rewrite app_nil_r.
  - apply contains_false_get, get_none_iff in C. now apply keys_set_absent.
Qed.

(** X2: [add(node, to)] with a truthy [to] appends [to] to the
    successor list of [node] (a list that already holds [to] holds it
    once more), leaves every other successor list as it was, and
    appends to the keys, in this order, [node] and [to] when they are
    new.  With a falsy [to] the call does what [add(node)] does: it
    inserts no edge and no key for [to]. *)
Theorem add_edge_effect (self : DAG.t) (node to : Node) :
  if truth to then
    Dict.get (DAG.graph (snd (DAG.add self node (Some to)))) node
    = Some (successors (DAG.graph self) node ++ [to])
    /\ (forall u, u <> node ->
          Dict.get (DAG.graph (snd (DAG.add self node (Some to)))) u
          = match Dict.get (DAG.graph self) u with
            | Some l => Some l
            | None => if Nat.eqb u to then Some [] else None
            end)
    /\ Dict.keys (DAG.graph (snd (DAG.add self node (Some to))))
       = Dict.keys (DAG.graph self)
         ++ (if Dict.contains (DAG.graph self) node then [] else [node])
         ++ (if Dict.contains (DAG.graph self) to || Nat.eqb to node
             then [] else [to])
  else
    DAG.add self node (Some to) = DAG.add self node None.
Proof.
  destruct (truth to) eqn:T;
    [|unfold DAG.add; now rewrite (given_falsy to T)].
  rewrite add_graph, (given_truthy to T). unfold inserted, DAG.append_edge.
  set (g := DAG.graph self).
  set (g1 := DAG.ensure g node). set (g2 := DAG.ensure g1 to).
  assert (G1 : Dict.get g1 node = Some (successors g node)).
  { unfold g1. rewrite get_ensure, Nat.eqb_refl. unfold successors.
    destruct (Dict.get g node); reflexivity. }
  assert (G2 : Dict.get g2 node = Some (successors g node)).
  { unfold g2. now rewrite get_ensure, G1. }
  rewrite G2. split; [apply get_set_same|]. split.
  - intros u Hu. rewrite get_set_other by auto.
    unfold g2, g1. rewrite !get_ensure.
    apply Nat.eqb_neq in Hu. rewrite Hu.
    destruct (Dict.get g u); reflexivity.
  - rewrite keys_set_present
      by (apply get_some_iff; eauto).
    unfold g2. rewrite keys_ensure. unfold g1 at 1. rewrite keys_ensure.
    rewrite <- app_assoc. f_equal. f_equal.
    unfold Dict.contains, g1. rewrite get_ensure.
    destruct (Dict.get g to); simpl; [reflexivity|].
    destruct (Nat.eqb to node); reflexivity.
Qed.

(** X3: [add(node)] leaves a graph that has [node] as it is, and
    appends [node] with no successor to a graph that has not; a second
    [add(node)] changes nothing. *)
Theorem add_node_effect (self : DAG.t) (node : Node) :
  DAG.graph (snd (DAG.add self node None))
  = (if Dict.contains (DAG.graph self) node
     then DAG.graph self
     else DAG.graph self ++ [(node, [])])
  /\ DAG.graph (snd (DAG.add (snd (DAG.add self node None)) node None))
     = DAG.graph (snd (DAG.add self node None)).
Proof.
  rewrite !add_graph. unfold inserted. cbn [given]. split.
  - unfold DAG.ensure. destruct (Dict.contains _ node) eqn:C; auto.
    apply set_absent. now apply contains_false_get.
  - unfold DAG.ensure at 1.
    assert (H : Dict.contains (DAG.ensure (DAG.graph self) node) node = true)
      by (apply contains_iff, in_keys_ensure).
    now rewrite H.
Qed.

(* ================================================================== *)
(** * Further properties of DAG.sort *)

Lemma count_pointer_keys_app deg p :
  exists extra,
    Dict.keys (DAG.count_pointer deg p) = Dict.keys deg ++ extra
    /\ incl extra [p].
Proof.
  unfold DAG.count_pointer.
  destruct (Dict.get deg p) as [k|] eqn:G.
  - exists []. rewrite app_nil_r. split; [|intros x []].
    apply keys_set_present. apply get_some_iff. eauto.
  - exists [p]. split; [|apply incl_refl].
    apply keys_set_absent. now apply get_none_iff.
Qed.

Lemma count_pointers_keys_app pointers : forall deg,
  exists extra,
    Dict.keys (fold_left DAG.count_pointer pointers deg) = Dict.keys deg ++ extra
    /\ incl extra pointers.
Proof.
  induction pointers as [|p l IH]; intros deg; simpl.
  - exists []. rewrite app_nil_r. split; [reflexivity | intros x []].
  - destruct (count_pointer_keys_app deg p) as (e1 & H1 & I1).
    destruct (IH (DAG.count_pointer deg p)) as (e2 & H2 & I2).
    exists (e1 ++ e2). rewrite H2, H1, app_assoc. split; [reflexivity|].
    intros x Hx. apply in_app_or in Hx. destruct Hx as [Hx|Hx].
    + apply I1 in Hx. destruct Hx as [<-|[]]. now left.
    + right. now apply I2.
Qed.

Lemma count_node_keys_app deg node pointers :
  exists extra,
    Dict.keys (DAG.count_node deg (node, pointers))
    = Dict.keys deg ++ (if Dict.contains deg node then [] else [node]) ++ extra
    /\ incl extra pointers.
Proof.
  unfold DAG.count_node.
  destruct (count_pointers_keys_app pointers
              (if Dict.contains deg node then deg else Dict.set deg node 0%Z))
    as (extra & H & I).
  exists extra. split; [|exact I]. rewrite H.
  destruct (Dict.contains deg node) eqn:C; [reflexivity|].
  apply contains_false_get, get_none_iff in C.
  rewrite keys_set_absent by auto. now rewrite <- app_assoc.
Qed.

Lemma filter_none (P : Node -> bool) l :
  (forall x, In x l -> P x = false) -> filter P l = [].
Proof.
  induction l as [|x l IH]; intros H; simpl; [reflexivity|].
  rewrite (H x) by now left. apply IH. intros y Hy. apply H. now right.
Qed.

(** The nodes that no successor list holds come into [degrees] in the
    order of the keys of the graph. *)
Lemma count_nodes_roots (P : Node -> bool) g : forall deg,
  NoDup (Dict.keys g) ->
  (forall v u pointers, P v = true -> In (u, pointers) g -> ~ In v pointers) ->
  (forall v, P v = true -> In v (Dict.keys g) -> ~ In v (Dict.keys deg)) ->
  filter P (Dict.keys (fold_left DAG.count_node g deg))
  = filter P (Dict.keys deg) ++ filter P (Dict.keys g).
Proof.
  induction g as [|[node pointers] g IH]; intros deg Hnd Hptr Hnew.
  - simpl. now rewrite app_nil_r.
  - cbn [fold_left]. inversion Hnd as [|? ? Hnode Hnd']; subst.
    destruct (count_node_keys_app deg node pointers) as (extra & Hk & Hex).
    assert (Hextra : filter P extra = []).
    { apply filter_none. intros x Hx. destruct (P x) eqn:Px; auto.
      exfalso. apply (Hptr x node pointers Px); [now left | now apply Hex]. }
    rewrite IH; auto.
    + rewrite Hk, !filter_app, Hextra, app_nil_r, <- app_assoc. f_equal.
      simpl. destruct (P node) eqn:Pn.
      * assert (C : Dict.contains deg node = false).
        { destruct (Dict.contains deg node) eqn:C; auto.
          apply contains_iff in C. exfalso.
          apply (Hnew node Pn); [now left | exact C]. }
        rewrite C. simpl. now rewrite Pn.
      * destruct (Dict.contains deg node); simpl; [|rewrite Pn]; reflexivity.
    + intros v u ps Pv Hin. apply (Hptr v u ps Pv). now right.
    + intros v Pv Hv. rewrite Hk. intros Hin.
      apply in_app_or in Hin. destruct Hin as [Hin|Hin].
      * apply (Hnew v Pv); [now right | exact Hin].
      * apply in_app_or in Hin. destruct Hin as [Hin|Hin].
        -- destruct (Dict.contains deg node); [destruct Hin|].
           destruct Hin as [<-|[]]. apply Hnode. exact Hv.
        -- apply (Hptr v node pointers Pv); [now left | now apply Hex].
Qed.

Lemma seeds_in_key_order self :
  wf (DAG.graph self) ->
  DAG.seeds (DAG.degrees (DAG.in_degrees self))
  = filter (fun v => Z.eqb (indegree (DAG.graph self) v) 0)
           (Dict.keys (DAG.graph self)).
Proof.
  intros [Hnd Hcl]. unfold DAG.seeds.
  rewrite (filter_ext_in _ (fun v => Z.eqb (indegree (DAG.graph self) v) 0)).
  - simpl. rewrite count_nodes_roots; auto.
    + intros v u ps Pv Hin Hv. apply Z.eqb_eq in Pv.
      pose proof (pending_ge (DAG.graph self) [] u ps v Hin (fun H => H)) as Hge.
      rewrite pending_nil in Hge. apply occurrences_pos_iff in Hv. lia.
  - intros v Hv. apply in_degrees_keys in Hv; auto.
    now rewrite in_degrees_get.
Qed.

Lemma relax_appends pointers : forall deg d d2 deg',
  DAG.relax pointers deg d = (Ok d2, deg') -> exists fresh, d2 = d ++ fresh.
Proof.
  induction pointers as [|p l IH]; intros deg d d2 deg' H; simpl in H.
  - inversion H; subst. exists []. now rewrite app_nil_r.
  - destruct (Dict.get deg p) as [k|]; [|discriminate].
    apply IH in H. destruct H as (fresh & ->).
    destruct (Z.eqb (k - 1) 0).
    + exists ([p] ++ fresh). now rewrite app_assoc.
    + eauto.
Qed.

(** The loop returns what was searched, then what was queued, then
    what it queues later. *)
Lemma sort_loop_prefix g fuel : forall deg d searched out deg',
  DAG.sort_loop fuel g deg d searched = (Ok out, deg') ->
  exists rest, out = searched ++ d ++ rest.
Proof.
  induction fuel as [|fuel IH]; intros deg d searched out deg' H; simpl in H;
    [discriminate|].
  destruct d as [|x d].
  - inversion H; subst. exists []. now rewrite app_nil_r.
  - destruct (Dict.get g x) as [ps|]; [|discriminate].
    destruct (DAG.relax ps deg d) as [[d2|e|] deg1] eqn:R; try discriminate.
    apply relax_appends in R. destruct R as (fresh & ->).
    apply IH in H. destruct H as (rest & ->).
    exists (fresh ++ rest). rewrite <- !app_assoc. reflexivity.
Qed.

(** X4: [sort] lists first the nodes without predecessor, in the
    order in which they were inserted into the graph. *)
Theorem sort_roots_first (self : DAG.t) :
  wf (DAG.graph self) ->
  exists rest self',
    DAG.sort self
    = (Ok (filter (fun v => Z.eqb (indegree (DAG.graph self) v) 0)
                  (Dict.keys (DAG.graph self)) ++ rest), self').
Proof.
  intros Hwf. destruct (sort_spec self Hwf) as (out & deg' & Hs & _).
  pose proof Hs as Hs'. unfold DAG.sort in Hs'.
  destruct (DAG.sort_loop _ _ _ _ _) as [r deg1] eqn:L.
  inversion Hs'; subst r deg1.
  apply sort_loop_prefix in L. destruct L as (rest & ->).
  exists rest. eexists. rewrite Hs.
  rewrite (seeds_in_key_order self Hwf). reflexivity.
Qed.

Lemma sort_roots_first_witness :
  exists rest self',
    DAG.sort (Pipeline.tasks diamond)
    = (Ok (filter (fun v => Z.eqb (indegree (DAG.graph (Pipeline.tasks diamond)) v) 0)
                  (Dict.keys (DAG.graph (Pipeline.tasks diamond))) ++ rest), self').
Proof.
  apply (sort_roots_first (Pipeline.tasks diamond)). apply registered_wf.
Defined.

Lemma chain_back_to g (P : Node -> Prop) :
  (forall v, P v -> exists u, edge g u v /\ P u) ->
  forall n v, P v ->
  exists l, length l = n /\ chain g (l ++ [v]) /\ (forall u, In u l -> P u).
Proof.
  intros Hpred n v Hv. induction n as [|n (l & Hlen & Hch & Hall)].
  - exists []. repeat split; auto. intros u [].
  - assert (Hhead : exists h t, l ++ [v] = h :: t /\ P h).
    { destruct l as [|h t]; simpl.
      - exists v, []. auto.
      - exists h, (t ++ [v]). split; auto. apply Hall. now left. }
    destruct Hhead as (h & t & Heq & Hh).
    destruct (Hpred h Hh) as (u & He & Hu).
    exists (u :: l). split; [simpl; lia|]. split.
    + change ((u :: l) ++ [v]) with (u :: (l ++ [v])). rewrite Heq in *.
      split; auto.
    + intros w [<-|Hw]; auto.
Qed.

Lemma chain_ends g m a l3 v :
  a :: l3 = m ++ [v] -> chain g (a :: l3) -> a = v \/ path g a v.
Proof.
  intros Heq Hch. destruct m as [|x m]; simpl in Heq.
  - left. congruence.
  - right. inversion Heq; subst. now apply chain_path with (m := m).
Qed.

Lemma tail_of_snoc (X Y l : list Node) v :
  X ++ Y = l ++ [v] -> Y <> [] -> exists m, Y = m ++ [v].
Proof.
  intros Heq Hne. destruct (exists_last Hne) as (m & z & ->).
  exists m. rewrite app_assoc in Heq. apply app_inj_tail in Heq.
  destruct Heq as [_ ->]. reflexivity.
Qed.

(** In a set of nodes where each has a predecessor in the set, every
    node is on a cycle or reached from one. *)
Lemma pred_closed_tainted g (P : Node -> Prop) v :
  (forall v, P v -> In v (Dict.keys g)) ->
  (forall v, P v -> exists u, edge g u v /\ P u) ->
  P v -> tainted g v.
Proof.
  intros Hsub Hpred Hv.
  destruct (chain_back_to g P Hpred (length (Dict.keys g)) v Hv)
    as (l & Hlen & Hch & Hall).
  destruct (repeat_split (l ++ [v])) as [Hnd|(a & l1 & l2 & l3 & Heq)].
  - assert (length (l ++ [v]) <= length (Dict.keys g)).
    { apply NoDup_incl_length; auto. intros u Hu.
      apply in_app_or in Hu. destruct Hu as [Hu|[<-|[]]]; auto. }
    rewrite length_app in *. simpl in *. lia.
  - rewrite Heq in Hch. exists a. split.
    + apply chain_path with (m := l2). apply chain_app_r in Hch.
      change (a :: l2 ++ a :: l3) with ((a :: l2) ++ [a] ++ l3) in Hch.
      rewrite app_assoc in Hch. apply chain_app_l in Hch. exact Hch.
    + destruct (tail_of_snoc (l1 ++ a :: l2) (a :: l3) l v) as (m & Hm).
      * rewrite Heq, <- app_assoc. reflexivity.
      * discriminate.
      * apply (chain_ends g m a l3 v Hm).
        apply chain_app_r in Hch.
        change (a :: l2 ++ a :: l3) with ((a :: l2) ++ a :: l3) in Hch.
        now apply chain_app_r in Hch.
Qed.

(** X5: on every well-formed graph, with or without cycle, [sort]
    returns exactly the nodes that are neither on a directed cycle
    nor reachable from one. *)
Theorem sort_skips_cycles_and_below (self : DAG.t) :
  wf (DAG.graph self) ->
  exists order self',
    DAG.sort self = (Ok order, self')
    /\ forall v, In v order
                 <-> In v (Dict.keys (DAG.graph self))
                     /\ ~ tainted (DAG.graph self) v.
Proof.
  intros Hwf. destruct (sort_spec self Hwf) as (out & deg' & Hs & Hinv).
  exists out. eexists. split; [exact Hs|].
  assert (Hcyc : forall c, path (DAG.graph self) c c -> ~ In c out).
  { intros c Hp Hc. apply (precedes_irrefl out c).
    eapply path_precedes; eauto. }
  intros v. split.
  - intros Hv. split.
    + apply (inv_incl _ _ _ _ Hinv). now rewrite app_nil_r.
    + intros (c & Hp & [->|Hcv]); [exact (Hcyc v Hp Hv)|].
      apply (Hcyc c Hp). eapply precedes_in_l.
      eapply path_precedes; eauto.
  - intros [Hk Hnt].
    destruct (in_dec Nat.eq_dec v out) as [H|H]; auto. exfalso. apply Hnt.
    apply (pred_closed_tainted (DAG.graph self)
             (fun v => In v (Dict.keys (DAG.graph self)) /\ ~ In v out)); auto.
    + tauto.
    + intros w [Hw Hnw].
      assert (Hpos : (0 < pending (DAG.graph self) out w)%Z).
      { pose proof (pending_nonneg (DAG.graph self) out w).
        destruct (Z.eq_dec (pending (DAG.graph self) out w) 0) as [Hz|Hz]; [|lia].
        exfalso. apply Hnw. apply (inv_ready _ _ _ _ Hinv) in Hz; auto.
        now rewrite app_nil_r in Hz. }
      destruct Hwf as [Hnd _].
      destruct (pending_pos_pred _ out w Hnd Hpos) as (u & He & Hu).
      exists u. repeat split; auto. eapply edge_source; eauto.
Qed.

Lemma sort_skips_cycles_and_below_witness :
  exists order self',
    DAG.sort two_loop = (Ok order, self')
    /\ forall v, In v order
                 <-> In v (Dict.keys (DAG.graph two_loop))
                     /\ ~ tainted (DAG.graph two_loop) v.
Proof.
  apply (sort_skips_cycles_and_below two_loop). exact two_loop_wf.
Defined.

(** [sort] reads nothing but the graph: the order it returns, and
    the degrees it leaves, are those of the first call again when it
    is called on the object that a call left. *)
Theorem sort_repeatable (self : DAG.t) :
  DAG.sort (snd (DAG.sort self)) = DAG.sort self.
Proof. apply sort_same_graph. apply sort_graph. Qed.

(** X6: [sort] leaves in [degrees], for each node, the number of its
    incoming edges that leave a node it did not return: zero for the
    nodes it returned (so for all nodes of a graph without cycle),
    and not the in-degree that [in_degrees] computes. *)
Theorem sort_leaves_residual_degrees (self : DAG.t) :
  wf (DAG.graph self) ->
  exists order self',
    DAG.sort self = (Ok order, self')
    /\ forall v, In v (Dict.keys (DAG.graph self)) ->
         Dict.get (DAG.degrees self') v = Some (pending (DAG.graph self) order v)
         /\ (In v order <-> Dict.get (DAG.degrees self') v = Some 0%Z).
Proof.
  intros Hwf. destruct (sort_spec self Hwf) as (out & deg' & Hs & Hinv).
  exists out. eexists. split; [exact Hs|]. simpl. intros v Hv.
  assert (Hget : Dict.get deg' v = Some (pending (DAG.graph self) out v)).
  { rewrite get_deg_of by (apply (inv_keys _ _ _ _ Hinv); auto).
    now rewrite (inv_deg _ _ _ _ Hinv). }
  split; [exact Hget|]. rewrite Hget.
  pose proof (inv_ready _ _ _ _ Hinv v Hv) as Hr. rewrite app_nil_r in Hr.
  rewrite Hr. split; intros H; congruence.
Qed.

Lemma sort_leaves_residual_degrees_witness :
  exists order self',
    DAG.sort (Pipeline.tasks diamond) = (Ok order, self')
    /\ forall v, In v (Dict.keys (DAG.graph (Pipeline.tasks diamond))) ->
         Dict.get (DAG.degrees self') v
         = Some (pending (DAG.graph (Pipeline.tasks diamond)) order v)
         /\ (In v order <-> Dict.get (DAG.degrees self') v = Some 0%Z).
Proof.
  apply (sort_leaves_residual_degrees (Pipeline.tasks diamond)).
  apply registered_wf.
Defined.

(* ================================================================== *)
(** * Further properties of DAG.add and Pipeline.task *)

(** X1: a call of [add] on a graph built by [add] calls returns
    without raising, and leaves a graph in which every key occurs
    once and both ends of every edge are keys. *)
Theorem add_keeps_endpoints_present (ops : list (Node * option Node))
        (node : Node) (to : option Node) :
  exists self',
    DAG.add (DAG.adds DAG.init ops) node to = (Ok tt, self')
    /\ NoDup (Dict.keys (DAG.graph self'))
    /\ forall u v, edge (DAG.graph self') u v ->
                   In u (Dict.keys (DAG.graph self'))
                   /\ In v (Dict.keys (DAG.graph self')).
Proof.
  destruct (add_ok (DAG.adds DAG.init ops) node to (built_wf ops))
    as (self' & H & [Hnd Hcl]).
  exists self'. split; [exact H|]. split; [exact Hnd|].
  intros u v He. split; [eapply edge_source | eapply edge_target]; eauto.
Qed.

Lemma set_last (V : Type) (d : Dict.t V) k v v' :
  Dict.get d k = None -> Dict.set (d ++ [(k, v)]) k v' = d ++ [(k, v')].
Proof.
  induction d as [|[k0 v0] d IH]; simpl.
  - now rewrite Nat.eqb_refl.
  - destruct (Nat.eqb k k0); [discriminate|]. intros H. now rewrite IH.
Qed.

(** X12: registering again, without [depends_on], a function that is
    a node of the graph leaves the graph as it is: its edges are
    neither removed nor repeated. *)
Theorem task_again_keeps_graph (self : Pipeline.t) (f : Node) :
  In f (Dict.keys (DAG.graph (Pipeline.tasks self))) ->
  DAG.graph (Pipeline.tasks (snd (Pipeline.task self None f)))
  = DAG.graph (Pipeline.tasks self).
Proof.
  intros Hf. unfold Pipeline.task.
  pose proof (add_graph (Pipeline.tasks self) f None) as G.
  destruct (DAG.add (Pipeline.tasks self) f None) as [[[]|e|] dag1];
    simpl in *; rewrite G; unfold DAG.ensure;
    apply contains_iff in Hf; now rewrite Hf.
Qed.

Lemma task_again_keeps_graph_witness :
  DAG.graph (Pipeline.tasks (snd (Pipeline.task diamond None 4)))
  = DAG.graph (Pipeline.tasks diamond).
Proof.
  apply (task_again_keeps_graph diamond 4). vm_compute. tauto.
Defined.

(** X13: registering [f] with a [depends_on] that is no node of the
    graph is accepted: the call returns [f], and the graph gains
    first [f], then the predecessor with [f] as its only successor.
    This is what happens with function objects, which are truthy: a
    falsy [depends_on] is skipped and the graph gains [f] only, and a
    falsy [f] gets no edge from its predecessor. *)
Theorem task_accepts_unregistered_predecessor (self : Pipeline.t) (f dep : Node) :
  wf (DAG.graph (Pipeline.tasks self)) ->
  ~ In f (Dict.keys (DAG.graph (Pipeline.tasks self))) ->
  ~ In dep (Dict.keys (DAG.graph (Pipeline.tasks self))) ->
  f <> dep ->
  exists self',
    Pipeline.task self (Some dep) f = (Ok f, self')
    /\ DAG.graph (Pipeline.tasks self')
       = DAG.graph (Pipeline.tasks self)
         ++ (if truth dep
             then [(f, []); (dep, if truth f then [f] else [])]
             else [(f, [])]).
Proof.
  intros Hwf Hf Hdep Hne.
  destruct (task_ok self (Some dep) f Hwf) as (self' & Ht & _ & G).
  exists self'. split; [exact Ht|]. rewrite G. clear G Ht.
  set (g := DAG.graph (Pipeline.tasks self)) in *.
  apply get_none_iff in Hf, Hdep.
  assert (E1 : DAG.ensure g f = g ++ [(f, [])]).
  { unfold DAG.ensure. apply contains_false_get in Hf as C. rewrite C.
    now apply set_absent. }
  cbn [given]. destruct (truth dep); [|exact E1].
  unfold inserted at 2. rewrite E1.
  assert (Gd : Dict.get (g ++ [(f, [])]) dep = None).
  { rewrite <- E1, get_ensure, Hdep.
    destruct (Nat.eqb_spec dep f); congruence. }
  assert (E2 : DAG.ensure (g ++ [(f, [])]) dep = (g ++ [(f, [])]) ++ [(dep, [])]).
  { unfold DAG.ensure. apply contains_false_get in Gd as C. rewrite C.
    now apply set_absent. }
  unfold inserted. rewrite E2.
  destruct (truth f); [|now rewrite <- app_assoc].
  assert (E3 : DAG.ensure ((g ++ [(f, [])]) ++ [(dep, [])]) f
               = (g ++ [(f, [])]) ++ [(dep, [])]).
  { unfold DAG.ensure.
    assert (C : Dict.contains ((g ++ [(f, [])]) ++ [(dep, [])]) f = true).
    { apply contains_iff. unfold Dict.keys. rewrite !map_app, !in_app_iff.
      simpl. tauto. }
    now rewrite C. }
  rewrite E3. unfold DAG.append_edge.
  assert (G3 : Dict.get ((g ++ [(f, [])]) ++ [(dep, [])]) dep = Some []).
  { rewrite <- E2, get_ensure, Gd, Nat.eqb_refl. reflexivity. }
  rewrite G3. simpl.
  rewrite (set_last _ (g ++ [(f, [])]) dep [] [f] Gd).
  now rewrite <- app_assoc.
Qed.

Lemma task_accepts_unregistered_predecessor_witness :
  exists self',
    Pipeline.task Pipeline.init (Some 1) 2 = (Ok 2, self')
    /\ DAG.graph (Pipeline.tasks self')
       = DAG.graph (Pipeline.tasks Pipeline.init) ++ [(2, []); (1, [2])].
Proof.
  apply (task_accepts_unregistered_predecessor Pipeline.init 2 1).
  - exact wf_empty.
  - simpl. tauto.
  - simpl. tauto.
  - discriminate.
Defined.

(* ================================================================== *)
(** * Further properties of Pipeline.run *)

Lemma grows_refl t k : grows t k k.
Proof. now left. Qed.

Lemma grows_trans t k k1 k2 : grows t k k1 -> grows t k1 k2 -> grows t k k2.
Proof.
  intros [->|[H1 ->]] [->|[H2 ->]]; try (now left); try (right; now auto).
  exfalso. apply H2. apply in_or_app. right. now left.
Qed.

Lemma last_pred_none items t : last_pred items t = None <-> holders items t = [].
Proof.
  unfold holders. induction items as [|[node values] items IH]; simpl; [tauto|].
  destruct (last_pred items t) as [p|].
  - split; [discriminate|]. destruct (mem t values); [discriminate|].
    intros H. apply IH in H. discriminate.
  - destruct (mem t values); [split; discriminate|]. tauto.
Qed.

Section RunMore.

Variables (Val World : Type).
Variable work : Node -> option Val -> World -> (Val + exn) * World.

Lemma invoke_genuine t arg (fr fr' : Pipeline.frame Val World) r :
  Pipeline.invoke work t arg fr = (r, fr') ->
  Forall (genuine work) (Pipeline.calls fr) ->
  Forall (genuine work) (Pipeline.calls fr').
Proof.
  intros H Hg.
  destruct (invoke_cases Val World work t arg fr)
    as [(v & w' & Hw & E)|(e & w' & Hw & E)];
    rewrite E in H; inversion H; subst; simpl;
    apply Forall_app; (split; [exact Hg|]);
    constructor; [|constructor| |constructor];
    exists (Pipeline.world fr), w'; exact Hw.
Qed.

Lemma feed_genuine items t : forall (fr fr' : Pipeline.frame Val World) r,
  Pipeline.feed work items t fr = (r, fr') ->
  Forall (genuine work) (Pipeline.calls fr) ->
  Forall (genuine work) (Pipeline.calls fr').
Proof.
  induction items as [|[node values] items IH]; intros fr fr' r H Hg; simpl in H.
  - now inversion H; subst.
  - destruct (mem t values); [|eauto].
    destruct (Dict.get (Pipeline.completed fr) node) as [x|];
      [|now inversion H; subst].
    destruct (Pipeline.invoke work t (Some x) fr) as [r1 fr1] eqn:E.
    pose proof (invoke_genuine _ _ _ _ _ E Hg) as Hg1.
    destruct r1 as [[]|e|]; try solve [inversion H; subst; auto]. eauto.
Qed.

Lemma exec_genuine g t (fr fr' : Pipeline.frame Val World) r :
  Pipeline.exec work g t fr = (r, fr') ->
  Forall (genuine work) (Pipeline.calls fr) ->
  Forall (genuine work) (Pipeline.calls fr').
Proof.
  unfold Pipeline.exec. intros H Hg.
  destruct (Pipeline.feed work g t fr) as [r1 fr1] eqn:E.
  pose proof (feed_genuine _ _ _ _ _ E Hg) as Hg1.
  destruct r1 as [[]|e|]; try solve [inversion H; subst; auto].
  destruct (Dict.contains (Pipeline.completed fr1) t);
    [inversion H; subst; auto|].
  eapply invoke_genuine; eauto.
Qed.

Lemma run_loop_genuine g rest : forall (fr fr' : Pipeline.frame Val World) r,
  Pipeline.run_loop work g rest fr = (r, fr') ->
  Forall (genuine work) (Pipeline.calls fr) ->
  Forall (genuine work) (Pipeline.calls fr').
Proof.
  induction rest as [|t rest IH]; intros fr fr' r H Hg; simpl in H.
  - now inversion H; subst.
  - destruct (Pipeline.exec work g t fr) as [r1 fr1] eqn:E.
    pose proof (exec_genuine _ _ _ _ _ E Hg) as Hg1.
    destruct r1 as [[]|e|]; try solve [inversion H; subst; auto]. eauto.
Qed.

(** A scan that finds the entry of every holder of [t] returns, or
    stops at a call of [t] that raised. *)
Lemma feed_progress items t : forall (fr fr' : Pipeline.frame Val World) r,
  Pipeline.feed work items t fr = (r, fr') ->
  (forall node values, In (node, values) items -> mem t values = true ->
                       Dict.get (Pipeline.completed fr) node <> None) ->
  r = Ok tt
  \/ exists x e pre, r = Raise e /\ Pipeline.calls fr' = pre ++ [(t, x, inr e)].
Proof.
  induction items as [|[node values] items IH]; intros fr fr' r H Hav;
    simpl in H.
  - inversion H. now left.
  - destruct (mem t values) eqn:M.
    + destruct (Dict.get (Pipeline.completed fr) node) as [x|] eqn:G.
      * destruct (invoke_cases Val World work t (Some x) fr)
          as [(v & w' & _ & E)|(e & w' & _ & E)]; rewrite E in H.
        -- apply (IH _ _ _ H). simpl. intros n vs Hin Hm.
           destruct (Nat.eq_dec t n) as [->|Hne].
           ++ now rewrite get_set_same.
           ++ rewrite get_set_other by auto. apply (Hav n vs); auto.
              now right.
        -- inversion H; subst. right. simpl. eauto.
      * exfalso. apply (Hav node values); auto. now left.
    + apply (IH _ _ _ H). intros n vs Hin. apply Hav. now right.
Qed.

Lemma exec_progress g t (fr fr' : Pipeline.frame Val World) r :
  Pipeline.exec work g t fr = (r, fr') ->
  (forall node values, In (node, values) g -> mem t values = true ->
                       Dict.get (Pipeline.completed fr) node <> None) ->
  r = Ok tt
  \/ exists x e pre, r = Raise e /\ Pipeline.calls fr' = pre ++ [(t, x, inr e)].
Proof.
  unfold Pipeline.exec. intros H Hav.
  destruct (Pipeline.feed work g t fr) as [r1 fr1] eqn:E.
  destruct (feed_progress _ _ _ _ _ E Hav) as [->|(x & e & pre & -> & Hlog)].
  - destruct (Dict.contains (Pipeline.completed fr1) t);
      [inversion H; now left|].
    destruct (invoke_cases Val World work t None fr1)
      as [(v & w' & _ & E')|(e & w' & _ & E')]; rewrite E' in H;
      inversion H; subst; [now left|]. right. simpl. eauto.
  - inversion H; subst. right. eauto.
Qed.

(** The loop over the schedule of [sort] returns when no unit of work
    raises: the entry of every holder is there when the scan reads
    it. *)
Lemma run_loop_total g deg' out (w : World) r0 (fr : Pipeline.frame Val World) :
  (forall n x w0, exists v w', work n x w0 = (inl v, w')) ->
  wf g -> kahn_inv g deg' [] out ->
  Pipeline.run_loop work g out
    {| Pipeline.completed := Dict.empty; Pipeline.calls := [];
       Pipeline.world := w |} = (r0, fr) ->
  r0 = Ok tt.
Proof.
  intros Htotal Hwf Hinv E.
  assert (Hinv0 : run_inv [] []
                    {| Pipeline.completed := @Dict.empty Val;
                       Pipeline.calls := []; Pipeline.world := w |}).
  { constructor; simpl; auto. }
  assert (Hgen : Forall (genuine work) (Pipeline.calls fr)).
  { eapply run_loop_genuine; [exact E|]. constructor. }
  destruct (run_loop_inv Val World work _ out [] _ fr r0 Hinv0 E)
    as [(-> & _)|(d1 & t & d2 & fr_t & Hout & Hbefore & Hexec & Hne)];
    [reflexivity|].
  exfalso. simpl in Hbefore.
  pose proof (sorted_length _ _ _ Hinv) as [Hnd _].
  destruct (exec_progress _ t fr_t fr r0 Hexec)
    as [->|(x & e & pre & -> & Hlog)]; [|congruence|].
  - intros node values Hin Hm. apply (ri_done _ _ _ Hbefore).
    subst out. apply (precedes_split d1 t d2); auto.
    apply (inv_order _ _ _ _ Hinv); [|apply in_or_app; right; now left].
    apply (edge_intro _ node values); [|now apply mem_iff].
    apply in_get; auto. apply Hwf.
  - rewrite Hlog in Hgen. apply Forall_app in Hgen.
    destruct Hgen as [_ Hlast].
    inversion Hlast as [|? ? (w1 & w2 & Hw) _]; subst.
    unfold callee in Hw. simpl in Hw.
    destruct (Htotal t x w1) as (v & w' & Hv). congruence.
Qed.

Lemma invoke_keys t arg (fr fr' : Pipeline.frame Val World) r :
  Pipeline.invoke work t arg fr = (r, fr') ->
  grows t (Dict.keys (Pipeline.completed fr)) (Dict.keys (Pipeline.completed fr'))
  /\ (r = Ok tt -> In t (Dict.keys (Pipeline.completed fr'))).
Proof.
  intros H.
  destruct (invoke_cases Val World work t arg fr)
    as [(v & w' & _ & E)|(e & w' & _ & E)];
    rewrite E in H; inversion H; subst; simpl.
  - split; [|intros _; apply in_keys_set; now right].
    destruct (in_dec Nat.eq_dec t (Dict.keys (Pipeline.completed fr))) as [Hin|Hin].
    + left. now apply keys_set_present.
    + right. split; auto. now apply keys_set_absent.
  - split; [apply grows_refl | discriminate].
Qed.

Lemma feed_keys items t : forall (fr fr' : Pipeline.frame Val World) r,
  Pipeline.feed work items t fr = (r, fr') ->
  grows t (Dict.keys (Pipeline.completed fr)) (Dict.keys (Pipeline.completed fr')).
Proof.
  induction items as [|[node values] items IH]; intros fr fr' r H; simpl in H.
  - inversion H; subst. apply grows_refl.
  - destruct (mem t values); [|eauto].
    destruct (Dict.get (Pipeline.completed fr) node) as [x|];
      [|inversion H; subst; apply grows_refl].
    destruct (Pipeline.invoke work t (Some x) fr) as [r1 fr1] eqn:E.
    apply invoke_keys in E. destruct E as [E _].
    destruct r1 as [[]|e|]; try solve [inversion H; subst; auto].
    eapply grows_trans; eauto.
Qed.

Lemma exec_keys g t (fr fr' : Pipeline.frame Val World) :
  Pipeline.exec work g t fr = (Ok tt, fr') ->
  ~ In t (Dict.keys (Pipeline.completed fr)) ->
  Dict.keys (Pipeline.completed fr') = Dict.keys (Pipeline.completed fr) ++ [t].
Proof.
  unfold Pipeline.exec. intros H Ht.
  destruct (Pipeline.feed work g t fr) as [r1 fr1] eqn:E.
  apply feed_keys in E.
  assert (Hg : grows t (Dict.keys (Pipeline.completed fr))
                     (Dict.keys (Pipeline.completed fr'))
               /\ In t (Dict.keys (Pipeline.completed fr'))).
  { destruct r1 as [[]|e|]; try discriminate.
    destruct (Dict.contains (Pipeline.completed fr1) t) eqn:C.
    - inversion H; subst. split; auto. now apply contains_iff.
    - apply invoke_keys in H. destruct H as [H1 H2]. split; auto.
      eapply grows_trans; eauto. }
  destruct Hg as [[Hk|[_ Hk]] Hin]; [|exact Hk].
  rewrite Hk in Hin. contradiction.
Qed.

Lemma run_loop_keys g rest : forall (fr fr' : Pipeline.frame Val World),
  Pipeline.run_loop work g rest fr = (Ok tt, fr') ->
  NoDup (Dict.keys (Pipeline.completed fr) ++ rest) ->
  Dict.keys (Pipeline.completed fr') = Dict.keys (Pipeline.completed fr) ++ rest.
Proof.
  induction rest as [|t rest IH]; intros fr fr' H Hnd; simpl in H.
  - inversion H; subst. now rewrite app_nil_r.
  - destruct (Pipeline.exec work g t fr) as [[[]|e|] fr1] eqn:E;
      try discriminate.
    apply exec_keys in E.
    + rewrite (IH _ _ H); rewrite E, <- app_assoc; [reflexivity | exact Hnd].
    + apply NoDup_remove_2 in Hnd. intros Hin. apply Hnd.
      apply in_or_app. now left.
Qed.

End RunMore.

Lemma run_same_graph (Val World : Type)
      (work : Node -> option Val -> World -> (Val + exn) * World)
      (p1 p2 : Pipeline.t) (w : World) :
  DAG.graph (Pipeline.tasks p1) = DAG.graph (Pipeline.tasks p2) ->
  Pipeline.run work p1 w = Pipeline.run work p2 w.
Proof.
  intros H. unfold Pipeline.run.
  now rewrite (sort_same_graph (Pipeline.tasks p1) (Pipeline.tasks p2) H).
Qed.

Lemma run_graph (Val World : Type)
      (work : Node -> option Val -> World -> (Val + exn) * World)
      (self : Pipeline.t) (w : World) :
  DAG.graph (Pipeline.tasks (snd (Pipeline.run work self w)))
  = DAG.graph (Pipeline.tasks self).
Proof.
  unfold Pipeline.run. pose proof (sort_graph (Pipeline.tasks self)) as H.
  destruct (DAG.sort (Pipeline.tasks self)) as [[sched|e|] dag']; simpl in *; auto.
  destruct (Pipeline.run_loop work (DAG.graph dag') sched _) as [[[]|e|] fr];
    simpl; auto.
Qed.

(** X14: a run leaves nothing behind that a later run reads: on the
    pipeline that a call of [run] left, [run] does what it does on the
    pipeline before that call, started in the same world. *)
Theorem run_repeatable (Val World : Type)
        (work : Node -> option Val -> World -> (Val + exn) * World)
        (self : Pipeline.t) (w0 w : World) :
  Pipeline.run work (snd (Pipeline.run work self w0)) w
  = Pipeline.run work self w.
Proof. apply run_same_graph. apply run_graph. Qed.

(** What [run] does on a well-formed graph: the loop over the
    schedule that [sort] returns, from the empty table. *)
Lemma run_unfold (Val World : Type)
      (work : Node -> option Val -> World -> (Val + exn) * World)
      (self self' : Pipeline.t) (w : World)
      (r : outcome (Dict.t Val)) (fr : Pipeline.frame Val World) :
  wf (DAG.graph (Pipeline.tasks self)) ->
  Pipeline.run work self w = (r, fr, self') ->
  exists out deg' r0,
    DAG.sort (Pipeline.tasks self)
    = (Ok out, {| DAG.graph := DAG.graph (Pipeline.tasks self);
                  DAG.degrees := deg' |})
    /\ kahn_inv (DAG.graph (Pipeline.tasks self)) deg' [] out
    /\ Pipeline.run_loop work (DAG.graph (Pipeline.tasks self)) out
         {| Pipeline.completed := Dict.empty; Pipeline.calls := [];
            Pipeline.world := w |}
       = (r0, fr)
    /\ r = match r0 with
           | Ok _ => Ok (Pipeline.completed fr)
           | Raise e => Raise e
           | OutOfFuel => OutOfFuel
           end.
Proof.
  intros Hwf Hrun.
  destruct (sort_spec _ Hwf) as (out & deg' & Hs & Hinv).
  unfold Pipeline.run in Hrun. rewrite Hs in Hrun. simpl in Hrun.
  destruct (Pipeline.run_loop work _ out _) as [r0 fr1] eqn:E.
  exists out, deg', r0. split; [exact Hs|]. split; [exact Hinv|].
  destruct r0 as [[]|e|]; inversion Hrun; subst; auto.
Qed.

(** X7: on a well-formed graph [run] raises nothing of its own: it
    returns its table after calls that all returned, or it raises the
    failure that the last call it made raised.  In particular the
    entry of a predecessor is in the table whenever [run] reads it. *)
Theorem run_raises_only_work_failures (Val World : Type)
        (work : Node -> option Val -> World -> (Val + exn) * World)
        (self self' : Pipeline.t) (w : World)
        (r : outcome (Dict.t Val)) (fr : Pipeline.frame Val World) :
  wf (DAG.graph (Pipeline.tasks self)) ->
  Pipeline.run work self w = (r, fr, self') ->
  (r = Ok (Pipeline.completed fr)
   /\ Forall (fun c => returned c = true) (Pipeline.calls fr))
  \/ (exists t x e pre w1 w2,
        r = Raise e
        /\ Pipeline.calls fr = pre ++ [(t, x, inr e)]
        /\ work t x w1 = (inr e, w2)).
Proof.
  intros Hwf Hrun.
  destruct (run_unfold _ _ _ _ _ _ _ _ Hwf Hrun)
    as (out & deg' & r0 & Hs & Hinv & E & ->).
  assert (Hinv0 : run_inv [] []
                    {| Pipeline.completed := @Dict.empty Val;
                       Pipeline.calls := []; Pipeline.world := w |}).
  { constructor; simpl; auto. }
  assert (Hgen : Forall (genuine work) (Pipeline.calls fr)).
  { eapply run_loop_genuine; [exact E|]. constructor. }
  destruct (run_loop_inv Val World work _ out [] _ fr r0 Hinv0 E)
    as [(-> & Hend)|(d1 & t & d2 & fr_t & Hout & Hbefore & Hexec & Hne)].
  - left. split; [reflexivity|]. apply Hend.
  - right. simpl in Hbefore.
    pose proof (sorted_length _ _ _ Hinv) as [Hnd _].
    destruct (exec_progress Val World work _ t fr_t fr r0 Hexec)
      as [->|(x & e & pre & -> & Hlog)]; [|congruence|].
    + intros node values Hin Hm. apply (ri_done _ _ _ Hbefore).
      subst out. apply (precedes_split d1 t d2); auto.
      apply (inv_order _ _ _ _ Hinv); [|apply in_or_app; right; now left].
      apply (edge_intro _ node values); [|now apply mem_iff].
      apply in_get; auto. apply Hwf.
    + rewrite Hlog in Hgen. apply Forall_app in Hgen.
      destruct Hgen as [_ Hlast]. inversion Hlast as [|? ? (w1 & w2 & Hw) _]; subst.
      exists t, x, e, pre, w1, w2. auto.
Qed.

Lemma run_raises_only_work_failures_witness :
  (Raise (WorkFailure 7) = Ok [(1, [1; 2; 3; 4])]
   /\ Forall (fun c => returned c = true)
             [(1, None, inl [1; 2; 3; 4]);
              (2, Some [1; 2; 3; 4], inr (WorkFailure 7))])
  \/ (exists t x e pre w1 w2,
        Raise (WorkFailure 7) = Raise e :> outcome (Dict.t (list nat))
        /\ [(1, None, inl [1; 2; 3; 4]);
            (2, Some [1; 2; 3; 4], inr (WorkFailure 7))]
           = pre ++ [(t, x, inr e)]
        /\ failing_work t x w1 = (inr e, w2)).
Proof.
  eapply (run_raises_only_work_failures (list nat) unit failing_work
            load_evens_total _ tt (Raise (WorkFailure 7))
            {| Pipeline.completed := [(1, [1; 2; 3; 4])];
               Pipeline.calls := [(1, None, inl [1; 2; 3; 4]);
                                  (2, Some [1; 2; 3; 4], inr (WorkFailure 7))];
               Pipeline.world := tt |}).
  - apply registered_wf.
  - vm_compute. reflexivity.
Defined.

(** X8: when no unit of work ever raises, [run] on a well-formed
    graph returns a table. *)
Theorem run_returns_when_works_return (Val World : Type)
        (work : Node -> option Val -> World -> (Val + exn) * World)
        (self : Pipeline.t) (w : World) :
  wf (DAG.graph (Pipeline.tasks self)) ->
  (forall n x w0, exists v w', work n x w0 = (inl v, w')) ->
  exists results fr self',
    Pipeline.run work self w = (Ok results, fr, self').
Proof.
  intros Hwf Htotal.
  destruct (Pipeline.run work self w) as [[r fr] self'] eqn:Hrun.
  destruct (run_unfold _ _ _ _ _ _ _ _ Hwf Hrun)
    as (out & deg' & r0 & Hs & Hinv & E & ->).
  rewrite (run_loop_total Val World work _ _ _ _ _ _ Htotal Hwf Hinv E).
  eauto.
Qed.

Lemma run_returns_when_works_return_witness :
  exists results fr self',
    Pipeline.run (Pipeline.pure_work (World := unit) trail_work) diamond tt
    = (Ok results, fr, self').
Proof.
  apply (run_returns_when_works_return
           (list Node) unit (Pipeline.pure_work trail_work) diamond tt).
  - apply registered_wf.
  - intros n [l|] w0; eexists _, _; reflexivity.
Defined.

(** X9: the table that [run] returns lists the nodes that [sort]
    scheduled, one entry each, in the order of the schedule. *)
Theorem run_table_lists_schedule (Val World : Type)
        (work : Node -> option Val -> World -> (Val + exn) * World)
        (self self' : Pipeline.t) (w : World)
        (results : Dict.t Val) (fr : Pipeline.frame Val World) :
  wf (DAG.graph (Pipeline.tasks self)) ->
  Pipeline.run work self w = (Ok results, fr, self') ->
  fst (DAG.sort (Pipeline.tasks self)) = Ok (Dict.keys results).
Proof.
  intros Hwf Hrun.
  destruct (run_unfold _ _ _ _ _ _ _ _ Hwf Hrun)
    as (out & deg' & r0 & Hs & Hinv & E & Hr).
  destruct r0 as [[]|e|]; try discriminate. inversion Hr; subst results.
  rewrite Hs. simpl. f_equal.
  apply run_loop_keys in E; [now rewrite E|].
  simpl. now apply (sorted_length _ _ _ Hinv).
Qed.

Lemma run_table_lists_schedule_witness :
  fst (DAG.sort (Pipeline.tasks diamond))
  = Ok (Dict.keys [(1, [1]); (2, [1; 2]); (3, [1; 3]); (4, [1; 3; 4])]).
Proof.
  eapply (run_table_lists_schedule
            (list Node) unit (Pipeline.pure_work trail_work) diamond _ tt).
  - apply registered_wf.
  - vm_compute. reflexivity.
Defined.

Lemma grows_in t k k' x : grows t k k' -> In x k -> In x k'.
Proof.
  intros [->|[_ ->]] H; auto. apply in_or_app. now left.
Qed.

Lemma calls_of_all (Val : Type) t (log : list (Pipeline.call Val)) :
  Forall (fun c => callee c = t) log -> calls_of t log = log.
Proof.
  induction 1 as [|c l Hc _ IH]; [reflexivity|].
  unfold calls_of in *. simpl. rewrite Hc, Nat.eqb_refl. now rewrite IH.
Qed.

Lemma calls_of_none (Val : Type) t (log : list (Pipeline.call Val)) :
  Forall (fun c => callee c <> t) log -> calls_of t log = [].
Proof.
  induction 1 as [|c l Hc _ IH]; [reflexivity|].
  unfold calls_of in *. simpl. apply Nat.eqb_neq in Hc. now rewrite Hc.
Qed.

Lemma calls_of_app (Val : Type) t (l1 l2 : list (Pipeline.call Val)) :
  calls_of t (l1 ++ l2) = calls_of t l1 ++ calls_of t l2.
Proof. apply filter_app. Qed.

Section RunCount.

Variables (Val World : Type).
Variable work : Node -> option Val -> World -> (Val + exn) * World.

(** A scan that returns has called [t] once for each node that holds
    it. *)
Lemma feed_ok_count items t : forall (fr fr' : Pipeline.frame Val World),
  Pipeline.feed work items t fr = (Ok tt, fr') ->
  exists later,
    Pipeline.calls fr' = Pipeline.calls fr ++ later
    /\ length later = length (holders items t)
    /\ (holders items t <> [] -> In t (Dict.keys (Pipeline.completed fr')))
    /\ (holders items t = [] -> fr' = fr).
Proof.
  induction items as [|[node values] items IH]; intros fr fr' H; simpl in H.
  - inversion H; subst. exists []. rewrite app_nil_r. repeat split; auto.
    intros Hne. now elim Hne.
  - unfold holders in *. simpl. destruct (mem t values).
    + destruct (Dict.get (Pipeline.completed fr) node) as [x|]; [|discriminate].
      destruct (invoke_cases Val World work t (Some x) fr)
        as [(v & w' & _ & E)|(e & w' & _ & E)]; rewrite E in H; [|discriminate].
      pose proof (feed_keys Val World work _ _ _ _ _ H) as Hk.
      destruct (IH _ _ H) as (later & Hl & Hlen & _ & _).
      simpl in Hl, Hk.
      exists ((t, Some x, inl v) :: later). split; [|split; [|split]].
      * rewrite Hl, <- app_assoc. reflexivity.
      * simpl. now rewrite Hlen.
      * intros _. apply (grows_in _ _ _ _ Hk). apply in_keys_set. now right.
      * discriminate.
    + apply IH. exact H.
Qed.

Lemma exec_ok_count g t (fr fr' : Pipeline.frame Val World) :
  Pipeline.exec work g t fr = (Ok tt, fr') ->
  ~ In t (Dict.keys (Pipeline.completed fr)) ->
  exists later,
    Pipeline.calls fr' = Pipeline.calls fr ++ later
    /\ length later = Nat.max 1 (length (holders g t))
    /\ Forall (fun c => callee c = t) later.
Proof.
  intros H Ht.
  destruct (exec_log Val World work _ _ _ _ _ H) as (later & Hl & Hall).
  exists later. split; [exact Hl|]. split; [|exact Hall].
  unfold Pipeline.exec in H.
  destruct (Pipeline.feed work g t fr) as [[[]|e|] fr1] eqn:E; try discriminate.
  destruct (feed_ok_count _ _ _ _ E) as (l1 & Hl1 & Hlen & Hin & Hsame).
  destruct (holders g t) as [|h hs] eqn:Hh.
  - rewrite (Hsame eq_refl) in *.
    assert (C : Dict.contains (Pipeline.completed fr) t = false).
    { destruct (Dict.contains (Pipeline.completed fr) t) eqn:C; auto.
      apply contains_iff in C. contradiction. }
    rewrite C in H.
    destruct (invoke_cases Val World work t None fr)
      as [(v & w' & _ & E')|(e & w' & _ & E')]; rewrite E' in H;
      inversion H; subst. simpl in Hl.
    apply app_inv_head in Hl. now subst later.
  - assert (C : Dict.contains (Pipeline.completed fr1) t = true).
    { apply contains_iff. apply Hin. discriminate. }
    rewrite C in H. inversion H; subst.
    rewrite Hl1 in Hl. apply app_inv_head in Hl. subst l1.
    rewrite Hlen. simpl. reflexivity.
Qed.

Lemma run_loop_count g rest : forall (fr fr' : Pipeline.frame Val World),
  Pipeline.run_loop work g rest fr = (Ok tt, fr') ->
  NoDup (Dict.keys (Pipeline.completed fr) ++ rest) ->
  forall t,
    length (calls_of t (Pipeline.calls fr'))
    = length (calls_of t (Pipeline.calls fr))
      + (if mem t rest then Nat.max 1 (length (holders g t)) else 0).
Proof.
  induction rest as [|t0 rest IH]; intros fr fr' H Hnd t; simpl in H.
  - inversion H; subst. simpl. lia.
  - destruct (Pipeline.exec work g t0 fr) as [[[]|e|] fr1] eqn:E;
      try discriminate.
    assert (Ht0 : ~ In t0 (Dict.keys (Pipeline.completed fr))).
    { apply NoDup_remove_2 in Hnd. intros Hin. apply Hnd.
      apply in_or_app. now left. }
    assert (Ht0r : ~ In t0 rest).
    { apply NoDup_remove_2 in Hnd. intros Hin. apply Hnd.
      apply in_or_app. now right. }
    pose proof (exec_keys Val World work _ _ _ _ E Ht0) as Hk.
    destruct (exec_ok_count _ _ _ _ E Ht0) as (later & Hl & Hlen & Hall).
    rewrite (IH _ _ H) by (rewrite Hk, <- app_assoc; exact Hnd).
    rewrite Hl, calls_of_app, length_app.
    change (mem t (t0 :: rest)) with (Nat.eqb t t0 || mem t rest).
    destruct (Nat.eq_dec t t0) as [->|Hne].
    + rewrite (calls_of_all Val t0 later Hall).
      apply mem_false_iff in Ht0r. rewrite Ht0r, Hlen, Nat.eqb_refl.
      cbn [orb]. lia.
    + rewrite (calls_of_none Val t later).
      * apply Nat.eqb_neq in Hne. rewrite Hne. cbn [orb length]. lia.
      * eapply Forall_impl; [|exact Hall]. intros c ->. auto.
Qed.

End RunCount.

(** X10: in a run that returns, the work of a scheduled node is
    invoked once for each node whose successor list holds it, and once
    when none does; the work of a node that is not scheduled is not
    invoked. *)
Theorem run_invokes_once_per_predecessor (Val World : Type)
        (work : Node -> option Val -> World -> (Val + exn) * World)
        (self self' : Pipeline.t) (w : World)
        (results : Dict.t Val) (fr : Pipeline.frame Val World) (t : Node) :
  wf (DAG.graph (Pipeline.tasks self)) ->
  Pipeline.run work self w = (Ok results, fr, self') ->
  length (calls_of t (Pipeline.calls fr))
  = if Dict.contains results t
    then Nat.max 1 (length (holders (DAG.graph (Pipeline.tasks self)) t))
    else 0.
Proof.
  intros Hwf Hrun.
  destruct (run_unfold _ _ _ _ _ _ _ _ Hwf Hrun)
    as (out & deg' & r0 & Hs & Hinv & E & Hr).
  destruct r0 as [[]|e|]; try discriminate. inversion Hr; subst results.
  pose proof (sorted_length _ _ _ Hinv) as [Hnd _].
  pose proof (run_loop_keys Val World work _ _ _ _ E Hnd) as Hk.
  rewrite (run_loop_count Val World work _ _ _ _ E Hnd t). simpl in *.
  assert (Hb : mem t out = Dict.contains (Pipeline.completed fr) t).
  { destruct (mem t out) eqn:M.
    - symmetry. apply contains_iff. rewrite Hk. now apply mem_iff.
    - destruct (Dict.contains (Pipeline.completed fr) t) eqn:C; auto.
      apply contains_iff in C. rewrite Hk in C. apply mem_iff in C. congruence. }
  now rewrite Hb.
Qed.

Lemma run_invokes_once_per_predecessor_witness :
  length (calls_of 4 [(1, None, inl [1]); (2, Some [1], inl [1; 2]);
                      (3, Some [1], inl [1; 3]); (4, Some [1; 2], inl [1; 2; 4]);
                      (4, Some [1; 3], inl [1; 3; 4])])
  = if Dict.contains [(1, [1]); (2, [1; 2]); (3, [1; 3]); (4, [1; 3; 4])] 4
    then Nat.max 1 (length (holders (DAG.graph (Pipeline.tasks diamond)) 4))
    else 0.
Proof.
  eapply (run_invokes_once_per_predecessor
            (list Node) unit (Pipeline.pure_work trail_work) diamond _ tt
            [(1, [1]); (2, [1; 2]); (3, [1; 3]); (4, [1; 3; 4])]
            {| Pipeline.completed :=
                 [(1, [1]); (2, [1; 2]); (3, [1; 3]); (4, [1; 3; 4])];
               Pipeline.calls :=
                 [(1, None, inl [1]); (2, Some [1], inl [1; 2]);
                  (3, Some [1], inl [1; 3]); (4, Some [1; 2], inl [1; 2; 4]);
                  (4, Some [1; 3], inl [1; 3; 4])];
               Pipeline.world := tt |} 4).
  - apply registered_wf.
  - vm_compute. reflexivity.
Defined.

(** X11: in a run that returns, a scheduled node that no edge points
    to is invoked once, with no input, and its entry in the table is
    what that call returned. *)
Theorem run_root_called_without_input (Val World : Type)
        (work : Node -> option Val -> World -> (Val + exn) * World)
        (self self' : Pipeline.t) (w : World)
        (results : Dict.t Val) (fr : Pipeline.frame Val World) (t : Node) :
  wf (DAG.graph (Pipeline.tasks self)) ->
  Pipeline.run work self w = (Ok results, fr, self') ->
  In t (Dict.keys results) ->
  last_incoming (DAG.graph (Pipeline.tasks self)) t = None ->
  exists v,
    calls_of t (Pipeline.calls fr) = [(t, None, inl v)]
    /\ Dict.get results t = Some v.
Proof.
  intros Hwf Hrun Ht Hlast.
  rewrite last_incoming_scan in Hlast. apply last_pred_none in Hlast.
  destruct (run_unfold _ _ _ _ _ _ _ _ Hwf Hrun)
    as (out & deg' & r0 & Hs & Hinv & E & Hr).
  destruct r0 as [[]|e|]; try discriminate. inversion Hr; subst results.
  pose proof (sorted_length _ _ _ Hinv) as [Hnd _].
  rewrite (run_loop_keys Val World work _ _ _ _ E Hnd) in Ht. simpl in Ht.
  apply in_split in Ht. destruct Ht as (r1 & r2 & ->).
  destruct (run_loop_app Val World work _ r1 (t :: r2) _ _ E) as (fr1 & E1 & E2).
  simpl in E2.
  destruct (Pipeline.exec work _ t fr1) as [[[]|e|] fr2] eqn:Ex; try discriminate.
  assert (Hnd1 : NoDup r1) by (now apply NoDup_app_remove_r in Hnd).
  pose proof (run_loop_keys Val World work _ _ _ _ E1 Hnd1) as Hk1.
  simpl in Hk1.
  assert (Ht1 : ~ In t r1).
  { apply NoDup_remove_2 in Hnd. intros H. apply Hnd. apply in_or_app. now left. }
  assert (Ht2 : ~ In t r2).
  { apply NoDup_remove_2 in Hnd. intros H. apply Hnd. apply in_or_app. now right. }
  destruct (run_loop_log Val World work _ _ _ _ _ E1) as (l1 & Hl1 & F1).
  destruct (run_loop_log Val World work _ _ _ _ _ E2) as (l2 & Hl2 & F2).
  simpl in Hl1.
  unfold Pipeline.exec in Ex.
  rewrite (feed_no_holder Val World work _ t fr1 Hlast) in Ex.
  assert (C : Dict.contains (Pipeline.completed fr1) t = false).
  { destruct (Dict.contains (Pipeline.completed fr1) t) eqn:C; auto.
    apply contains_iff in C. rewrite Hk1 in C. contradiction. }
  rewrite C in Ex.
  destruct (invoke_cases Val World work t None fr1)
    as [(v & w' & _ & E')|(e & w' & _ & E')]; rewrite E' in Ex;
    inversion Ex; subst fr2. clear Ex.
  exists v. split.
  - rewrite Hl2. simpl. rewrite Hl1, !calls_of_app.
    rewrite (calls_of_none Val t l1), (calls_of_none Val t l2).
    + unfold calls_of, callee. simpl. now rewrite Nat.eqb_refl.
    + eapply Forall_impl; [|exact F2]. intros c Hc Heq. apply Ht2. now rewrite <- Heq.
    + eapply Forall_impl; [|exact F1]. intros c Hc Heq. apply Ht1. now rewrite <- Heq.
  - rewrite (run_loop_frame _ _ _ _ _ _ _ _ t E2 Ht2). simpl.
    apply get_set_same.
Qed.

Lemma run_root_called_without_input_witness :
  exists v,
    calls_of 1 [(1, None, inl [1]); (2, Some [1], inl [1; 2]);
                (3, Some [1], inl [1; 3]); (4, Some [1; 2], inl [1; 2; 4]);
                (4, Some [1; 3], inl [1; 3; 4])]
    = [(1, None, inl v)]
    /\ Dict.get [(1, [1]); (2, [1; 2]); (3, [1; 3]); (4, [1; 3; 4])] 1 = Some v.
Proof.
  eapply (run_root_called_without_input
            (list Node) unit (Pipeline.pure_work trail_work) diamond _ tt
            [(1, [1]); (2, [1; 2]); (3, [1; 3]); (4, [1; 3; 4])]
            {| Pipeline.completed :=
                 [(1, [1]); (2, [1; 2]); (3, [1; 3]); (4, [1; 3; 4])];
               Pipeline.calls :=
                 [(1, None, inl [1]); (2, Some [1], inl [1; 2]);
                  (3, Some [1], inl [1; 3]); (4, Some [1; 2], inl [1; 2; 4]);
                  (4, Some [1; 3], inl [1; 3; 4])];
               Pipeline.world := tt |} 1).
  - apply registered_wf.
  - vm_compute. reflexivity.
  - simpl. tauto.
  - reflexivity.
Defined.

(* ================================================================== *)
(** * Pipelines registered as a chain *)

Lemma ensure_cons_other x s g n :
  n <> x -> DAG.ensure ((x, s) :: g) n = (x, s) :: DAG.ensure g n.
Proof.
  intros Hne. apply Nat.eqb_neq in Hne.
  unfold DAG.ensure, Dict.contains. simpl. rewrite Hne.
  destruct (Dict.get g n); reflexivity.
Qed.

Lemma inserted_cons_other x s g node to :
  node <> x -> to <> x ->
  inserted ((x, s) :: g) node (Some to) = (x, s) :: inserted g node (Some to).
Proof.
  intros Hn Ht. unfold inserted.
  rewrite !ensure_cons_other by auto. unfold DAG.append_edge. simpl.
  apply Nat.eqb_neq in Hn. rewrite Hn.
  destruct (Dict.get (DAG.ensure (DAG.ensure g node) to) node); reflexivity.
Qed.

Lemma chain_dag_head (l : list Node) n :
  l <> [] ->
  match l ++ [n] with [] => [] | m :: _ => [m] end
  = match l with [] => [] | m :: _ => [m] end.
Proof. destruct l; [congruence | reflexivity]. Qed.

(** Registering [n] after the chain that ends in [prev] extends the
    chain. *)
Lemma chain_dag_extend pre : forall prev n,
  NoDup (pre ++ [prev]) -> ~ In n (pre ++ [prev]) ->
  inserted (inserted (chain_dag (pre ++ [prev])) n None) prev (Some n)
  = chain_dag ((pre ++ [prev]) ++ [n]).
Proof.
  induction pre as [|x pre IH]; intros prev n Hnd Hn.
  - simpl in *. assert (E : Nat.eqb n prev = false)
      by (apply Nat.eqb_neq; intuition congruence).
    assert (E' : Nat.eqb prev n = false) by (now rewrite Nat.eqb_sym).
    unfold inserted, DAG.ensure, DAG.append_edge, Dict.contains.
    repeat (simpl; rewrite ?Nat.eqb_refl, ?E, ?E'). reflexivity.
  - assert (Hx : n <> x) by (intros ->; apply Hn; now left).
    assert (Hn' : ~ In n (pre ++ [prev])) by (intros H; apply Hn; now right).
    change ((x :: pre) ++ [prev]) with (x :: (pre ++ [prev])) in *.
    inversion Hnd as [|? ? Hxin Hnd']; subst.
    assert (Hp : prev <> x).
    { intros ->. apply Hxin. apply in_or_app. right. now left. }
    cbn [chain_dag app].
    unfold inserted at 2. rewrite ensure_cons_other by auto.
    rewrite inserted_cons_other by auto.
    change (DAG.ensure (chain_dag (pre ++ [prev])) n)
      with (inserted (chain_dag (pre ++ [prev])) n None).
    rewrite IH by auto. f_equal. f_equal.
    symmetry. apply chain_dag_head. destruct pre; discriminate.
Qed.

Lemma register_chain l : forall pre prev self,
  wf (DAG.graph (Pipeline.tasks self)) ->
  DAG.graph (Pipeline.tasks self) = chain_dag (pre ++ [prev]) ->
  NoDup ((pre ++ [prev]) ++ l) ->
  truth prev = true -> Forall (fun n => truth n = true) l ->
  DAG.graph (Pipeline.tasks (Pipeline.register self (chain_decls (Some prev) l)))
  = chain_dag ((pre ++ [prev]) ++ l).
Proof.
  induction l as [|n l IH]; intros pre prev self Hwf Hg Hnd Tp Tl.
  - simpl. now rewrite app_nil_r.
  - inversion Tl as [|? ? Tn Tl']; subst.
    cbn [chain_decls]. unfold Pipeline.register. cbn [fold_left fst snd].
    destruct (task_ok self (Some prev) n Hwf) as (self1 & Ht & Hwf1 & G1).
    rewrite (given_truthy prev Tp), (given_truthy n Tn) in G1.
    rewrite Ht. simpl.
    change (fold_left _ (chain_decls (Some n) l) self1)
      with (Pipeline.register self1 (chain_decls (Some n) l)).
    assert (Hnd1 : NoDup (pre ++ [prev]) /\ ~ In n (pre ++ [prev])).
    { split; [now apply NoDup_app_remove_r in Hnd|].
      apply NoDup_remove_2 in Hnd. intros H. apply Hnd.
      apply in_or_app. now left. }
    rewrite Hg in G1. rewrite chain_dag_extend in G1 by tauto.
    rewrite (IH (pre ++ [prev]) n self1 Hwf1 G1); auto.
    + now rewrite <- (app_assoc (pre ++ [prev]) [n] l).
    + now rewrite <- (app_assoc (pre ++ [prev]) [n] l).
Qed.

Lemma chain_graph_of l :
  NoDup l -> Forall (fun n => truth n = true) l ->
  DAG.graph (Pipeline.tasks (Pipeline.register Pipeline.init (chain_decls None l)))
  = chain_dag l.
Proof.
  intros Hnd Tl. destruct l as [|n l]; [reflexivity|].
  inversion Tl as [|? ? Tn Tl']; subst.
  simpl. unfold Pipeline.register. simpl.
  destruct (task_ok Pipeline.init None n wf_empty) as (self1 & Ht & Hwf1 & G1).
  rewrite Ht. simpl.
  change (fold_left _ (chain_decls (Some n) l) self1)
    with (Pipeline.register self1 (chain_decls (Some n) l)).
  apply (register_chain l [] n self1 Hwf1); auto.
Qed.

Lemma chain_dag_keys l : Dict.keys (chain_dag l) = l.
Proof. induction l as [|n l IH]; simpl; [reflexivity | now rewrite IH]. Qed.

Lemma chain_dag_in l : forall u ps v,
  In (u, ps) (chain_dag l) -> In v ps ->
  exists pre post, l = pre ++ u :: v :: post.
Proof.
  induction l as [|n l IH]; intros u ps v Hin Hv; simpl in Hin; [destruct Hin|].
  destruct Hin as [H|H].
  - inversion H; subst. destruct l as [|m l]; [destruct Hv|].
    destruct Hv as [<-|[]]. exists [], l. reflexivity.
  - destruct (IH u ps v H Hv) as (pre & post & ->).
    exists (n :: pre), post. reflexivity.
Qed.

Lemma chain_dag_edge pre : forall u v post,
  NoDup (pre ++ u :: v :: post) -> edge (chain_dag (pre ++ u :: v :: post)) u v.
Proof.
  induction pre as [|x pre IH]; intros u v post Hnd.
  - apply (edge_intro _ u [v]); [|now left]. simpl. now rewrite Nat.eqb_refl.
  - inversion Hnd as [|? ? Hx Hnd']; subst.
    specialize (IH u v post Hnd'). apply edge_inv in IH.
    destruct IH as (ps & Hget & Hin).
    apply (edge_intro _ u ps); auto.
    change ((x :: pre) ++ u :: v :: post) with (x :: (pre ++ u :: v :: post)).
    cbn [chain_dag Dict.get].
    assert (E : Nat.eqb u x = false).
    { apply Nat.eqb_neq. intros ->. apply Hx. apply in_or_app. right. now left. }
    now rewrite E.
Qed.

Lemma chain_dag_wf l : NoDup l -> wf (chain_dag l).
Proof.
  intros Hnd. split.
  - now rewrite chain_dag_keys.
  - intros u ps v Hin Hv. rewrite chain_dag_keys.
    destruct (chain_dag_in l u ps v Hin Hv) as (pre & post & ->).
    apply in_or_app. right. right. now left.
Qed.

Lemma chain_dag_acyclic l : NoDup l -> acyclic (chain_dag l).
Proof.
  intros Hnd.
  apply (ranked_acyclic _ (fun v => match pos l v with Some i => i | None => 0 end)).
  intros u v He. apply edge_inv in He. destruct He as (ps & Hget & Hv).
  apply get_in in Hget.
  destruct (chain_dag_in l u ps v Hget Hv) as (pre & post & ->).
  assert (Hu : ~ In u pre).
  { apply NoDup_remove_2 in Hnd. intros H. apply Hnd. apply in_or_app. now left. }
  assert (Hv' : ~ In v (pre ++ [u])).
  { change (pre ++ u :: v :: post) with (pre ++ [u] ++ v :: post) in Hnd.
    rewrite app_assoc in Hnd. apply NoDup_remove_2 in Hnd.
    intros H. apply Hnd. apply in_or_app. now left. }
  rewrite (pos_app_notin pre _ u Hu). simpl. rewrite Nat.eqb_refl. simpl.
  change (pre ++ u :: v :: post) with (pre ++ [u] ++ v :: post).
  rewrite app_assoc, (pos_app_notin (pre ++ [u]) _ v Hv'). simpl.
  rewrite Nat.eqb_refl. simpl. rewrite length_app. simpl. lia.
Qed.

Lemma precedes_cons_inv x o u v :
  u <> x -> v <> x -> precedes (x :: o) u v -> precedes o u v.
Proof.
  intros Hu Hv (i & j & Hi & Hj & Hij). simpl in Hi, Hj.
  apply Nat.eqb_neq in Hu, Hv. rewrite Hu in Hi. rewrite Hv in Hj.
  destruct (pos o u) as [i'|] eqn:Pu; [|discriminate].
  destruct (pos o v) as [j'|] eqn:Pv; [|discriminate].
  simpl in Hi, Hj. injection Hi as <-. injection Hj as <-.
  exists i', j'. repeat split; auto. lia.
Qed.

(** A list in which each node of [tl] comes after the one before it
    in [x :: tl] has [x] before every node of [tl]. *)
Lemma first_precedes_all out tl : forall x,
  (forall pre u v post, x :: tl = pre ++ u :: v :: post -> precedes out u v) ->
  forall y, In y tl -> precedes out x y.
Proof.
  induction tl as [|z tl IH]; intros x Hcons y Hy; [destruct Hy|].
  assert (Hxz : precedes out x z) by (apply (Hcons [] x z tl); reflexivity).
  destruct Hy as [<-|Hy]; auto.
  apply precedes_trans with (v := z); auto.
  apply IH; auto. intros pre u v post Heq.
  apply (Hcons (x :: pre) u v post). simpl. now rewrite Heq.
Qed.

(** The only order of the nodes of [l] that keeps each after the one
    before it is [l]. *)
Lemma chain_order_unique l : forall out,
  NoDup l -> Permutation out l ->
  (forall pre u v post, l = pre ++ u :: v :: post -> precedes out u v) ->
  out = l.
Proof.
  induction l as [|x tl IH]; intros out Hnd Hperm Hcons.
  - apply Permutation_nil. now apply Permutation_sym.
  - assert (Hndo : NoDup out).
    { eapply Permutation_NoDup; [apply Permutation_sym; exact Hperm | exact Hnd]. }
    inversion Hnd as [|? ? Hx Hnd']; subst.
    destruct out as [|y o].
    { apply Permutation_nil in Hperm. discriminate. }
    assert (Hy : y = x).
    { destruct (Nat.eq_dec y x) as [|Hne]; auto. exfalso.
      assert (Hin : In y tl).
      { assert (In y (x :: tl)) as [H|H]
          by (eapply Permutation_in; [exact Hperm | now left]);
          [congruence | exact H]. }
      destruct (first_precedes_all (y :: o) tl x Hcons y Hin)
        as (i & j & Hi & Hj & Hij).
      simpl in Hj. rewrite Nat.eqb_refl in Hj. inversion Hj. lia. }
    subst y. f_equal. apply Permutation_cons_inv in Hperm.
    apply IH; auto.
    intros pre u v post Heq.
    assert (Hu : In u tl) by (rewrite Heq; apply in_or_app; right; now left).
    assert (Hv : In v tl)
      by (rewrite Heq; apply in_or_app; right; right; now left).
    apply (precedes_cons_inv x).
    + intros ->. contradiction.
    + intros ->. contradiction.
    + apply (Hcons (x :: pre) u v post). simpl. now rewrite Heq.
Qed.

Lemma sort_chain_dag l deg :
  NoDup l ->
  fst (DAG.sort {| DAG.graph := chain_dag l; DAG.degrees := deg |}) = Ok l.
Proof.
  intros Hnd.
  pose proof (chain_dag_wf l Hnd) as Hwf.
  destruct (sort_spec {| DAG.graph := chain_dag l; DAG.degrees := deg |} Hwf)
    as (out & deg' & Hs & Hinv).
  rewrite Hs. simpl in *. f_equal.
  pose proof (sorted_complete _ _ _ Hwf (chain_dag_acyclic l Hnd) Hinv) as Hall.
  apply chain_order_unique; auto.
  - apply NoDup_Permutation; auto.
    + now apply (sorted_length _ _ _ Hinv).
    + intros v. split.
      * intros Hv. rewrite <- (chain_dag_keys l).
        apply (inv_incl _ _ _ _ Hinv). now rewrite app_nil_r.
      * intros Hv. apply Hall. now rewrite chain_dag_keys.
  - intros pre u v post Heq. apply (inv_order _ _ _ _ Hinv).
    + rewrite Heq. apply chain_dag_edge. now rewrite <- Heq.
    + apply Hall. rewrite chain_dag_keys, Heq.
      apply in_or_app. right. right. now left.
Qed.

(** X15: when the functions of a notebook, which are truthy as every
    function object is, are registered one after the other, each
    depending on the one before, the graph is the chain of these
    functions and [sort] schedules them in the order of their
    registration. *)
Theorem chain_schedule_is_registration_order (l : list Node) :
  NoDup l -> Forall (fun n => truth n = true) l ->
  DAG.graph (Pipeline.tasks (Pipeline.register Pipeline.init (chain_decls None l)))
  = chain_dag l
  /\ fst (DAG.sort (Pipeline.tasks
                      (Pipeline.register Pipeline.init (chain_decls None l))))
     = Ok l.
Proof.
  intros Hnd Tl. pose proof (chain_graph_of l Hnd Tl) as G. split; [exact G|].
  rewrite (sort_same_graph _ {| DAG.graph := chain_dag l;
                                DAG.degrees := Dict.empty |} G).
  now apply sort_chain_dag.
Qed.

Lemma chain_schedule_is_registration_order_witness :
  DAG.graph (Pipeline.tasks
               (Pipeline.register Pipeline.init
                  (chain_decls None [1; 2; 3; 4; 5; 6; 7])))
  = chain_dag [1; 2; 3; 4; 5; 6; 7]
  /\ fst (DAG.sort (Pipeline.tasks
                      (Pipeline.register Pipeline.init
                         (chain_decls None [1; 2; 3; 4; 5; 6; 7]))))
     = Ok [1; 2; 3; 4; 5; 6; 7].
Proof.
  apply (chain_schedule_is_registration_order [1; 2; 3; 4; 5; 6; 7]).
  - repeat constructor; simpl; intuition lia.
  - repeat constructor.
Defined.

Lemma holders_none items t :
  (forall u ps, In (u, ps) items -> ~ In t ps) -> holders items t = [].
Proof.
  unfold holders. induction items as [|[u ps] items IH]; intros H; simpl;
    [reflexivity|].
  assert (M : mem t ps = false).
  { apply mem_false_iff. apply (H u ps). now left. }
  rewrite M. apply IH. intros u' ps' Hin. apply (H u' ps'). now right.
Qed.

Lemma holders_chain_head t post :
  NoDup (t :: post) -> holders (chain_dag (t :: post)) t = [].
Proof.
  intros Hnd. apply holders_none. intros u ps Hin Ht.
  destruct (chain_dag_in _ u ps t Hin Ht) as (pre & post' & Heq).
  inversion Hnd as [|? ? Hx _]; subst. apply Hx.
  destruct pre as [|y pre]; simpl in Heq; inversion Heq; subst.
  - now left.
  - apply in_or_app. right. right. now left.
Qed.

Lemma holders_chain_mid pre : forall p t post,
  NoDup (pre ++ p :: t :: post) ->
  holders (chain_dag (pre ++ p :: t :: post)) t = [(p, [t])].
Proof.
  induction pre as [|x pre IH]; intros p t post Hnd.
  - inversion Hnd as [|? ? _ Hnd']; subst.
    pose proof (holders_chain_head t post Hnd') as Hh.
    change (chain_dag ([] ++ p :: t :: post))
      with ((p, [t]) :: chain_dag (t :: post)).
    unfold holders in *. cbn [filter snd].
    assert (M : mem t [t] = true) by (apply mem_iff; now left).
    now rewrite M, Hh.
  - inversion Hnd as [|? ? Hx Hnd']; subst.
    specialize (IH p t post Hnd').
    change ((x :: pre) ++ p :: t :: post) with (x :: (pre ++ p :: t :: post)).
    unfold holders in *. cbn [chain_dag filter snd].
    assert (M : mem t (match pre ++ p :: t :: post with
                       | [] => []
                       | m :: _ => [m]
                       end) = false).
    { apply mem_false_iff.
      assert (Htp : ~ In t (pre ++ [p])).
      { change (pre ++ p :: t :: post) with (pre ++ [p] ++ t :: post) in Hnd'.
        rewrite app_assoc in Hnd'. apply NoDup_remove_2 in Hnd'.
        intros H. apply Hnd'. apply in_or_app. now left. }
      destruct pre as [|y pre]; simpl in *; intuition congruence. }
    rewrite M. exact IH.
Qed.

Section RunChain.

Variables (Val World : Type).
Variable work : Node -> option Val -> World -> (Val + exn) * World.

(** The scan passes over the nodes that do not hold [t]. *)
Lemma feed_holders items t : forall (fr : Pipeline.frame Val World),
  Pipeline.feed work items t fr = Pipeline.feed work (holders items t) t fr.
Proof.
  unfold holders.
  induction items as [|[node values] items IH]; intros fr; [reflexivity|].
  cbn [filter snd Pipeline.feed]. destruct (mem t values) eqn:M.
  - cbn [Pipeline.feed]. rewrite M.
    destruct (Dict.get (Pipeline.completed fr) node) as [x|]; [|reflexivity].
    destruct (Pipeline.invoke work t (Some x) fr) as [[[]|e|] fr1]; auto.
  - apply IH.
Qed.

Lemma run_loop_chain_tail l rest : forall pre p v (fr : Pipeline.frame Val World)
                                          table w',
  l = pre ++ p :: rest -> NoDup l ->
  Dict.keys (Pipeline.completed fr) = pre ++ [p] ->
  Dict.get (Pipeline.completed fr) p = Some v ->
  flow work (Some v) (Pipeline.world fr) rest = Some (table, w') ->
  exists fr',
    Pipeline.run_loop work (chain_dag l) rest fr = (Ok tt, fr')
    /\ Pipeline.completed fr' = Pipeline.completed fr ++ table
    /\ Pipeline.world fr' = w'.
Proof.
  induction rest as [|t rest IH]; intros pre p v fr table w' Hl Hnd Hk Hp Hflow.
  - simpl in Hflow. inversion Hflow; subst. exists fr. simpl.
    now rewrite app_nil_r.
  - simpl in Hflow.
    destruct (work t (Some v) (Pipeline.world fr)) as [[v1|e] w1] eqn:W;
      [|discriminate].
    destruct (flow work (Some v1) w1 rest) as [[table1 w2]|] eqn:F;
      [|discriminate].
    inversion Hflow; subst table w'. clear Hflow.
    assert (Ht : Dict.get (Pipeline.completed fr) t = None).
    { apply get_none_iff. rewrite Hk. rewrite Hl in Hnd.
      change (pre ++ p :: t :: rest) with (pre ++ [p] ++ t :: rest) in Hnd.
      rewrite app_assoc in Hnd. apply NoDup_remove_2 in Hnd.
      intros H. apply Hnd. apply in_or_app. now left. }
    set (fr1 := {| Pipeline.completed := Pipeline.completed fr ++ [(t, v1)];
                   Pipeline.calls := Pipeline.calls fr ++ [(t, Some v, inl v1)];
                   Pipeline.world := w1 |}).
    assert (Hex : Pipeline.exec work (chain_dag l) t fr = (Ok tt, fr1)).
    { unfold Pipeline.exec. rewrite feed_holders.
      rewrite Hl, holders_chain_mid by (rewrite <- Hl; exact Hnd).
      cbn [Pipeline.feed]. unfold mem at 1. simpl. rewrite Nat.eqb_refl. simpl.
      rewrite Hp. unfold Pipeline.invoke. rewrite W.
      rewrite (set_absent _ _ t v1 Ht). fold fr1.
      unfold Dict.contains.
      assert (G : Dict.get (Pipeline.completed fr1) t = Some v1).
      { unfold fr1. simpl. rewrite <- (set_absent _ _ t v1 Ht).
        apply get_set_same. }
      now rewrite G. }
    cbn [Pipeline.run_loop]. rewrite Hex.
    destruct (IH (pre ++ [p]) t v1 fr1 table1 w2) as (fr' & Hr & Hc & Hw); auto.
    + rewrite Hl, <- app_assoc. reflexivity.
    + unfold fr1. simpl. unfold Dict.keys in *. rewrite map_app, Hk. reflexivity.
    + unfold fr1. simpl. rewrite <- (set_absent _ _ t v1 Ht). apply get_set_same.
    + exists fr'. split; [exact Hr|]. split; [|exact Hw].
      rewrite Hc. unfold fr1. simpl. now rewrite <- app_assoc.
Qed.

Lemma run_loop_chain l (w : World) table w' :
  NoDup l ->
  flow work None w l = Some (table, w') ->
  exists fr',
    Pipeline.run_loop work (chain_dag l) l
      {| Pipeline.completed := Dict.empty; Pipeline.calls := [];
         Pipeline.world := w |}
    = (Ok tt, fr')
    /\ Pipeline.completed fr' = table
    /\ Pipeline.world fr' = w'.
Proof.
  intros Hnd Hflow. destruct l as [|t rest].
  - simpl in *. inversion Hflow; subst. eexists. split; [reflexivity|]. auto.
  - simpl in Hflow.
    destruct (work t None w) as [[v1|e] w1] eqn:W; [|discriminate].
    destruct (flow work (Some v1) w1 rest) as [[table1 w2]|] eqn:F;
      [|discriminate].
    inversion Hflow; subst table w'. clear Hflow.
    set (fr1 := {| Pipeline.completed := [(t, v1)];
                   Pipeline.calls := [(t, None, inl v1)];
                   Pipeline.world := w1 |}).
    assert (Hex : Pipeline.exec work (chain_dag (t :: rest)) t
                    {| Pipeline.completed := Dict.empty; Pipeline.calls := [];
                       Pipeline.world := w |}
                  = (Ok tt, fr1)).
    { unfold Pipeline.exec. rewrite feed_holders.
      rewrite holders_chain_head by exact Hnd.
      cbn [Pipeline.feed]. unfold Dict.contains, Pipeline.invoke. simpl.
      rewrite W. reflexivity. }
    cbn [Pipeline.run_loop]. rewrite Hex.
    destruct (run_loop_chain_tail (t :: rest) rest [] t v1 fr1 table1 w2)
      as (fr' & Hr & Hc & Hw); auto.
    + unfold fr1. simpl. now rewrite Nat.eqb_refl.
    + exists fr'. split; [exact Hr|]. split; [exact Hc | exact Hw].
Qed.

End RunChain.

Lemma flow_keys (Val World : Type)
      (work : Node -> option Val -> World -> (Val + exn) * World) l :
  forall x w table w',
    flow work x w l = Some (table, w') -> Dict.keys table = l.
Proof.
  induction l as [|n l IH]; intros x w table w' H; simpl in H.
  - now inversion H.
  - destruct (work n x w) as [[v|e] w1]; [|discriminate].
    destruct (flow work (Some v) w1 l) as [[t1 w2]|] eqn:F; [|discriminate].
    inversion H; subst. simpl. f_equal. eapply IH; eauto.
Qed.

(** X16: on a pipeline registered as a chain of functions, which are
    truthy, [run] calls the first function with no input and each
    other one, once, on what the one before returned; when none of
    them raises it returns the table of their results, in the order of
    registration, and leaves the world as these calls in turn leave
    it. *)
Theorem run_chain_composes (Val World : Type)
        (work : Node -> option Val -> World -> (Val + exn) * World)
        (w w' : World) (l : list Node) (table : Dict.t Val) :
  NoDup l -> Forall (fun n => truth n = true) l ->
  flow work None w l = Some (table, w') ->
  exists fr self',
    Pipeline.run work (Pipeline.register Pipeline.init (chain_decls None l)) w
    = (Ok table, fr, self')
    /\ Pipeline.world fr = w'
    /\ Dict.keys table = l.
Proof.
  intros Hnd Tl Hflow.
  pose proof (chain_graph_of l Hnd Tl) as G.
  assert (S : fst (DAG.sort (Pipeline.tasks
                     (Pipeline.register Pipeline.init (chain_decls None l))))
              = Ok l).
  { rewrite (sort_same_graph _ {| DAG.graph := chain_dag l;
                                  DAG.degrees := Dict.empty |} G).
    now apply sort_chain_dag. }
  destruct (run_loop_chain Val World work l w table w' Hnd Hflow)
    as (fr' & Hr & Hc & Hw).
  unfold Pipeline.run.
  pose proof (sort_graph (Pipeline.tasks
                (Pipeline.register Pipeline.init (chain_decls None l)))) as Gs.
  destruct (DAG.sort (Pipeline.tasks
              (Pipeline.register Pipeline.init (chain_decls None l))))
    as [r dag'] eqn:Hs.
  simpl in S, Gs. subst r. rewrite Gs, G, Hr.
  exists fr'. eexists. rewrite Hc. split; [reflexivity|]. split; [exact Hw|].
  eapply flow_keys; eauto.
Qed.

Lemma run_chain_composes_witness :
  exists fr self',
    Pipeline.run (Pipeline.pure_work trail_work)
                 (Pipeline.register Pipeline.init
                    (chain_decls None [1; 2; 3; 4; 5; 6; 7])) tt
    = (Ok [(1, [1]); (2, [1; 2]); (3, [1; 2; 3]); (4, [1; 2; 3; 4]);
           (5, [1; 2; 3; 4; 5]); (6, [1; 2; 3; 4; 5; 6]);
           (7, [1; 2; 3; 4; 5; 6; 7])], fr, self')
    /\ Pipeline.world fr = tt
    /\ Dict.keys [(1, [1]); (2, [1; 2]); (3, [1; 2; 3]); (4, [1; 2; 3; 4]);
                  (5, [1; 2; 3; 4; 5]); (6, [1; 2; 3; 4; 5; 6]);
                  (7, [1; 2; 3; 4; 5; 6; 7])]
       = [1; 2; 3; 4; 5; 6; 7].
Proof.
  apply (run_chain_composes (list Node) unit (Pipeline.pure_work trail_work)
           tt tt [1; 2; 3; 4; 5; 6; 7]).
  - repeat constructor; simpl; intuition lia.
  - repeat constructor.
  - reflexivity.
Defined.

(* ================================================================== *)
(** * run: the node with several predecessors, and the linear chain *)

Lemma sorted_untainted g deg out v :
  wf g -> kahn_inv g deg [] out ->
  In v (Dict.keys g) -> ~ tainted g v -> In v out.
Proof.
  intros Hwf Hinv Hk Hnt.
  destruct (in_dec Nat.eq_dec v out) as [H|H]; auto. exfalso. apply Hnt.
  apply (pred_closed_tainted g (fun v => In v (Dict.keys g) /\ ~ In v out)); auto.
  - tauto.
  - intros x [Hx Hnx].
    assert (Hpos : (0 < pending g out x)%Z).
    { pose proof (pending_nonneg g out x).
      destruct (Z.eq_dec (pending g out x) 0) as [Hz|Hz]; [|lia].
      exfalso. apply Hnx. apply (inv_ready _ _ _ _ Hinv) in Hz; auto.
      now rewrite app_nil_r in Hz. }
    destruct Hwf as [Hnd _].
    destruct (pending_pos_pred _ out x Hnd Hpos) as (u & He & Hu).
    exists u. repeat split; auto. eapply edge_source; eauto.
Qed.

Section RunSteps.

Variables (Val World : Type).
Variable work : Node -> option Val -> World -> (Val + exn) * World.

(** The call of a node that no successor list holds. *)
Lemma exec_no_holder g t (fr : Pipeline.frame Val World) v w' :
  holders g t = [] ->
  Dict.get (Pipeline.completed fr) t = None ->
  work t None (Pipeline.world fr) = (inl v, w') ->
  Pipeline.exec work g t fr
  = (Ok tt, {| Pipeline.completed := Dict.set (Pipeline.completed fr) t v;
               Pipeline.calls := Pipeline.calls fr ++ [(t, None, inl v)];
               Pipeline.world := w' |}).
Proof.
  intros Hh Hg Hw. unfold Pipeline.exec.
  rewrite (feed_holders Val World work), Hh. cbn [Pipeline.feed].
  unfold Dict.contains. rewrite Hg. unfold Pipeline.invoke. now rewrite Hw.
Qed.

(** The call of a node that one successor list holds. *)
Lemma exec_one_holder g t p ps (fr : Pipeline.frame Val World) x v w' :
  holders g t = [(p, ps)] -> mem t ps = true ->
  Dict.get (Pipeline.completed fr) p = Some x ->
  work t (Some x) (Pipeline.world fr) = (inl v, w') ->
  Pipeline.exec work g t fr
  = (Ok tt, {| Pipeline.completed := Dict.set (Pipeline.completed fr) t v;
               Pipeline.calls := Pipeline.calls fr ++ [(t, Some x, inl v)];
               Pipeline.world := w' |}).
Proof.
  intros Hh Hm Hx Hw. unfold Pipeline.exec.
  rewrite (feed_holders Val World work), Hh. cbn [Pipeline.feed].
  rewrite Hm, Hx. unfold Pipeline.invoke. rewrite Hw.
  unfold Dict.contains. cbn [Pipeline.completed]. now rewrite get_set_same.
Qed.

End RunSteps.

(** C6: the table that [run] returns holds, for a node with
    predecessors that has an entry, what the last invocation of its
    work returned, and that invocation was made on the entry of the
    source of the last edge into the node in scanning order, whether
    the graph has a cycle elsewhere or not.  When no unit of work
    raises and the node is neither on a cycle nor below one, [run]
    does return a table with an entry for it. *)
Theorem run_last_predecessor_wins (Val World : Type)
        (work : Node -> option Val -> World -> (Val + exn) * World)
        (self : Pipeline.t) (w : World) (t p : Node) :
  wf (DAG.graph (Pipeline.tasks self)) ->
  last_incoming (DAG.graph (Pipeline.tasks self)) t = Some p ->
  (forall results fr self',
      Pipeline.run work self w = (Ok results, fr, self') ->
      In t (Dict.keys results) ->
      exists x v w1 w2 pre post,
        Dict.get results p = Some x
        /\ work t (Some x) w1 = (inl v, w2)
        /\ Dict.get results t = Some v
        /\ Pipeline.calls fr = pre ++ (t, Some x, inl v) :: post
        /\ Forall (fun c => callee c <> t) post)
  /\ ((forall n x w0, exists v w', work n x w0 = (inl v, w')) ->
      ~ tainted (DAG.graph (Pipeline.tasks self)) t ->
      exists results fr self',
        Pipeline.run work self w = (Ok results, fr, self')
        /\ In t (Dict.keys results)).
Proof.
  intros Hwf L. rewrite last_incoming_scan in L.
  assert (Ht : In t (Dict.keys (DAG.graph (Pipeline.tasks self)))).
  { apply last_pred_in in L. destruct L as (vs & Hin & Hm).
    destruct Hwf as [_ Hcl]. apply (Hcl p vs); auto. now apply mem_iff. }
  split.
  - intros results fr self' Hrun Hin.
    destruct (run_unfold _ _ _ _ _ _ _ _ Hwf Hrun)
      as (out & deg' & r0 & Hs & Hinv & E & Hr).
    destruct r0 as [[]|e|]; try discriminate. inversion Hr; subst results.
    pose proof (sorted_length _ _ _ Hinv) as [Hnd _].
    assert (Hk : Dict.keys (Pipeline.completed fr) = out).
    { apply run_loop_keys in E; [exact E | exact Hnd]. }
    rewrite Hk in Hin.
    eapply (run_loop_last Val World work _ out t p _ fr); eauto.
    + apply Hwf.
    + intros u v. apply (inv_order _ _ _ _ Hinv).
  - intros Htotal Hnt.
    destruct (Pipeline.run work self w) as [[r fr] self'] eqn:Hrun.
    destruct (run_unfold _ _ _ _ _ _ _ _ Hwf Hrun)
      as (out & deg' & r0 & Hs & Hinv & E & Hr).
    pose proof (run_loop_total Val World work _ _ _ _ _ _ Htotal Hwf Hinv E)
      as ->.
    subst r. exists (Pipeline.completed fr), fr, self'.
    split; [reflexivity|].
    pose proof (sorted_length _ _ _ Hinv) as [Hnd _].
    apply run_loop_keys in E; [|exact Hnd]. rewrite E. simpl.
    now apply (sorted_untainted (DAG.graph (Pipeline.tasks self)) deg').
Qed.

Lemma diamond_from_end_acyclic :
  acyclic (DAG.graph (Pipeline.tasks diamond_from_end)).
Proof.
  apply (ranked_acyclic _ (fun n => n)). intros u v He.
  apply edge_inv in He. destruct He as (ps & Hget & Hin).
  apply get_in in Hget. vm_compute in Hget.
  repeat (destruct Hget as [Hget|Hget];
          [inversion Hget; subst; simpl in Hin; lia|]).
  destruct Hget.
Qed.

Lemma run_last_predecessor_wins_witness :
  (exists x v (w1 w2 : unit) pre post,
      Dict.get [(1, [1]); (2, [1; 2]); (3, [1; 3]); (4, [1; 3; 4])] 3 = Some x
      /\ Pipeline.pure_work trail_work 4 (Some x) w1 = (inl v, w2)
      /\ Dict.get [(1, [1]); (2, [1; 2]); (3, [1; 3]); (4, [1; 3; 4])] 4 = Some v
      /\ [(1, None, inl [1]); (2, Some [1], inl [1; 2]);
          (3, Some [1], inl [1; 3]); (4, Some [1; 2], inl [1; 2; 4]);
          (4, Some [1; 3], inl [1; 3; 4])]
         = pre ++ (4, Some x, inl v) :: post
      /\ Forall (fun c => callee c <> 4) post)
  /\ (exists results fr self',
        Pipeline.run (Pipeline.pure_work (World := unit) trail_work)
                     diamond_from_end tt
        = (Ok results, fr, self')
        /\ In 4 (Dict.keys results)).
Proof.
  destruct (run_last_predecessor_wins
              (list Node) unit (Pipeline.pure_work trail_work)
              diamond_from_end tt 4 3)
    as [Hlast Hreturns].
  - apply registered_wf.
  - reflexivity.
  - split.
    + apply (Hlast
               [(1, [1]); (2, [1; 2]); (3, [1; 3]); (4, [1; 3; 4])]
               {| Pipeline.completed :=
                    [(1, [1]); (2, [1; 2]); (3, [1; 3]); (4, [1; 3; 4])];
                  Pipeline.calls :=
                    [(1, None, inl [1]); (2, Some [1], inl [1; 2]);
                     (3, Some [1], inl [1; 3]); (4, Some [1; 2], inl [1; 2; 4]);
                     (4, Some [1; 3], inl [1; 3; 4])];
                  Pipeline.world := tt |}
               {| Pipeline.tasks :=
                    {| DAG.graph := [(4, []); (2, [4]); (3, [4]); (1, [2; 3])];
                       DAG.degrees := [(4, 0%Z); (2, 0%Z); (3, 0%Z); (1, 0%Z)] |} |}).
      * reflexivity.
      * simpl. tauto.
    + apply Hreturns.
      * intros n [l|] w0; eexists _, _; reflexivity.
      * intros (c & Hc & _). exact (diamond_from_end_acyclic c Hc).
Defined.

(** A falsy [to] and a falsy [depends_on] are skipped: [add(1, 0)]
    leaves the graph with the node [1] alone, and registering [2] with
    [depends_on=0] registers [2] alone. *)
Example add_falsy_target :
  DAG.graph (snd (DAG.add DAG.init 1 (Some 0))) = [(1, [])]
  /\ DAG.graph (Pipeline.tasks (snd (Pipeline.task Pipeline.init (Some 0) 2)))
     = [(2, [])].
Proof. split; reflexivity. Qed.

(** On the pipeline with a cycle beside the fork, [run] returns, and
    the entry of [7] is its work on the result of [6], the source of
    the last edge into [7]. *)
Example run_loop_and_fork :
  fst (DAG.sort (Pipeline.tasks loop_and_fork)) = Ok [5; 6; 7]
  /\ cyclic (DAG.graph (Pipeline.tasks loop_and_fork))
  /\ fst (fst (Pipeline.run (Pipeline.pure_work trail_work) loop_and_fork tt))
     = Ok [(5, [5]); (6, [6]); (7, [6; 7])].
Proof.
  split; [reflexivity|]. split; [|reflexivity].
  exists 1. apply path_step with (v := 2); [|apply path_edge]; reflexivity.
Qed.

Lemma linear_chain_wf g A B C : linear_chain g A B C -> wf g.
Proof.
  intros (Hnd & Hperm & Hedge).
  assert (Hk : NoDup (Dict.keys g)).
  { eapply Permutation_NoDup; [apply Permutation_sym; exact Hperm | exact Hnd]. }
  split; [exact Hk|]. intros u ps v Hin Hv.
  assert (He : edge g u v).
  { apply (edge_intro g u ps v); [now apply in_get | exact Hv]. }
  apply Hedge in He.
  apply (Permutation_in _ (Permutation_sym Hperm)). simpl.
  destruct He as [[_ ->]|[_ ->]]; auto.
Qed.

Lemma linear_chain_distinct g A B C :
  linear_chain g A B C -> A <> B /\ B <> C /\ A <> C.
Proof.
  intros (Hnd & _). inversion Hnd as [|? ? HA Hnd']; subst.
  inversion Hnd' as [|? ? HB _]; subst. simpl in *. intuition congruence.
Qed.

Lemma linear_chain_acyclic g A B C : linear_chain g A B C -> acyclic g.
Proof.
  intros LC. destruct (linear_chain_distinct g A B C LC) as (HAB & HBC & HAC).
  destruct LC as (_ & _ & Hedge).
  apply (ranked_acyclic g (fun n => if Nat.eqb n A then 0
                                    else if Nat.eqb n B then 1 else 2)).
  intros u v He. apply Hedge in He.
  assert (E1 : Nat.eqb B A = false) by (apply Nat.eqb_neq; congruence).
  assert (E2 : Nat.eqb C A = false) by (apply Nat.eqb_neq; congruence).
  assert (E3 : Nat.eqb C B = false) by (apply Nat.eqb_neq; congruence).
  destruct He as [[-> ->]|[-> ->]]; rewrite ?Nat.eqb_refl, ?E1, ?E2, ?E3; lia.
Qed.

(** Whatever the order of its keys, [sort] schedules a linear chain
    from its first node to its last. *)
Lemma linear_chain_sort self A B C :
  linear_chain (DAG.graph self) A B C ->
  exists deg',
    DAG.sort self
    = (Ok [A; B; C], {| DAG.graph := DAG.graph self; DAG.degrees := deg' |}).
Proof.
  intros LC. pose proof (linear_chain_wf _ _ _ _ LC) as Hwf.
  pose proof (linear_chain_acyclic _ _ _ _ LC) as Hac.
  destruct (sort_spec self Hwf) as (out & deg' & Hs & Hinv).
  exists deg'. rewrite Hs. f_equal. f_equal.
  destruct LC as (Hnd & Hperm & Hedge).
  pose proof (sorted_complete _ _ _ Hwf Hac Hinv) as Hall.
  assert (Hin : forall v, In v [A; B; C] -> In v out).
  { intros v Hv. apply Hall.
    apply (Permutation_in _ (Permutation_sym Hperm)). exact Hv. }
  apply chain_order_unique; auto.
  - apply Permutation_trans with (l' := Dict.keys (DAG.graph self)); auto.
    apply NoDup_Permutation.
    + now apply (sorted_length _ _ _ Hinv).
    + apply Hwf.
    + intros v. split; [|apply Hall].
      intros Hv. apply (inv_incl _ _ _ _ Hinv). now rewrite app_nil_r.
  - intros pre u v post Heq. apply (inv_order _ _ _ _ Hinv).
    + apply Hedge.
      destruct pre as [|x [|y [|z pre]]]; simpl in Heq; inversion Heq; auto.
      destruct pre; discriminate.
    + apply Hin. rewrite Heq. apply in_or_app. right. right. now left.
Qed.

(** When [t] has exactly one predecessor, the scan finds [t] in one
    successor list. *)
Lemma holders_single g t p :
  NoDup (Dict.keys g) -> (forall u, edge g u t <-> u = p) ->
  exists ps, holders g t = [(p, ps)] /\ mem t ps = true.
Proof.
  induction g as [|[u ps] g IH]; intros Hnd Hedge.
  - assert (He : edge [] p t) by now apply Hedge. discriminate He.
  - inversion Hnd as [|? ? Hu Hnd']; subst.
    unfold holders. cbn [filter snd]. destruct (mem t ps) eqn:M.
    + assert (Hp : u = p).
      { apply Hedge. apply (edge_intro _ u ps t); [|now apply mem_iff].
        simpl. now rewrite Nat.eqb_refl. }
      subst u. exists ps. split; [|exact M]. f_equal.
      apply holders_none. intros u' ps' Hin Ht.
      assert (He : edge ((p, ps) :: g) u' t).
      { apply (edge_intro _ u' ps' t); [|exact Ht].
        apply in_get; [exact Hnd | now right]. }
      apply Hedge in He. subst u'. apply Hu.
      apply (in_map fst) in Hin. exact Hin.
    + apply IH; [exact Hnd'|]. intros u'. rewrite <- Hedge.
      unfold edge, edgeb. simpl.
      destruct (Nat.eqb_spec u' u) as [->|Hne]; [|tauto].
      rewrite M. split; [|discriminate].
      intros He. exfalso. apply Hu.
      destruct (Dict.get g u) as [l|] eqn:G; [|discriminate].
      apply get_some_iff. eauto.
Qed.

(** The chain registered in its own order is a linear chain. *)
Lemma registered_in_order_linear A B C :
  NoDup [A; B; C] -> Forall (fun n => truth n = true) [A; B; C] ->
  linear_chain
    (DAG.graph (Pipeline.tasks
                  (Pipeline.register Pipeline.init
                     [(A, None); (B, Some A); (C, Some B)]))) A B C.
Proof.
  intros Hnd T.
  change [(A, None); (B, Some A); (C, Some B)] with (chain_decls None [A; B; C]).
  rewrite (chain_graph_of [A; B; C] Hnd T).
  split; [exact Hnd|]. split; [apply Permutation_refl|].
  inversion Hnd as [|? ? HA Hnd']; subst.
  inversion Hnd' as [|? ? HB _]; subst. simpl in HA, HB.
  intros u v. unfold edge, edgeb, mem. simpl.
  destruct (Nat.eqb_spec u A) as [->|H1].
  { simpl. destruct (Nat.eqb_spec v B); simpl;
      [intuition | split; [discriminate | intuition congruence]]. }
  destruct (Nat.eqb_spec u B) as [->|H2].
  { simpl. destruct (Nat.eqb_spec v C); simpl;
      [intuition | split; [discriminate | intuition congruence]]. }
  destruct (Nat.eqb_spec u C) as [->|H3];
    (split; [discriminate | intuition congruence]).
Qed.

Lemma chain_from_end_linear :
  linear_chain (DAG.graph (Pipeline.tasks chain_from_end)) 1 2 3.
Proof.
  split; [|split].
  - repeat constructor; simpl; intuition lia.
  - change (Dict.keys (DAG.graph (Pipeline.tasks chain_from_end)))
      with (rev [1; 2; 3]).
    apply Permutation_sym, Permutation_rev.
  - intros u v.
    change (DAG.graph (Pipeline.tasks chain_from_end))
      with [(3, @nil Node); (2, [3]); (1, [2])].
    unfold edge, edgeb, mem. simpl.
    destruct (Nat.eqb_spec u 3) as [->|H3]; [split; [discriminate | lia]|].
    destruct (Nat.eqb_spec u 2) as [->|H2].
    { simpl. destruct (Nat.eqb_spec v 3); simpl;
        [intuition | split; [discriminate | lia]]. }
    destruct (Nat.eqb_spec u 1) as [->|H1].
    { simpl. destruct (Nat.eqb_spec v 2); simpl;
        [intuition | split; [discriminate | lia]]. }
    split; [discriminate | lia].
Qed.

(** C7: on every registered pipeline whose graph is the linear chain
    [A -> B -> C], in whatever order the three functions and their
    dependencies were registered, [run] with pure units of work calls
    [A] with no input, [B] on the result of [A] and [C] on the result
    of [B], and returns the table of the three results. *)
Theorem run_linear_chain (Val World : Type)
        (f : Node -> option Val -> Val + exn) (w : World)
        (decls : list (Node * option Node)) (A B C : Node) (a b c : Val) :
  linear_chain
    (DAG.graph (Pipeline.tasks (Pipeline.register Pipeline.init decls))) A B C ->
  f A None = inl a -> f B (Some a) = inl b -> f C (Some b) = inl c ->
  exists results fr self',
    Pipeline.run (Pipeline.pure_work f)
                 (Pipeline.register Pipeline.init decls) w
    = (Ok results, fr, self')
    /\ Dict.get results C = Some c
    /\ results = [(A, a); (B, b); (C, c)]
    /\ Pipeline.calls fr
       = [(A, None, inl a); (B, Some a, inl b); (C, Some b, inl c)].
Proof.
  intros LC FA FB FC.
  set (self := Pipeline.register Pipeline.init decls) in *.
  set (g := DAG.graph (Pipeline.tasks self)) in *.
  destruct (linear_chain_sort (Pipeline.tasks self) A B C LC) as (deg' & Hs).
  destruct (linear_chain_distinct g A B C LC) as (HAB & HBC & HAC).
  pose proof (linear_chain_wf g A B C LC) as [Hnd _].
  destruct LC as (_ & _ & Hedge).
  assert (E1 : Nat.eqb B A = false) by (apply Nat.eqb_neq; congruence).
  assert (E2 : Nat.eqb C A = false) by (apply Nat.eqb_neq; congruence).
  assert (E3 : Nat.eqb C B = false) by (apply Nat.eqb_neq; congruence).
  assert (HA : holders g A = []).
  { apply holders_none. intros u ps Hin Hv.
    assert (He : edge g u A)
      by (apply (edge_intro g u ps A); [now apply in_get | exact Hv]).
    apply Hedge in He. intuition congruence. }
  destruct (holders_single g B A Hnd) as (psA & HB & MB).
  { intros u. rewrite Hedge. intuition congruence. }
  destruct (holders_single g C B Hnd) as (psB & HC & MC).
  { intros u. rewrite Hedge. intuition congruence. }
  set (work := Pipeline.pure_work (World := World) f).
  set (fr0 := {| Pipeline.completed := @Dict.empty Val; Pipeline.calls := [];
                 Pipeline.world := w |}).
  set (fr1 := {| Pipeline.completed := [(A, a)];
                 Pipeline.calls := [(A, None, inl a)];
                 Pipeline.world := w |}).
  set (fr2 := {| Pipeline.completed := [(A, a); (B, b)];
                 Pipeline.calls := [(A, None, inl a); (B, Some a, inl b)];
                 Pipeline.world := w |}).
  set (fr3 := {| Pipeline.completed := [(A, a); (B, b); (C, c)];
                 Pipeline.calls := [(A, None, inl a); (B, Some a, inl b);
                                    (C, Some b, inl c)];
                 Pipeline.world := w |}).
  assert (X1 : Pipeline.exec work g A fr0 = (Ok tt, fr1)).
  { rewrite (exec_no_holder Val World work g A fr0 a w HA); auto.
    unfold work, Pipeline.pure_work. now rewrite FA. }
  assert (X2 : Pipeline.exec work g B fr1 = (Ok tt, fr2)).
  { rewrite (exec_one_holder Val World work g B A psA fr1 a b w HB MB).
    - unfold fr1, fr2. simpl. now rewrite E1.
    - simpl. now rewrite Nat.eqb_refl.
    - unfold work, Pipeline.pure_work. now rewrite FB. }
  assert (X3 : Pipeline.exec work g C fr2 = (Ok tt, fr3)).
  { rewrite (exec_one_holder Val World work g C B psB fr2 b c w HC MC).
    - unfold fr2, fr3. simpl. now rewrite E2, E3.
    - simpl. now rewrite E1, Nat.eqb_refl.
    - unfold work, Pipeline.pure_work. now rewrite FC. }
  unfold Pipeline.run. rewrite Hs. cbn [DAG.graph Pipeline.run_loop].
  fold g work fr0. rewrite X1, X2, X3.
  exists [(A, a); (B, b); (C, c)], fr3. eexists.
  split; [reflexivity|]. split; [|split; reflexivity].
  simpl. now rewrite E2, E3, Nat.eqb_refl.
Qed.

Lemma run_linear_chain_witness :
  exists results fr self',
    Pipeline.run (Pipeline.pure_work trail_work)
                 (Pipeline.register Pipeline.init
                    [(3, None); (2, None); (1, None); (2, Some 1); (3, Some 2)])
                 tt
    = (Ok results, fr, self')
    /\ Dict.get results 3 = Some [1; 2; 3]
    /\ results = [(1, [1]); (2, [1; 2]); (3, [1; 2; 3])]
    /\ Pipeline.calls fr
       = [(1, None, inl [1]); (2, Some [1], inl [1; 2]);
          (3, Some [1; 2], inl [1; 2; 3])].
Proof.
  apply (run_linear_chain
           (list Node) unit trail_work tt
           [(3, None); (2, None); (1, None); (2, Some 1); (3, Some 2)]
           1 2 3 [1] [1; 2] [1; 2; 3]).
  - exact chain_from_end_linear.
  - reflexivity.
  - reflexivity.
  - reflexivity.
Defined.

(* ================================================================== *)
(** * build_keyword_dictionary *)

Lemma wget_set_same (V : Type) (d : WordDict.t V) k v :
  WordDict.get (WordDict.set d k v) k = Some v.
Proof.
  induction d as [|[k' v'] d IH]; simpl.
  - now rewrite String.eqb_refl.
  - destruct (String.eqb k k') eqn:E; simpl; rewrite E; auto.
Qed.

Lemma wget_set_other (V : Type) (d : WordDict.t V) k k' v :
  k <> k' -> WordDict.get (WordDict.set d k v) k' = WordDict.get d k'.
Proof.
  intros Hne. induction d as [|[k0 v0] d IH]; simpl.
  - destruct (String.eqb_spec k' k); [congruence | reflexivity].
  - destruct (String.eqb_spec k k0) as [->|]; simpl.
    + destruct (String.eqb_spec k' k0); [congruence | reflexivity].
    + now rewrite IH.
Qed.

Lemma wcontains_keys (V : Type) (d : WordDict.t V) k :
  WordDict.contains d k = existsb (String.eqb k) (WordDict.keys d).
Proof.
  unfold WordDict.contains. induction d as [|[k' v'] d IH]; simpl; [reflexivity|].
  destruct (String.eqb k k'); simpl; auto.
Qed.

Lemma wkeys_set (V : Type) (d : WordDict.t V) k v :
  WordDict.keys (WordDict.set d k v) = see (WordDict.keys d) k.
Proof.
  unfold see. induction d as [|[k' v'] d IH]; simpl; [reflexivity|].
  destruct (String.eqb k k') eqn:E; simpl; [reflexivity|].
  rewrite IH. destruct (existsb (String.eqb k) (WordDict.keys d)); reflexivity.
Qed.

Lemma see_present seen word :
  existsb (String.eqb word) seen = true -> see seen word = seen.
Proof. unfold see. now intros ->. Qed.

Lemma occ_cons w x words :
  occ w (x :: words) = ((if String.eqb x w then 1 else 0) + occ w words)%Z.
Proof.
  unfold occ. simpl.
  destruct (String.string_dec x w) as [->|Hne].
  - rewrite String.eqb_refl. lia.
  - destruct (String.eqb_spec x w); [congruence | lia].
Qed.

Lemma occ_nonneg w words : (0 <= occ w words)%Z.
Proof. unfold occ. lia. Qed.

Section KeywordFacts.

Variable in_stop_words : str -> bool.

(** The first count of a word is 2: the entry is created with 1 and
    incremented at once. *)
Lemma bump_spec word_freq word :
  exists word_freq',
    bump word_freq word = Some word_freq'
    /\ WordDict.get word_freq' word
       = Some (match WordDict.get word_freq word with
               | Some k => k + 1
               | None => 2
               end)%Z
    /\ (forall u, u <> word ->
                  WordDict.get word_freq' u = WordDict.get word_freq u)
    /\ WordDict.keys word_freq' = see (WordDict.keys word_freq) word.
Proof.
  unfold bump.
  destruct (WordDict.get word_freq word) as [k|] eqn:G.
  - assert (C : WordDict.contains word_freq word = true)
      by (unfold WordDict.contains; now rewrite G).
    rewrite C. cbv zeta. rewrite G.
    eexists. split; [reflexivity|]. split; [apply wget_set_same|].
    split.
    + intros u Hu. apply wget_set_other. congruence.
    + apply wkeys_set.
  - assert (C : WordDict.contains word_freq word = false)
      by (unfold WordDict.contains; now rewrite G).
    rewrite C. cbv zeta.
    rewrite wget_set_same. eexists. split; [reflexivity|].
    split; [apply wget_set_same|]. split.
    + intros u Hu. rewrite !wget_set_other by congruence. reflexivity.
    + rewrite !wkeys_set. apply see_present.
      rewrite <- (wkeys_set _ word_freq word 1%Z), <- wcontains_keys.
      unfold WordDict.contains.
      now rewrite wget_set_same.
Qed.

Lemma count_words_spec words : forall word_freq,
  exists word_freq',
    count_words in_stop_words words word_freq = Some word_freq'
    /\ (forall w,
          WordDict.get word_freq' w
          = match WordDict.get word_freq w with
            | Some k =>
                Some (k + (if counted in_stop_words w then occ w words else 0))%Z
            | None =>
                if counted in_stop_words w && Z.ltb 0 (occ w words)
                then Some (occ w words + 1)%Z else None
            end)
    /\ WordDict.keys word_freq'
       = fold_left see (filter (counted in_stop_words) words)
                   (WordDict.keys word_freq).
Proof.
  induction words as [|x words IH]; intros word_freq.
  - exists word_freq. split; [reflexivity|]. split; [|reflexivity].
    intros w. unfold occ. simpl.
    destruct (WordDict.get word_freq w) as [k|].
    + f_equal. destruct (counted in_stop_words w); lia.
    + now rewrite andb_false_r.
  - cbn [count_words filter]. unfold count_word. fold (counted in_stop_words x).
    destruct (counted in_stop_words x) eqn:Cx.
    + destruct (bump_spec word_freq x) as (wf1 & Hb & Gx & Go & Hk).
      rewrite Hb. destruct (IH wf1) as (wf' & Hc & Hg & Hkeys).
      exists wf'. split; [exact Hc|]. split.
      * intros w. rewrite Hg, occ_cons.
        pose proof (occ_nonneg w words) as Hnn.
        destruct (String.eqb_spec x w) as [->|Hne].
        -- rewrite Gx, Cx. cbn [andb].
           destruct (WordDict.get word_freq w) as [k|]; [f_equal; lia|].
           assert (E : Z.ltb 0 (1 + occ w words) = true) by (apply Z.ltb_lt; lia).
           rewrite E. f_equal. lia.
        -- rewrite Go by congruence. reflexivity.
      * cbn [fold_left]. now rewrite Hkeys, Hk.
    + destruct (IH word_freq) as (wf' & Hc & Hg & Hkeys).
      exists wf'. split; [exact Hc|]. split; [|exact Hkeys].
      intros w. rewrite Hg, occ_cons.
      destruct (String.eqb_spec x w) as [->|Hne]; [|reflexivity].
      rewrite Cx. cbn [andb]. reflexivity.
Qed.

Lemma count_words_app a : forall b word_freq,
  count_words in_stop_words (a ++ b) word_freq
  = match count_words in_stop_words a word_freq with
    | Some word_freq' => count_words in_stop_words b word_freq'
    | None => None
    end.
Proof.
  induction a as [|x a IH]; intros b word_freq; simpl; [reflexivity|].
  destruct (count_word in_stop_words word_freq x); auto.
Qed.

Lemma count_titles_tokens titles : forall word_freq,
  count_titles in_stop_words titles word_freq
  = count_words in_stop_words (tokens titles) word_freq.
Proof.
  induction titles as [|t titles IH]; intros word_freq; [reflexivity|].
  unfold tokens. simpl. rewrite count_words_app.
  destruct (count_words in_stop_words (split_space t) word_freq); auto.
Qed.

Lemma build_spec titles :
  exists word_freq,
    build_keyword_dictionary in_stop_words titles = Some word_freq
    /\ (forall w,
          WordDict.get word_freq w
          = if counted in_stop_words w && Z.ltb 0 (occ w (tokens titles))
            then Some (occ w (tokens titles) + 1)%Z else None)
    /\ WordDict.keys word_freq
       = first_seen (filter (counted in_stop_words) (tokens titles)).
Proof.
  unfold build_keyword_dictionary. rewrite count_titles_tokens.
  destruct (count_words_spec (tokens titles) []) as (wf & Hc & Hg & Hk).
  exists wf. split; [exact Hc|]. split; [|exact Hk].
  intros w. now rewrite Hg.
Qed.

End KeywordFacts.

(** X17: [build_keyword_dictionary] never raises, and the number it
    records for a word is one more than the number of times the word
    occurs among the pieces of the titles: a word that is not empty
    and no stop word and occurs [n > 0] times gets [n + 1], every
    other word has no entry. *)
Theorem build_keyword_dictionary_counts (in_stop_words : str -> bool)
        (titles : list str) :
  exists word_freq,
    build_keyword_dictionary in_stop_words titles = Some word_freq
    /\ forall w,
         WordDict.get word_freq w
         = if truthy w && negb (in_stop_words w)
              && Z.ltb 0 (occ w (tokens titles))
           then Some (occ w (tokens titles) + 1)%Z else None.
Proof.
  destruct (build_spec in_stop_words titles) as (wf & Hb & Hg & _).
  exists wf. split; [exact Hb | exact Hg].
Qed.

(** X18: the keys of the dictionary that [build_keyword_dictionary]
    returns are the counted words, each once, in the order in which
    the titles first show them. *)
Theorem build_keyword_dictionary_key_order (in_stop_words : str -> bool)
        (titles : list str) :
  exists word_freq,
    build_keyword_dictionary in_stop_words titles = Some word_freq
    /\ WordDict.keys word_freq
       = first_seen (filter (fun w => truthy w && negb (in_stop_words w))
                            (tokens titles)).
Proof.
  destruct (build_spec in_stop_words titles) as (wf & Hb & _ & Hk).
  exists wf. split; [exact Hb | exact Hk].
Qed.

(* ================================================================== *)
(** * top_keywords *)

Lemma insert_desc_perm key x l : Permutation (insert_desc key x l) (x :: l).
Proof.
  induction l as [|y l IH]; simpl; [reflexivity|].
  destruct (Z.ltb (key x) (key y)); [|reflexivity].
  rewrite IH. apply perm_swap.
Qed.

Lemma sorted_desc_perm key l : Permutation (sorted_desc key l) l.
Proof.
  induction l as [|x l IH]; simpl; [reflexivity|].
  rewrite insert_desc_perm. now constructor.
Qed.

Lemma insert_desc_sorted key x l :
  Sorted.StronglySorted (fun a b => (key b <= key a)%Z) l ->
  Sorted.StronglySorted (fun a b => (key b <= key a)%Z) (insert_desc key x l).
Proof.
  induction 1 as [|y l Hs IH Hall]; simpl.
  - repeat constructor.
  - destruct (Z.ltb_spec (key x) (key y)) as [Hlt|Hge].
    + constructor; [exact IH|].
      rewrite Forall_forall in *. intros z Hz.
      apply (Permutation_in _ (insert_desc_perm key x l)) in Hz.
      destruct Hz as [<-|Hz]; [lia | now apply Hall].
    + constructor; [now constructor|].
      constructor; [exact Hge|].
      eapply Forall_impl; [|exact Hall]. intros z Hz. simpl in Hz. lia.
Qed.

Lemma sorted_desc_sorted key l :
  Sorted.StronglySorted (fun a b => (key b <= key a)%Z) (sorted_desc key l).
Proof.
  induction l as [|x l IH]; simpl; [constructor|].
  now apply insert_desc_sorted.
Qed.

(** The sort keeps the elements of equal key in their order. *)
Lemma insert_desc_stable key k x l :
  filter (fun w => Z.eqb (key w) k) (insert_desc key x l)
  = filter (fun w => Z.eqb (key w) k) (x :: l).
Proof.
  induction l as [|y l IH]; [reflexivity|].
  cbn [insert_desc]. destruct (Z.ltb_spec (key x) (key y)) as [Hlt|Hge];
    [|reflexivity].
  cbn [filter] in *. rewrite IH.
  destruct (Z.eqb_spec (key x) k) as [Hx|Hx];
    destruct (Z.eqb_spec (key y) k) as [Hy|Hy]; try reflexivity. lia.
Qed.

Lemma sorted_desc_stable key k l :
  filter (fun w => Z.eqb (key w) k) (sorted_desc key l)
  = filter (fun w => Z.eqb (key w) k) l.
Proof.
  induction l as [|x l IH]; [reflexivity|].
  cbn [sorted_desc fold_right]. fold (sorted_desc key l).
  rewrite insert_desc_stable. cbn [filter]. now rewrite IH.
Qed.

Lemma in_firstn (A : Type) n (l : list A) x : In x (firstn n l) -> In x l.
Proof.
  intros H. rewrite <- (firstn_skipn n l). apply in_or_app. now left.
Qed.

Lemma strongly_sorted_firstn (A : Type) (R : A -> A -> Prop) n : forall l,
  Sorted.StronglySorted R l -> Sorted.StronglySorted R (firstn n l).
Proof.
  induction n as [|n IH]; intros l Hs; [constructor|].
  destruct l as [|x l]; [constructor|]. simpl.
  inversion Hs as [|? ? Hs' Hall]; subst. constructor; [now apply IH|].
  rewrite Forall_forall in *. intros y Hy. apply Hall.
  eapply in_firstn; eauto.
Qed.

Lemma strongly_sorted_split (A : Type) (R : A -> A -> Prop) l1 : forall l2,
  Sorted.StronglySorted R (l1 ++ l2) ->
  forall a b, In a l1 -> In b l2 -> R a b.
Proof.
  induction l1 as [|x l1 IH]; intros l2 Hs a b Ha Hb; [destruct Ha|].
  simpl in Hs. inversion Hs as [|? ? Hs' Hall]; subst.
  destruct Ha as [<-|Ha].
  - rewrite Forall_forall in Hall. apply Hall. apply in_or_app. now right.
  - eapply IH; eauto.
Qed.

Lemma strongly_sorted_map (A B : Type) (f : A -> B) (R : B -> B -> Prop) l :
  Sorted.StronglySorted (fun a b => R (f a) (f b)) l ->
  Sorted.StronglySorted R (map f l).
Proof.
  induction 1 as [|x l Hs IH Hall]; simpl; constructor; auto.
  rewrite Forall_forall in *. intros y Hy. apply in_map_iff in Hy.
  destruct Hy as (z & <- & Hz). auto.
Qed.

Lemma wget_keys (V : Type) (d : WordDict.t V) w :
  In w (WordDict.keys d) -> exists v, WordDict.get d w = Some v.
Proof.
  induction d as [|[k v] d IH]; simpl; [tauto|].
  intros [->|H].
  - rewrite String.eqb_refl. eauto.
  - destruct (String.eqb w k); eauto.
Qed.

Lemma top_keywords_words word_freq :
  map fst (top_keywords word_freq)
  = firstn 100 (sorted_desc (freq word_freq) (WordDict.keys word_freq)).
Proof.
  unfold top_keywords. rewrite firstn_map, map_map. simpl.
  now rewrite map_id.
Qed.

Lemma top_keywords_entry word_freq w k :
  In (w, k) (top_keywords word_freq) ->
  WordDict.get word_freq w = Some k.
Proof.
  unfold top_keywords. intros H. apply in_firstn, in_map_iff in H.
  destruct H as (w' & Heq & Hin). inversion Heq; subst.
  apply (Permutation_in _ (sorted_desc_perm _ _)) in Hin.
  apply wget_keys in Hin. destruct Hin as (v & Hv).
  unfold freq. now rewrite Hv.
Qed.

(** X19: [top_keywords] returns at most 100 pairs, all of them when
    the dictionary has no more keys; each pair is a key with its
    value; the values never increase along the list; and a key that
    is left out has a value no greater than any value in the list. *)
Theorem top_keywords_are_the_top (word_freq : WordDict.t Z) :
  length (top_keywords word_freq) = Nat.min 100 (length word_freq)
  /\ (forall w k, In (w, k) (top_keywords word_freq) ->
                  WordDict.get word_freq w = Some k)
  /\ Sorted.StronglySorted (fun a b => (snd b <= snd a)%Z)
                           (top_keywords word_freq)
  /\ (forall w p, In w (WordDict.keys word_freq) ->
                  ~ In w (map fst (top_keywords word_freq)) ->
                  In p (top_keywords word_freq) ->
                  (freq word_freq w <= snd p)%Z).
Proof.
  split; [|split; [|split]].
  - unfold top_keywords. rewrite length_firstn, length_map.
    rewrite (Permutation_length (sorted_desc_perm _ _)).
    unfold WordDict.keys. now rewrite length_map.
  - apply top_keywords_entry.
  - unfold top_keywords. apply strongly_sorted_firstn.
    apply strongly_sorted_map. simpl. apply sorted_desc_sorted.
  - intros w p Hw Hout Hp. rewrite top_keywords_words in Hout.
    set (S := sorted_desc (freq word_freq) (WordDict.keys word_freq)) in *.
    assert (HwS : In w S)
      by (apply (Permutation_in _ (Permutation_sym (sorted_desc_perm _ _))); auto).
    rewrite <- (firstn_skipn 100 S) in HwS. apply in_app_or in HwS.
    destruct HwS as [H|H]; [contradiction|].
    assert (Hp' : In (fst p) (firstn 100 S)).
    { unfold S. rewrite <- top_keywords_words. now apply in_map. }
    assert (Hsnd : snd p = freq word_freq (fst p)).
    { unfold top_keywords in Hp. apply in_firstn, in_map_iff in Hp.
      destruct Hp as (w' & <- & _). reflexivity. }
    rewrite Hsnd.
    apply (strongly_sorted_split _ (fun a b => (freq word_freq b <= freq word_freq a)%Z)
             (firstn 100 S) (skipn 100 S)); auto.
    rewrite firstn_skipn. apply sorted_desc_sorted.
Qed.

Lemma filter_firstn_prefix (A : Type) (P : A -> bool) n (l : list A) :
  exists rest, filter P (firstn n l) ++ rest = filter P l.
Proof.
  exists (filter P (skipn n l)).
  now rewrite <- filter_app, firstn_skipn.
Qed.

(** X20: among the words with the same count, [top_keywords] keeps
    the order of the keys of the dictionary: the words it lists with
    count [k] are the first of the keys whose value is [k], in their
    order. *)
Theorem top_keywords_ties_keep_key_order (word_freq : WordDict.t Z) (k : Z) :
  exists rest,
    map fst (filter (fun p => Z.eqb (snd p) k) (top_keywords word_freq)) ++ rest
    = filter (fun w => Z.eqb (freq word_freq w) k) (WordDict.keys word_freq).
Proof.
  destruct (filter_firstn_prefix _ (fun w => Z.eqb (freq word_freq w) k) 100
              (sorted_desc (freq word_freq) (WordDict.keys word_freq)))
    as (rest & Hrest).
  exists rest. rewrite sorted_desc_stable in Hrest. rewrite <- Hrest. f_equal.
  unfold top_keywords. rewrite firstn_map.
  generalize (firstn 100 (sorted_desc (freq word_freq) (WordDict.keys word_freq))).
  intros l. induction l as [|w l IH]; [reflexivity|].
  simpl. destruct (Z.eqb (freq word_freq w) k); simpl; now rewrite IH.
Qed.

(** X21: every pair that [top_keywords] returns on the dictionary of
    [build_keyword_dictionary] is a word that is not empty and no
    stop word, with one more than the number of its occurrences in
    the titles: no count in the list is below 2. *)
Theorem top_keywords_of_built_dictionary (in_stop_words : str -> bool)
        (titles : list str) :
  exists word_freq,
    build_keyword_dictionary in_stop_words titles = Some word_freq
    /\ forall w k, In (w, k) (top_keywords word_freq) ->
         truthy w = true /\ in_stop_words w = false
         /\ k = (occ w (tokens titles) + 1)%Z /\ (2 <= k)%Z.
Proof.
  destruct (build_spec in_stop_words titles) as (wf & Hb & Hg & _).
  exists wf. split; [exact Hb|]. intros w k Hin.
  apply top_keywords_entry in Hin. rewrite Hg in Hin. unfold counted in Hin.
  destruct (truthy w); [|discriminate].
  destruct (in_stop_words w); [discriminate|].
  destruct (Z.ltb_spec 0 (occ w (tokens titles))); [|discriminate].
  simpl in Hin. inversion Hin. repeat split; auto. lia.
Qed.

Example keywords_of_two_titles :
  option_map top_keywords
    (build_keyword_dictionary (fun w => String.eqb w "the"%string)
       ["the new old  thing"%string; "old the old new"%string; "thing"%string])
  = Some [("old"%string, 4%Z); ("new"%string, 3%Z); ("thing"%string, 3%Z)].
Proof. reflexivity. Qed.
